(** * BFit: the normalized MBIS update and the Slater atomic density

    A shallow embedding of [fitting/fit/normalized_mbis.py] and of the
    class [SlaterAtoms] of [bfit/density.py], with the properties of
    these two modules stated and proved over it.

    Modelling conventions.

    - A Python float is a real number or a value that is not a finite
      number: [float := option R], [None] standing for NaN or an
      infinity.  Arithmetic on finite values is exact: no rounding, no
      overflow and no underflow, so that [exp] is never zero and the
      factorial never an infinity.  The closed forms below are
      therefore those of the code up to rounding; a statement that a
      value is strictly positive, or that it is a number and not
      masked or an infinity, is made only for operands of moderate
      size (see [moderate] and [resolves]), where no intermediate
      value of the code underflows or overflows.  [None] is
      absorbing.  The only IEEE operations whose result can be finite
      on a non-finite operand (a quotient by an infinity, [exp] of
      minus infinity) are never applied to a non-finite operand by the
      code modelled here.  Every comparison is false on [None], as it
      is on NaN: an infinite coefficient, which the comparison [> 0]
      of the code accepts, is outside the model.
    - A one-dimensional array, and an (n,1) column, is a [list]; a
      two-dimensional array is the list of its rows.  The argument
      [grid] of the functions of [normalized_mbis.py] is an (N,1)
      column, as the script of the file builds it, and their other
      arguments are one-dimensional; a one-dimensional grid, which
      broadcasts in another way, is outside the model.
    - An element of a [numpy.ma] masked array is [Masked] or holds a
      float.
    - A raised exception is a value [Raise e] of the type [result].
    - The operator [/] is the division of Python 3: [3/2] is [1.5].
    - Text written to the standard output is not modelled. *)

From Stdlib Require Import Reals Lra Lia ZArith List Bool Sorted.
From stdpp Require Import gmap strings.
Import ListNotations.
Local Open Scope R_scope.

(** ** Exceptions *)

Inductive exn : Type :=
| AssertionError
| ValueError
| NameError
| KeyError
| IndexError.

Inductive result (A : Type) : Type :=
| Ok (a : A)
| Raise (e : exn).
Arguments Ok {A} a.
Arguments Raise {A} e.

(** Sequencing: an exception raised by the first computation
    propagates.  The instance gives the notation [x ← r; k]. *)
#[export] Instance result_bind : MBind result :=
  fun A B (k : A -> result B) (r : result A) =>
    match r with
    | Ok a => k a
    | Raise e => Raise e
    end.

(** ** Floats *)

Definition float : Type := option R.

Definition Rltb (x y : R) : bool := if Rlt_dec x y then true else false.
Definition Rleb (x y : R) : bool := if Rle_dec x y then true else false.
Definition Reqb (x y : R) : bool := if Req_dec_T x y then true else false.

Definition flift1 (f : R -> R) (x : float) : float :=
  match x with
  | Some a => Some (f a)
  | None => None
  end.

Definition flift2 (f : R -> R -> R) (x y : float) : float :=
  match x, y with
  | Some a, Some b => Some (f a b)
  | _, _ => None
  end.

Definition fadd : float -> float -> float := flift2 Rplus.
Definition fsub : float -> float -> float := flift2 Rminus.
Definition fmul : float -> float -> float := flift2 Rmult.
Definition fopp : float -> float := flift1 Ropp.
Definition fabs : float -> float := flift1 Rabs.
Definition fexp : float -> float := flift1 exp.

(** [x / y]: a zero divisor gives an infinity or NaN. *)
Definition fdiv (x y : float) : float :=
  match x, y with
  | Some a, Some b => if Reqb b 0 then None else Some (a / b)
  | _, _ => None
  end.

(** [np.sqrt]: NaN on a negative argument. *)
Definition fsqrt (x : float) : float :=
  match x with
  | Some a => if Rltb a 0 then None else Some (sqrt a)
  | None => None
  end.

(** [x ** y] for a positive exponent [y] that is not an integer (the
    code uses [3/2] and [1/2]): NaN on a negative base. *)
Definition float_power (x : float) (y : R) : float :=
  match x with
  | Some a =>
      if Rltb 0 a then Some (Rpower a y)
      else if Reqb a 0 then Some 0
      else None
  | None => None
  end.

(** [np.power(x, n)] for an integer exponent [n]: [0 ** 0 = 1], and
    zero to a negative power is an infinity. *)
Definition float_power_int (x : float) (n : Z) : float :=
  match x with
  | Some a =>
      if (n <? 0)%Z && Reqb a 0 then None else Some (powerRZ a n)
  | None => None
  end.

(** [x > 0] and [x <= y], false on NaN. *)
Definition fgt0 (x : float) : bool :=
  match x with
  | Some a => Rltb 0 a
  | None => false
  end.

Definition fle (x y : float) : bool :=
  match x, y with
  | Some a, Some b => Rleb a b
  | _, _ => false
  end.

Definition fsum (l : list float) : float := fold_right fadd (Some 0) l.

(** [np.power(x, 2.)]. *)
Definition fsquare (x : float) : float := float_power_int x 2.

(** ** Arrays *)

(** numpy's broadcasting along one axis: two lengths are compatible
    when they are equal or one of them is 1. *)
Definition broadcastable (m n : nat) : bool :=
  (m =? n)%nat || (m =? 1)%nat || (n =? 1)%nat.

Definition broadcast_length (m n : nat) : nat :=
  if (m =? 1)%nat then n else m.

Definition broadcast_with {A B C : Type} (f : A -> B -> C)
    (xs : list A) (ys : list B) : list C :=
  match xs, ys with
  | [x], _ => map (f x) ys
  | _, [y] => map (fun x => f x y) xs
  | _, _ => zip_with f xs ys
  end.

(** Element-wise binary operation on two one-dimensional arrays (or
    two columns); lengths that are not compatible are a
    [ValueError]. *)
Definition np_broadcast {A B C : Type} (f : A -> B -> C)
    (xs : list A) (ys : list B) : result (list C) :=
  if broadcastable (length xs) (length ys)
  then Ok (broadcast_with f xs ys)
  else Raise ValueError.

(** A two-dimensional array: its rows and its number of columns (which
    the rows do not give when there is none). *)
Record matrix : Type := {
  ncols : nat;
  rows : list (list float)
}.

(** Element-wise operation of a (1,m) row with an (n,m') array, and of
    two arrays with the same number of rows. *)
Definition np_broadcast_row (f : float -> float -> float)
    (a : list float) (b : matrix) : result matrix :=
  if broadcastable (length a) (ncols b)
  then Ok {| ncols := broadcast_length (length a) (ncols b);
             rows := map (broadcast_with f a) (rows b) |}
  else Raise ValueError.

Definition np_broadcast_matrix (f : float -> float -> float)
    (a b : matrix) : result matrix :=
  if broadcastable (ncols a) (ncols b)
  then Ok {| ncols := broadcast_length (ncols a) (ncols b);
             rows := zip_with (broadcast_with f) (rows a) (rows b) |}
  else Raise ValueError.

(** [np.dot] of an (n,m) array, given by its rows and its number [m] of
    columns, with an array of length [m']: a [ValueError] unless
    [m = m']. *)
Definition np_dot (ncols : nat) (rows : list (list float)) (v : list float)
  : result (list float) :=
  if Nat.eqb ncols (length v)
  then Ok (map (fun row => fsum (zip_with fmul row v)) rows)
  else Raise ValueError.

(** [np.diff], [y[1:]] and [y[:-1]]. *)
Fixpoint np_diff (x : list float) : list float :=
  match x with
  | a :: ((b :: _) as tl) => fsub b a :: np_diff tl
  | _ => []
  end.

Definition np_tail {A : Type} (y : list A) : list A := tl y.
Definition np_init {A : Type} (y : list A) : list A := removelast y.

(** [np.trapz(y, x)] for plain arrays:
    [(d * (y[1:] + y[:-1]) / 2.0).sum()] with [d = diff(x)]. *)
Definition np_trapz (y x : list float) : result float :=
  let d := np_diff x in
  s ← np_broadcast fadd (np_tail y) (np_init y);
  t ← np_broadcast fmul d s;
  Ok (fsum (map (fun v => fdiv v (Some 2)) t)).

(** ** Masked arrays ([numpy.ma]) *)

Inductive melem : Type :=
| Masked
| Data (v : float).

Definition ma_asarray (a : list float) : list melem := map Data a.

Definition is_masked (a : melem) : bool :=
  match a with
  | Masked => true
  | Data _ => false
  end.

(** Masked division: the result is masked where an operand is masked,
    where the divisor is zero and where the quotient is not finite. *)
Definition ma_true_divide (a b : melem) : melem :=
  match a, b with
  | Data (Some x), Data (Some y) =>
      if Reqb y 0 then Masked else Data (Some (x / y))
  | _, _ => Masked
  end.

Definition ma_multiply (a b : melem) : melem :=
  match a, b with
  | Data x, Data y => Data (fmul x y)
  | _, _ => Masked
  end.

Definition ma_add (a b : melem) : melem :=
  match a, b with
  | Data x, Data y => Data (fadd x y)
  | _, _ => Masked
  end.

(** [np.log] of a masked array masks the entries that are not
    positive. *)
Definition ma_log (a : melem) : melem :=
  match a with
  | Masked => Masked
  | Data (Some x) => if Rleb x 0 then Masked else Data (Some (ln x))
  | Data None => Data None
  end.

(** [a[a <= v] = v]. *)
Definition ma_clamp (v : float) (a : melem) : melem :=
  match a with
  | Masked => Masked
  | Data x => if fle x v then Data v else Data x
  end.

Definition filled0 (a : melem) : float :=
  match a with
  | Masked => Some 0
  | Data v => v
  end.

(** [MaskedArray.sum]: the masked entries count for zero; the sum is
    masked when every entry is masked (an empty sum included, as the
    mask of the summed array is then an array, all of whose entries
    are set). *)
Definition ma_sum (l : list melem) : melem :=
  if forallb is_masked l then Masked else Data (fsum (map filled0 l)).

(** [np.trapz(y, x)] for a masked [y] and a plain [x]. *)
Definition ma_trapz (y : list melem) (x : list float) : result melem :=
  let d := np_diff x in
  s ← np_broadcast ma_add (np_tail y) (np_init y);
  t ← np_broadcast ma_multiply (ma_asarray d) s;
  Ok (ma_sum (map (fun v => ma_true_divide v (Data (Some 2))) t)).

(** Storing a masked scalar into a plain array stores NaN. *)
Definition ma_to_float (a : melem) : float :=
  match a with
  | Masked => None
  | Data v => v
  end.

(** ** [fitting/fit/normalized_mbis.py] *)

Module normalized_mbis.

Definition get_normalization_constant (exponent : float) : float :=
  fdiv (fmul (Some 4) (float_power exponent (3 / 2)))
       (float_power (Some PI) (1 / 2)).

(** [np.exp(-exponents * np.power(grid, 2.))] at one exponent and one
    grid point. *)
Definition gaussian (exponent r : float) : float :=
  fexp (fmul (fopp exponent) (fsquare r)).

(** [grid] is an (N,1) column, so [exponential] has one row per grid
    point and one column per exponent. *)
Definition normalized_gaussian_model (coefficients exponents grid : list float)
  : result (list float) :=
  let exponential := map (fun r => map (fun e => gaussian e r) exponents) grid in
  let normalization_constants := map get_normalization_constant exponents in
  normalized_coeffs ← np_broadcast fmul normalization_constants coefficients;
  np_dot (length exponents) exponential normalized_coeffs.

Definition integrate_error
    (coefficients exponents electron_density grid : list float)
  : result float :=
  gaussian_model ← normalized_gaussian_model coefficients exponents grid;
  diff ← np_broadcast fsub gaussian_model electron_density;
  y ← np_broadcast fmul (map fsquare grid) (map fabs diff);
  np_trapz y grid.

Definition integrate_normalized_model
    (coefficients exponents electron_density grid : list float)
  : result float :=
  gaussian_model ← normalized_gaussian_model coefficients exponents grid;
  y ← np_broadcast fmul (map fsquare grid) gaussian_model;
  np_trapz y grid.

(** The assignment that would clamp the model density is a comment in
    the source: the ratio is formed with the model density as it is. *)
Definition KL_objective_function
    (coefficients exponents true_density grid : list float)
  : result melem :=
  gaussian_density ← normalized_gaussian_model coefficients exponents grid;
  let masked_gaussian_density := ma_asarray gaussian_density in
  let masked_electron_density := ma_asarray true_density in
  ratio ← np_broadcast ma_true_divide
            masked_electron_density masked_gaussian_density;
  y ← np_broadcast ma_multiply masked_electron_density (map ma_log ratio);
  ma_trapz y grid.

(** The body of the loop [for i in range(0, len(initial_coeffs))] of
    [update_coefficients], at the coefficient and the exponent of
    index [i]. *)
Definition new_coefficient (ratio : list melem) (grid : list float)
    (coeff exponent : float) : result float :=
  let factor := fmul coeff (get_normalization_constant exponent) in
  i1 ← np_broadcast ma_multiply ratio
         (ma_asarray (map (gaussian exponent) grid));
  integrand ← np_broadcast ma_multiply i1 (ma_asarray (map fsquare grid));
  t ← ma_trapz integrand grid;
  Ok (ma_to_float (ma_multiply (Data factor) t)).

Fixpoint new_coefficients_loop (ratio : list melem) (grid : list float)
    (coeffs exponents : list float) : result (list float) :=
  match coeffs, exponents with
  | c :: coeffs', e :: exponents' =>
      x ← new_coefficient ratio grid c e;
      xs ← new_coefficients_loop ratio grid coeffs' exponents';
      Ok (x :: xs)
  | _, _ => Ok []
  end.

(** The two vectors have the same length once the assertions have
    passed, so the loop over the indices is a loop over the pairs. *)
Definition update_coefficients
    (initial_coeffs constant_exponents electron_density grid : list float)
    (masked_value : float) : result (list float) :=
  if negb (forallb fgt0 initial_coeffs) then Raise AssertionError
  else if negb (length initial_coeffs =? length constant_exponents)%nat
  then Raise AssertionError
  else if negb (length electron_density =? length grid)%nat
  then Raise AssertionError
  else
    gaussian_density ←
      normalized_gaussian_model initial_coeffs constant_exponents grid;
    let masked_gaussian_density :=
      map (ma_clamp masked_value) (ma_asarray gaussian_density) in
    let masked_electron_density := ma_asarray electron_density in
    ratio ← np_broadcast ma_true_divide
              masked_electron_density masked_gaussian_density;
    new_coefficients_loop ratio grid initial_coeffs constant_exponents.

(** The local variables of [fixed_iteration_MBIS_method] that the loop
    assigns.  [exponents] is among them because the source keeps, as a
    comment, the assignment that would update it. *)
Record loop_state : Type := {
  old_coefficients : list float;
  new_coefficients : list float;
  exponents : list float;
  counter : nat;
  error_array : list (list melem)
}.

Definition append_to (i : nat) (x : melem) (error_array : list (list melem))
  : list (list melem) :=
  alter (fun l => l ++ [x]) i error_array.

Definition loop_body (electron_density grid : list float) (masked_value : float)
    (st : loop_state) : result loop_state :=
  let temp_coefficients := new_coefficients st in
  new ← update_coefficients (old_coefficients st) (exponents st)
          electron_density grid masked_value;
  let old := temp_coefficients in
  approx_model ← normalized_gaussian_model new (exponents st) grid;
  inte_error ← integrate_error new (exponents st) electron_density grid;
  integration_model ←
    integrate_normalized_model new (exponents st) electron_density grid;
  obj_func_error ←
    KL_objective_function new (exponents st) electron_density grid;
  Ok {| old_coefficients := old;
        new_coefficients := new;
        exponents := exponents st;
        counter := S (counter st);
        error_array :=
          append_to 2 obj_func_error
            (append_to 1 (Data integration_model)
               (append_to 0 (Data inte_error) (error_array st))) |}.

Fixpoint loop (num_of_iterations : nat) (electron_density grid : list float)
    (masked_value : float) (st : loop_state) : result loop_state :=
  match num_of_iterations with
  | O => Ok st
  | S n =>
      st' ← loop_body electron_density grid masked_value st;
      loop n electron_density grid masked_value st'
  end.

Definition initial_state (coefficients exponents : list float) : loop_state :=
  {| old_coefficients := coefficients;
     new_coefficients := coefficients;
     exponents := exponents;
     counter := 0;
     error_array := [ []; []; []; []; []; [] ] |}.

(** The names [coeffs] and [exps] of the [return] statement are not
    local to the function: they are looked up in the module, which
    binds them only when the file is run as a script. *)
Record module_globals : Type := {
  coeffs : option (list float);
  exps : option (list float)
}.

Definition lookup_name {A : Type} (binding : option A) : result A :=
  match binding with
  | Some v => Ok v
  | None => Raise NameError
  end.

Definition fixed_iteration_MBIS_method (globals : module_globals)
    (coefficients exponents electron_density grid : list float)
    (num_of_iterations : nat) (masked_value : float)
  : result ((list float * list float) * list (list melem)) :=
  st ← loop num_of_iterations electron_density grid masked_value
         (initial_state coefficients exponents);
  c ← lookup_name (coeffs globals);
  e ← lookup_name (exps globals);
  Ok ((c, e), error_array st).

(** The model without the normalization constants. *)
Definition get_gaussian_model (coefficients exponents grid : list float)
  : result (list float) :=
  let exponential := map (fun r => map (fun e => gaussian e r) exponents) grid in
  np_dot (length exponents) exponential coefficients.

(** The body of the loop of [update_exponents] at the exponent of
    index [i].  The quotient [3. / denom] is a division of floats when
    the integral is a float, and is masked (stored as NaN) when the
    integral is masked. *)
Definition new_exponent (ratio : list melem) (grid : list float)
    (exponent : float) : result float :=
  let factor := fmul (Some 2) (get_normalization_constant exponent) in
  i1 ← np_broadcast ma_multiply ratio
         (ma_asarray (map (gaussian exponent) grid));
  integrand ← np_broadcast ma_multiply i1
                (ma_asarray (map (fun r => float_power_int r 4) grid));
  t ← ma_trapz integrand grid;
  Ok (match t with
      | Masked => None
      | Data v => fdiv (Some 3) (fmul factor v)
      end).

Fixpoint new_exponents_loop (ratio : list melem) (grid : list float)
    (exponents : list float) : result (list float) :=
  match exponents with
  | [] => Ok []
  | e :: exponents' =>
      x ← new_exponent ratio grid e;
      xs ← new_exponents_loop ratio grid exponents';
      Ok (x :: xs)
  end.

(** [update_exponents] has no assertion: a mismatch of shapes
    surfaces as the [ValueError] of the operation that meets it. *)
Definition update_exponents
    (constant_coeffs initial_exponents electron_density grid : list float)
    (masked_value : float) : result (list float) :=
  gaussian_density ←
    normalized_gaussian_model constant_coeffs initial_exponents grid;
  let masked_gaussian_density :=
    map (ma_clamp masked_value) (ma_asarray gaussian_density) in
  let masked_electron_density := ma_asarray electron_density in
  ratio ← np_broadcast ma_true_divide
            masked_electron_density masked_gaussian_density;
  new_exponents_loop ratio grid initial_exponents.

(** The other normalization constant of the file,
    [(exponent / np.pi)**(1/2) * 2.]. *)
Definition get_normalization_constant2 (exponent : float) : float :=
  fmul (float_power (fdiv exponent (Some PI)) (1 / 2)) (Some 2).

End normalized_mbis.

(** ** [bfit/density.py] *)

Module SlaterAtoms.

(** The attributes that the density methods read.  The occupations
    and the energies are (K,1) columns; the dictionaries are keyed by
    the type of orbital (["S"], ["P"], ...) or by the orbital
    (["1S"], ...). *)
Record t : Type := {
  orbitals : list string;
  orbitals_occupation : list float;
  orbitals_energy : list float;
  orbitals_exp : gmap string (list float);
  basis_numbers : gmap string (list Z);
  orbitals_coeff : gmap string (list float)
}.

(** The argument [points]: a one-dimensional array, or an array of
    another dimension, of which only the length is used. *)
Inductive points_array : Type :=
| Points1 (r : list float)
| Points2 (r : list (list float)).

Definition len (points : points_array) : nat :=
  match points with
  | Points1 r => length r
  | Points2 r => length r
  end.

Definition dict_get {V : Type} (d : gmap string V) (key : string) : result V :=
  match d !! key with
  | Some v => Ok v
  | None => Raise KeyError
  end.

(** [s[1]] for a string [s]. *)
Definition str_getitem_1 (s : string) : result string :=
  match String.get 1 s with
  | Some c => Ok (String c EmptyString)
  | None => Raise IndexError
  end.

(** [a[i]] for an integer [i], negative indices counting from the
    end. *)
Definition py_getitem {A : Type} (a : list A) (i : Z) : result A :=
  let n := Z.of_nat (length a) in
  let k := if (i <? 0)%Z then (n + i)%Z else i in
  if ((0 <=? k)%Z && (k <? n)%Z)
  then match a !! Z.to_nat k with
       | Some x => Ok x
       | None => Raise IndexError
       end
  else Raise IndexError.

(** [scipy.special.factorial], zero on a negative argument. *)
Definition factorial (n : Z) : float :=
  if (n <? 0)%Z then Some 0 else Some (INR (fact (Z.to_nat n))).

Definition fZ (n : Z) : float := Some (IZR n).

Definition slater_orbital (exponent : list float) (number : list Z)
    (points : points_array) : result matrix :=
  match points with
  | Points2 _ => Raise ValueError
  | Points1 r =>
      let two_exponent := map (fmul (Some 2)) exponent in
      p ← np_broadcast float_power_int two_exponent number;
      q ← np_broadcast fdiv two_exponent
            (map (fun n => factorial (2 * n)) number);
      norm ← np_broadcast fmul p (map fsqrt q);
      let pref :=
        {| ncols := length number;
           rows := map (fun x =>
                     map (fun n => float_power_int x (n - 1)) number) r |} in
      let expo :=
        {| ncols := length exponent;
           rows := map (fun x =>
                     map (fun e => fexp (fmul (fopp e) x)) exponent) r |} in
      s ← np_broadcast_row fmul norm pref;
      np_broadcast_matrix fmul s expo
  end.

Definition near_zero (x : float) : bool :=
  match fabs x with
  | Some a => Rltb a (1 / 10 ^ 10)
  | None => false
  end.

Definition derivative_slater_type_orbital (exponent : list float)
    (number : list Z) (points : points_array) : result matrix :=
  slater ← slater_orbital exponent number points;
  match points with
  | Points2 _ => Raise ValueError
  | Points1 r =>
      let quotient :=
        {| ncols := length number;
           rows := map (fun x =>
                     map (fun n => fdiv (fsub (fZ n) (Some 1)) x) number) r |} in
      d ← np_broadcast_row (fun e q => fsub q e) exponent quotient;
      let deriv_pref :=
        {| ncols := ncols d;
           rows := zip_with (fun x row =>
                     if near_zero x then map (fun _ => Some 0) row else row)
                     r (rows d) |} in
      np_broadcast_matrix fmul deriv_pref slater
  end.

(** The column of [phi_matrix] of one orbital. *)
Definition phi_column (self : t) (points : points_array) (deriv : bool)
    (orbital : string) : result (list float) :=
  key ← str_getitem_1 orbital;
  exps ← dict_get (orbitals_exp self) key;
  number ← dict_get (basis_numbers self) key;
  slater ← (if deriv
            then derivative_slater_type_orbital exps number points
            else slater_orbital exps number points);
  coeff ← dict_get (orbitals_coeff self) orbital;
  np_dot (ncols slater) (rows slater) coeff.

Fixpoint phi_columns (self : t) (points : points_array) (deriv : bool)
    (orbs : list string) : result (list (list float)) :=
  match orbs with
  | [] => Ok []
  | orbital :: orbs' =>
      c ← phi_column self points deriv orbital;
      cs ← phi_columns self points deriv orbs';
      Ok (c :: cs)
  end.

(** The array is filled column by column; row [j] collects the
    entries of index [j] of the columns. *)
Definition phi_matrix (self : t) (points : points_array) (deriv : bool)
  : result matrix :=
  columns ← phi_columns self points deriv (orbitals self);
  Ok {| ncols := length (orbitals self);
        rows := map (fun j => map (fun c => nth j c (Some 0)) columns)
                  (seq 0 (len points)) |}.

(** The occupation numbers that weight the orbitals in each mode. *)
Definition mode_occupations (self : t) (mode : string)
  : result (list float) :=
  let orb_occs := orbitals_occupation self in
  if decide (mode = "valence") then
    orb_homo ← py_getitem (orbitals_energy self)
                 (Z.of_nat (length (orbitals_occupation self)) - 1);
    np_broadcast fmul orb_occs
      (map (fun e => fexp (fopp (fsquare (fsub e orb_homo))))
           (orbitals_energy self))
  else if decide (mode = "core") then
    orb_homo ← py_getitem (orbitals_energy self)
                 (Z.of_nat (length (orbitals_occupation self)) - 1);
    np_broadcast fmul orb_occs
      (map (fun e =>
              fsub (Some 1) (fexp (fopp (fsquare (fsub e orb_homo)))))
           (orbitals_energy self))
  else Ok orb_occs.

Definition atomic_density (self : t) (points : points_array) (mode : string)
  : result (list float) :=
  if negb (bool_decide (mode ∈ ["total"; "valence"; "core"]))
  then Raise ValueError
  else
    orb_occs ← mode_occupations self mode;
    phi ← phi_matrix self points false;
    dens ← np_dot (ncols phi) (map (map fsquare) (rows phi)) orb_occs;
    Ok (map (fun x => fdiv x (Some (4 * PI))) dens).

(** [derivative_density]: both orbital matrices have one row per
    point and one column per orbital. *)
Definition derivative_density (self : t) (points : points_array)
  : result (list float) :=
  phi ← phi_matrix self points false;
  dphi ← phi_matrix self points true;
  factor ← np_broadcast_matrix fmul phi dphi;
  derivative ← np_dot (ncols factor)
                  (map (map (fmul (Some 2))) (rows factor))
                  (orbitals_occupation self);
  Ok (map (fun x => fdiv x (Some (4 * PI))) derivative).

(** ** [lagrangian_kinetic_energy] *)

(** The arrays of [lagrangian_kinetic_energy] that carry the indices
    [i] and [j] of two basis functions, and the index [k] of a point
    when they have a third axis: the sizes along [i] and [j], and the
    entries.  The third axis always has the length of [points]. *)
Record array3 : Type := {
  dim_i : nat;
  dim_j : nat;
  entry : nat -> nat -> nat -> float
}.

(** The index that broadcasting reads along an axis of size [m]. *)
Definition bidx (m i : nat) : nat := if (m =? 1)%nat then 0%nat else i.

(** An element-wise operation of two such arrays, and the product
    that [np.einsum] forms of two operands that share labels: the
    sizes along each axis are equal or one of them is 1, a
    [ValueError] otherwise. *)
Definition broadcast3 (f : float -> float -> float) (a b : array3)
  : result array3 :=
  if broadcastable (dim_i a) (dim_i b) && broadcastable (dim_j a) (dim_j b)
  then Ok {| dim_i := broadcast_length (dim_i a) (dim_i b);
             dim_j := broadcast_length (dim_j a) (dim_j b);
             entry := fun i j k =>
               f (entry a (bidx (dim_i a) i) (bidx (dim_j a) j) k)
                 (entry b (bidx (dim_i b) i) (bidx (dim_j b) j) k) |}
  else Raise ValueError.

(** A one-dimensional operand whose label is [i], or [j]. *)
Definition along_i (v : list float) : array3 :=
  {| dim_i := length v; dim_j := 1; entry := fun i _ _ => nth i v None |}.

Definition along_j (v : list float) : array3 :=
  {| dim_i := 1; dim_j := length v; entry := fun _ j _ => nth j v None |}.

(** The dictionary [orbital_to_angular]. *)
Definition orbital_to_angular (key : string) : result R :=
  if decide (key = "S") then Ok 0
  else if decide (key = "P") then Ok 2
  else if decide (key = "D") then Ok 6
  else if decide (key = "F") then Ok 12
  else Raise KeyError.

(** [points[:, None, None]**(number_combs - s)], indexed as the
    [einsum] calls read it. *)
Definition points_power (r : list float) (number : list Z) (s : Z) : array3 :=
  {| dim_i := length number;
     dim_j := length number;
     entry := fun i j k =>
       float_power_int (nth k r None) (nth i number 0%Z + nth j number 0%Z - s) |}.

(** [np.einsum("ijk->k", combination)] on [n] points. *)
Definition sum_ij (a : array3) (n : nat) : list float :=
  map (fun k =>
         fsum (map (fun i => fsum (map (fun j => entry a i j k)
                                     (seq 0 (dim_j a))))
                   (seq 0 (dim_i a))))
      (seq 0 n).

(** The body of the loop over the orbitals, for the orbital of index
    [index]: what it adds to [kinetic]. *)
Definition kinetic_term (self : t) (points : points_array) (index : nat)
    (orbital : string) : result (list float) :=
  key ← str_getitem_1 orbital;
  exps ← dict_get (orbitals_exp self) key;
  number ← dict_get (basis_numbers self) key;
  angular ← orbital_to_angular key;
  let two_exponent := map (fmul (Some 2)) exps in
  p ← np_broadcast float_power_int two_exponent number;
  q ← np_broadcast fdiv two_exponent
        (map (fun n => factorial (2 * n)) number);
  norm ← np_broadcast fmul p (map fsqrt q);
  coeff ← dict_get (orbitals_coeff self) orbital;
  cn_i ← broadcast3 fmul (along_i coeff) (along_i norm);
  cn_j ← broadcast3 fmul (along_j coeff) (along_j norm);
  coeffs_norm ← broadcast3 fmul cn_i cn_j;
  exps_comb ← broadcast3 fadd (along_i exps) (along_j exps);
  match points with
  | Points2 _ => Raise ValueError
  | Points1 r =>
      let exponential :=
        {| dim_i := dim_i exps_comb;
           dim_j := dim_j exps_comb;
           entry := fun i j k =>
             fexp (fmul (Some (- (1)))
                     (fmul (entry exps_comb i j k) (nth k r None))) |} in
      combination ← broadcast3 fmul exponential coeffs_norm;
      first_term ←
        broadcast3 fmul
          (along_i (map (fun n => fsub (Some angular)
                                    (fmul (fZ n) (fsub (fZ n) (Some 1))))
                        number))
          (points_power r number 2);
      two_exps_number ←
        broadcast3 fmul (along_j (map (fmul (Some 2)) exps))
          (along_j (map fZ number));
      second_term ← broadcast3 fmul two_exps_number (points_power r number 1);
      third_term ←
        broadcast3 fmul (along_i (map fsquare exps)) (points_power r number 0);
      s ← broadcast3 fadd first_term second_term;
      terms ← broadcast3 fsub s third_term;
      combination ← broadcast3 fmul combination terms;
      occ ← match orbitals_occupation self !! index with
            | Some o => Ok o
            | None => Raise IndexError
            end;
      Ok (map (fun x => fmul x occ) (sum_ij combination (length r)))
  end.

Fixpoint kinetic_loop (self : t) (points : points_array) (index : nat)
    (orbs : list string) (kinetic : list float) : result (list float) :=
  match orbs with
  | [] => Ok kinetic
  | orbital :: orbs' =>
      term ← kinetic_term self points index orbital;
      kinetic_loop self points (S index) orbs' (zip_with fadd kinetic term)
  end.

(** The division by [points ** 2.0] is in place, on an array of one
    dimension: it raises [ValueError] when [points] has another
    dimension.  At a point that is not finite the value is not finite
    here, as for every operation of this file; IEEE arithmetic differs
    there in one case, the quotient of a finite sum by an infinite
    [r^2], which is 0. *)
Definition lagrangian_kinetic_energy (self : t) (points : points_array)
  : result (list float) :=
  kinetic ← kinetic_loop self points 0 (orbitals self)
              (repeat (Some 0) (len points));
  match points with
  | Points2 _ => Raise ValueError
  | Points1 r =>
      let kinetic :=
        zip_with (fun x p => if near_zero p then Some 0 else fdiv x (fsquare p))
                 kinetic r in
      Ok (map (fun x => fdiv x (Some (2 * 4 * PI))) kinetic)
  end.

End SlaterAtoms.

(** * Reference definitions over the reals

    The quantities that the statements below compare the code with:
    sums, the trapezoidal rule and the densities, as functions of real
    numbers, without exceptions, masks or values that are not finite. *)

Definition Rsum (l : list R) : R := fold_right Rplus 0 l.

(** The differences of consecutive grid points. *)
Fixpoint Rdiff (x : list R) : list R :=
  match x with
  | a :: ((b :: _) as tl) => (b - a) :: Rdiff tl
  | _ => []
  end.

(** The composite trapezoidal rule: the sum over the intervals of the
    grid of the width times the mean of the two end values. *)
Fixpoint trapezoid (y x : list R) : R :=
  match y, x with
  | y0 :: ((y1 :: _) as y'), x0 :: ((x1 :: _) as x') =>
      (x1 - x0) * (y1 + y0) / 2 + trapezoid y' x'
  | _, _ => 0
  end.

Definition trapezoid_terms (y x : list R) : list R :=
  map (fun v => v / 2)
      (zip_with Rmult (Rdiff x) (zip_with Rplus (np_tail y) (np_init y))).

(** A masked array none of whose entries is masked or not finite. *)
Definition mdata (l : list R) : list melem := map (fun v => Data (Some v)) l.

(** ** The MBIS update *)

(** The normalization of an S-type Gaussian, [(zeta/pi)^(3/2)], times
    the factor [4 pi] of the spherical volume element. *)
Definition normalization (zeta : R) : R := 4 * PI * Rpower (zeta / PI) (3 / 2).

(** The model density at the radius [r]: the sum of the normalized
    Gaussians weighted by the coefficients. *)
Definition model_density (cs zs : list R) (r : R) : R :=
  Rsum (zip_with (fun c z => c * normalization z * exp (- z * (r * r))) cs zs).

(** The integrand of the coefficient update of the primitive of
    exponent [zeta], at a grid point [r] where the true density is [e]:
    the model density is not allowed below [mask]. *)
Definition update_integrand (cs zs : list R) (mask zeta e r : R) : R :=
  e / Rmax (model_density cs zs r) mask * exp (- zeta * (r * r)) * (r * r).

Definition updated_coefficient (cs zs : list R) (mask : R) (ed grid : list R)
    (c zeta : R) : R :=
  c * normalization zeta
  * trapezoid (zip_with (update_integrand cs zs mask zeta) ed grid) grid.

(** The Kullback-Leibler objective with the model density as it is:
    the trapezoidal integral of [true * log (true / model)] over the
    grid. *)
Definition KL_integral (cs zs ed grid : list R) : R :=
  trapezoid (zip_with (fun t r => t * ln (t / model_density cs zs r)) ed grid)
            grid.

(** The same integral with every value of the model density that is at
    most [threshold] replaced by [floor] before the ratio is formed. *)
Definition clamped_KL_integral (threshold floor : R) (cs zs ed grid : list R)
  : R :=
  trapezoid
    (zip_with
       (fun t r =>
          let m := model_density cs zs r in
          t * ln (t / (if Rleb m threshold then floor else m)))
       ed grid)
    grid.

(** The two diagnostics of an iteration: the integral of
    [r^2 |model - true|] and the integral of [r^2 model]. *)
Definition integration_error (cs zs ed grid : list R) : R :=
  trapezoid
    (zip_with (fun r e => r * r * Rabs (model_density cs zs r - e)) grid ed)
    grid.

Definition model_mass (cs zs grid : list R) : R :=
  trapezoid (map (fun r => r * r * model_density cs zs r) grid) grid.

(** The shape of the history that [fixed_iteration_MBIS_method]
    builds: six sequences, the first three of length [k], the others
    empty. *)
Definition history_of_length (k : nat) (error_array : list (list melem)) : Prop :=
  exists s0 s1 s2 : list melem,
    error_array = [s0; s1; s2; []; []; []]
    /\ length s0 = k /\ length s1 = k /\ length s2 = k.

(** ** The Slater orbitals *)

(** The normalization [(2 zeta)^n sqrt (2 zeta / (2 n)!)] and the
    Slater-type orbital [N r^(n-1) exp (- zeta r)]. *)
Definition slater_normalization (zeta : R) (n : Z) : R :=
  powerRZ (2 * zeta) n * sqrt (2 * zeta / INR (fact (Z.to_nat (2 * n)))).

Definition slater_function (zeta : R) (n : Z) (r : R) : R :=
  slater_normalization zeta n * powerRZ r (n - 1) * exp (- zeta * r).

(** The derivative of the Slater orbital as the code defines it: zero
    at the grid points within [1e-10] of the origin. *)
Definition slater_derivative (zeta : R) (n : Z) (r : R) : R :=
  if Rltb (Rabs r) (1 / 10 ^ 10) then 0
  else ((IZR n - 1) / r - zeta) * slater_function zeta n r.

(** ** The atomic density *)

(** The weight of an orbital of energy [e] in the valence density,
    for the reference energy [h]; its weight in the core density is
    the complement to 1. *)
Definition valence_weight (h e : R) : R := exp (- ((e - h) * (e - h))).
Definition core_weight (h e : R) : R := 1 - valence_weight h e.

(** Two atoms.  Hydrogen, with its single Slater function; and the
    orbitals, occupations and orbital energies of potassium
    (configuration K(2)L(8)3S(2)3P(6)4S(1)), in the order in which the
    data of the atom list them: the S orbitals, then the P orbitals. *)
Definition hydrogen : SlaterAtoms.t :=
  {| SlaterAtoms.orbitals := ["1S"];
     SlaterAtoms.orbitals_occupation := [Some 1];
     SlaterAtoms.orbitals_energy := [Some (- (1 / 2))];
     SlaterAtoms.orbitals_exp := {[ "S" := [Some 1] ]};
     SlaterAtoms.basis_numbers := {[ "S" := [1%Z] ]};
     SlaterAtoms.orbitals_coeff := {[ "1S" := [Some 1] ]} |}.

Definition potassium_energies : list R :=
  [- (1335330493 / 10 ^ 7); - (144899575 / 10 ^ 7); - (17487797 / 10 ^ 7);
   - (1474751 / 10 ^ 7); - (115192795 / 10 ^ 7); - (9544227 / 10 ^ 7)].

Definition potassium (exps : gmap string (list float))
    (numbers : gmap string (list Z)) (coeffs : gmap string (list float))
  : SlaterAtoms.t :=
  {| SlaterAtoms.orbitals := ["1S"; "2S"; "3S"; "4S"; "2P"; "3P"];
     SlaterAtoms.orbitals_occupation :=
       [Some 2; Some 2; Some 2; Some 1; Some 6; Some 6];
     SlaterAtoms.orbitals_energy := map Some potassium_energies;
     SlaterAtoms.orbitals_exp := exps;
     SlaterAtoms.basis_numbers := numbers;
     SlaterAtoms.orbitals_coeff := coeffs |}.

(** ** Further reference quantities of the MBIS update *)

(** The trapezoidal integral of [r^2] times one normalized Gaussian:
    the mass that the grid attributes to a primitive of coefficient
    1. *)
Definition primitive_mass (zeta : R) (grid : list R) : R :=
  normalization zeta
  * trapezoid (map (fun r => r * r * exp (- zeta * (r * r))) grid) grid.

(** The trapezoidal integral of [r^2] times the true density. *)
Definition density_mass (ed grid : list R) : R :=
  trapezoid (zip_with (fun e r => e * (r * r)) ed grid) grid.

(** The integrand of the exponent update of the primitive of exponent
    [zeta], and the exponent that the update gives it. *)
Definition exponent_integrand (cs zs : list R) (mask zeta e r : R) : R :=
  e / Rmax (model_density cs zs r) mask * exp (- zeta * (r * r)) * r ^ 4.

Definition exponent_integral (cs zs : list R) (mask : R) (ed grid : list R)
    (zeta : R) : R :=
  trapezoid (zip_with (exponent_integrand cs zs mask zeta) ed grid) grid.

Definition updated_exponent (cs zs : list R) (mask : R) (ed grid : list R)
    (zeta : R) : R :=
  3 / (2 * normalization zeta * exponent_integral cs zs mask ed grid zeta).

(** [j] coefficient updates in a row, each from the coefficients that
    the one before returned. *)
Fixpoint iterated_update (j : nat) (cs zs ed grid : list float) (mask : float)
  : result (list float) :=
  match j with
  | O => Ok cs
  | S j' =>
      new ← normalized_mbis.update_coefficients cs zs ed grid mask;
      iterated_update j' new zs ed grid mask
  end.

(** ** Atoms whose data are complete *)

(** The basis of one orbital: the exponents and the principal numbers
    of its Slater functions, and the coefficients of the orbital on
    them. *)
Record basis : Type := {
  b_exps : list R;
  b_numbers : list Z;
  b_coeffs : list R
}.

(** The dictionaries of the atom hold the basis [b] for [orbital]:
    finite values, strictly positive exponents, principal numbers that
    are at least 1, and as many of each as there are Slater
    functions. *)
Definition has_basis (self : SlaterAtoms.t) (orbital : string) (b : basis)
  : Prop :=
  exists key,
    SlaterAtoms.str_getitem_1 orbital = Ok key
    /\ SlaterAtoms.orbitals_exp self !! key = Some (map Some (b_exps b))
    /\ SlaterAtoms.basis_numbers self !! key = Some (b_numbers b)
    /\ SlaterAtoms.orbitals_coeff self !! orbital = Some (map Some (b_coeffs b))
    /\ Forall (fun z => 0 < z) (b_exps b)
    /\ Forall (fun n => (1 <= n)%Z) (b_numbers b)
    /\ length (b_exps b) = length (b_numbers b)
    /\ length (b_coeffs b) = length (b_exps b).

(** The radial part of an orbital, the linear combination of its
    Slater functions, and the combination of their derivatives as the
    code defines them. *)
Definition radial (b : basis) (r : R) : R :=
  Rsum (zip_with Rmult
          (zip_with (fun z n => slater_function z n r) (b_exps b) (b_numbers b))
          (b_coeffs b)).

Definition radial_derivative (b : basis) (r : R) : R :=
  Rsum (zip_with Rmult
          (zip_with (fun z n => slater_derivative z n r) (b_exps b) (b_numbers b))
          (b_coeffs b)).

(** The spherically averaged density of the occupied orbitals. *)
Definition total_density (bs : list basis) (occ : list R) (r : R) : R :=
  Rsum (zip_with (fun b n => radial b r * radial b r * n) bs occ) / (4 * PI).

(** The basis of the orbital of [hydrogen]. *)
Definition hydrogen_basis : basis :=
  {| b_exps := [1]; b_numbers := [1%Z]; b_coeffs := [1] |}.

(** The value that [derivative_density] computes at [r]. *)
Definition total_density_derivative (bs : list basis) (occ : list R) (r : R)
  : R :=
  Rsum (zip_with (fun b n => 2 * (radial b r * radial_derivative b r) * n)
          bs occ)
  / (4 * PI).

(** A float that is not a negative number: a number that is at least
    zero, or a value that is not finite. *)
Definition not_negative (x : float) : Prop := forall v, x = Some v -> 0 <= v.

(** An atom whose dictionaries have lost their entries. *)
Definition atom_without_data : SlaterAtoms.t :=
  {| SlaterAtoms.orbitals := ["1S"];
     SlaterAtoms.orbitals_occupation := [Some 1];
     SlaterAtoms.orbitals_energy := [Some (- (1 / 2))];
     SlaterAtoms.orbitals_exp := ∅;
     SlaterAtoms.basis_numbers := ∅;
     SlaterAtoms.orbitals_coeff := ∅ |}.

(** ** The kinetic energy density *)

(** The array [a] holds, wherever broadcasting to the sizes [m] and
    [n] reads it for one of the first [p] points, the finite values
    [g]. *)
Definition represents (a : SlaterAtoms.array3) (m n p : nat)
    (g : nat -> nat -> nat -> R) : Prop :=
  (SlaterAtoms.dim_i a = m \/ SlaterAtoms.dim_i a = 1%nat)
  /\ (SlaterAtoms.dim_j a = n \/ SlaterAtoms.dim_j a = 1%nat)
  /\ forall i j k : nat,
       (i < m)%nat -> (j < n)%nat -> (k < p)%nat ->
       SlaterAtoms.entry a
         (SlaterAtoms.bidx (SlaterAtoms.dim_i a) i)
         (SlaterAtoms.bidx (SlaterAtoms.dim_j a) j) k
       = Some (g i j k).

(** What [lagrangian_kinetic_energy] sums for a pair of basis
    functions of an orbital, of exponents [zi] and [zj], principal
    numbers [ni] and [nj] and normalized coefficients [wi] and [wj],
    at the radius [r]; [a] is the angular number [l (l + 1)] of the
    orbital. *)
Definition kinetic_summand (a r zi : R) (ni : Z) (wi zj : R) (nj : Z) (wj : R)
  : R :=
  exp (- (1) * ((zi + zj) * r)) * (wi * wj)
  * ((a - IZR ni * (IZR ni - 1)) * powerRZ r (ni + nj - 2)
     + 2 * zj * IZR nj * powerRZ r (ni + nj - 1)
     - zi * zi * powerRZ r (ni + nj - 0)).

(** Its sum over the pairs of basis functions of an orbital. *)
Definition orbital_kinetic (b : basis) (a r : R) : R :=
  let z i := nth i (b_exps b) 0 in
  let n i := nth i (b_numbers b) 0%Z in
  let w i := nth i (b_coeffs b) 0 * slater_normalization (z i) (n i) in
  Rsum (map (fun i =>
               Rsum (map (fun j =>
                            kinetic_summand a r (z i) (n i) (w i)
                              (z j) (n j) (w j))
                         (seq 0 (length (b_exps b)))))
            (seq 0 (length (b_exps b)))).

(** The angular number that the table of the method gives the
    orbital, and the orbitals whose type the table lists. *)
Definition angular_of (orbital : string) : R :=
  match SlaterAtoms.str_getitem_1 orbital with
  | Ok key =>
      match SlaterAtoms.orbital_to_angular key with
      | Ok a => a
      | Raise _ => 0
      end
  | Raise _ => 0
  end.

Definition supported (orbital : string) : Prop :=
  exists key a,
    SlaterAtoms.str_getitem_1 orbital = Ok key
    /\ SlaterAtoms.orbital_to_angular key = Ok a.

(** The value of [lagrangian_kinetic_energy] at the radius [r]. *)
Definition kinetic_density (orbs : list string) (bs : list basis)
    (occ : list R) (r : R) : R :=
  if Rltb (Rabs r) (1 / 10 ^ 10) then 0
  else Rsum (zip_with
               (fun ob o => orbital_kinetic ob.2 (angular_of ob.1) r * o)
               (zip orbs bs) occ)
       / (r * r) / (2 * 4 * PI).

(** The array [a] has the sizes [m] and [n] and holds the finite
    values [g]. *)
Definition full (a : SlaterAtoms.array3) (m n p : nat)
    (g : nat -> nat -> nat -> R) : Prop :=
  SlaterAtoms.dim_i a = m /\ SlaterAtoms.dim_j a = n /\ represents a m n p g.

(** An atom with an orbital of type G, and the basis of that
    orbital. *)
Definition atom_with_g_orbital : SlaterAtoms.t :=
  {| SlaterAtoms.orbitals := ["5G"];
     SlaterAtoms.orbitals_occupation := [Some 1];
     SlaterAtoms.orbitals_energy := [Some (- (1 / 2))];
     SlaterAtoms.orbitals_exp := {[ "G" := [Some 1] ]};
     SlaterAtoms.basis_numbers := {[ "G" := [5%Z] ]};
     SlaterAtoms.orbitals_coeff := {[ "5G" := [Some 1] ]} |}.

Definition g_basis : basis :=
  {| b_exps := [1]; b_numbers := [5%Z]; b_coeffs := [1] |}.

(** ** Operands of moderate size

    In double precision [np.exp] returns [0.0] below about [-745], a
    product is [0.0] below about [5e-324] and an infinity above about
    [1.8e308], and the factorial of a float is an infinity from [171]
    on.  The two ranges below keep the operands away from these
    thresholds: the statements that depend on a value being strictly
    positive, or finite, assume them. *)

(** A positive value that is neither tiny nor huge. *)
Definition moderate (x : R) : Prop := 1 / 10 ^ 12 <= x <= 10 ^ 12.

(** The Gaussian of exponent [zeta] is resolved at the radius [r]:
    [exp (- zeta r^2)] is at least [exp (-300)], about [5e-131]. *)
Definition resolves (r zeta : R) : Prop := zeta * (r * r) <= 300.

(** A grid point at which some primitive of the model is resolved. *)
Definition resolved (zs : list R) (r : R) : Prop := Exists (resolves r) zs.

(** A primitive that is resolved at some grid point other than the
    origin. *)
Definition resolved_off_origin (grid : list R) (zeta : R) : Prop :=
  Exists (fun r => r <> 0 /\ resolves r zeta) grid.

(** The range of the Slater exponents, principal numbers and radii
    within which no factor of a Slater orbital overflows. *)
Definition slater_range (zeta : R) (n : Z) (r : R) : Prop :=
  zeta <= 10 ^ 6 /\ (n <= 10)%Z /\ 0 <= r <= 10 ^ 6.

(** * Properties *)

(** One step of a computation in [result]: the bind on a value that
    is known reduces. *)
Tactic Notation "step" := cbn [mbind result_bind].
Tactic Notation "step" "in" hyp(H) := cbn [mbind result_bind] in H.

(** Concrete operands are within the ranges of moderate size. *)
Ltac in_range :=
  repeat match goal with
         | |- Forall _ [] => constructor
         | |- Forall _ (_ :: _) => constructor
         | |- resolved _ _ => apply Exists_cons_hd
         | |- moderate _ => unfold moderate; split
         | |- resolves _ _ => unfold resolves
         | |- _ /\ _ => split
         end;
  try lra.

(** ** Comparisons on the reals *)

Lemma Rltb_true (x y : R) : x < y -> Rltb x y = true.
Proof. intros H. unfold Rltb. destruct (Rlt_dec x y); [reflexivity | contradiction]. Qed.

Lemma Rltb_false (x y : R) : ~ x < y -> Rltb x y = false.
Proof. intros H. unfold Rltb. destruct (Rlt_dec x y); [contradiction | reflexivity]. Qed.

Lemma Rleb_true (x y : R) : x <= y -> Rleb x y = true.
Proof. intros H. unfold Rleb. destruct (Rle_dec x y); [reflexivity | contradiction]. Qed.

Lemma Rleb_false (x y : R) : ~ x <= y -> Rleb x y = false.
Proof. intros H. unfold Rleb. destruct (Rle_dec x y); [contradiction | reflexivity]. Qed.

Lemma Reqb_true (x y : R) : x = y -> Reqb x y = true.
Proof. intros H. unfold Reqb. destruct (Req_dec_T x y); [reflexivity | contradiction]. Qed.

Lemma Reqb_false (x y : R) : x <> y -> Reqb x y = false.
Proof. intros H. unfold Reqb. destruct (Req_dec_T x y); [contradiction | reflexivity]. Qed.

Lemma fdiv_Some (a b : R) : b <> 0 -> fdiv (Some a) (Some b) = Some (a / b).
Proof. intros H. unfold fdiv. now rewrite Reqb_false. Qed.

Lemma moderate_pos (x : R) : moderate x -> 0 < x.
Proof.
  unfold moderate. intros [H _]. assert (0 < 1 / 10 ^ 12) by lra. lra.
Qed.

Lemma Forall_moderate_pos (l : list R) :
  Forall moderate l -> Forall (fun x => 0 < x) l.
Proof. intros H. eapply Forall_impl; [exact H | exact moderate_pos]. Qed.

(** ** Broadcasting *)

Lemma broadcastable_refl (n : nat) : broadcastable n n = true.
Proof. unfold broadcastable. now rewrite Nat.eqb_refl. Qed.

Lemma broadcast_with_same_length {A B C : Type} (f : A -> B -> C)
    (xs : list A) (ys : list B) :
  length xs = length ys -> broadcast_with f xs ys = zip_with f xs ys.
Proof.
  intros H. unfold broadcast_with.
  destruct xs as [|x [|x' xs]]; destruct ys as [|y [|y' ys]];
    simpl in *; try discriminate; reflexivity.
Qed.

Lemma np_broadcast_same_length {A B C : Type} (f : A -> B -> C)
    (xs : list A) (ys : list B) :
  length xs = length ys -> np_broadcast f xs ys = Ok (zip_with f xs ys).
Proof.
  intros H. unfold np_broadcast.
  rewrite H, broadcastable_refl.
  now rewrite broadcast_with_same_length.
Qed.

Lemma zip_with_length_same {A B C : Type} (f : A -> B -> C)
    (xs : list A) (ys : list B) :
  length xs = length ys -> length (zip_with f xs ys) = length xs.
Proof. intros H. rewrite length_zip_with. lia. Qed.

(** ** Arrays of finite values *)

Lemma fsum_Some (l : list R) : fsum (map Some l) = Some (Rsum l).
Proof.
  induction l as [|a l IH]; [reflexivity |].
  change (fsum (map Some (a :: l))) with (fadd (Some a) (fsum (map Some l))).
  rewrite IH. reflexivity.
Qed.

Lemma zip_with_flift2 (f : R -> R -> R) (xs ys : list R) :
  zip_with (flift2 f) (map Some xs) (map Some ys) = map Some (zip_with f xs ys).
Proof.
  revert ys. induction xs as [|x xs IH]; intros [|y ys]; simpl; try reflexivity.
  now rewrite IH.
Qed.

Lemma map_flift1 (f : R -> R) (xs : list R) :
  map (flift1 f) (map Some xs) = map Some (map f xs).
Proof. rewrite !map_map. reflexivity. Qed.

Lemma fsquare_Some (x : R) : fsquare (Some x) = Some (x * x).
Proof.
  unfold fsquare, float_power_int. simpl. f_equal. ring.
Qed.

Lemma np_diff_Some (x : list R) : np_diff (map Some x) = map Some (Rdiff x).
Proof.
  induction x as [|a [|b x] IH]; simpl; try reflexivity.
  simpl in IH. now rewrite IH.
Qed.

Lemma Rdiff_length (x : list R) : length (Rdiff x) = pred (length x).
Proof.
  induction x as [|a [|b x] IH]; simpl; try reflexivity.
  simpl in IH. now rewrite IH.
Qed.

Lemma np_diff_length (x : list float) : length (np_diff x) = pred (length x).
Proof.
  induction x as [|a [|b x] IH]; simpl; try reflexivity.
  simpl in IH. now rewrite IH.
Qed.

Lemma np_tail_length {A : Type} (y : list A) : length (np_tail y) = pred (length y).
Proof. destruct y; reflexivity. Qed.

Lemma np_init_length {A : Type} (y : list A) : length (np_init y) = pred (length y).
Proof.
  unfold np_init. induction y as [|a [|b y] IH]; simpl; try reflexivity.
  simpl in IH. now rewrite IH.
Qed.

Lemma trapezoid_terms_sum (y x : list R) :
  length y = length x -> Rsum (trapezoid_terms y x) = trapezoid y x.
Proof.
  revert x. induction y as [|y0 [|y1 y] IH]; intros [|x0 [|x1 x]] H;
    simpl in H; try discriminate; try reflexivity.
  specialize (IH (x1 :: x) ltac:(simpl; lia)).
  unfold trapezoid_terms in *.
  change (trapezoid (y0 :: y1 :: y) (x0 :: x1 :: x))
    with ((x1 - x0) * (y1 + y0) / 2 + trapezoid (y1 :: y) (x1 :: x)).
  rewrite <- IH. reflexivity.
Qed.

Lemma trapezoid_terms_length (y x : list R) :
  length y = length x -> length (trapezoid_terms y x) = pred (length x).
Proof.
  intros H. unfold trapezoid_terms.
  rewrite length_map, !length_zip_with, Rdiff_length, np_tail_length, np_init_length.
  lia.
Qed.

Lemma np_tail_map {A B : Type} (f : A -> B) (y : list A) :
  np_tail (map f y) = map f (np_tail y).
Proof. destruct y; reflexivity. Qed.

Lemma np_init_map {A B : Type} (f : A -> B) (y : list A) :
  np_init (map f y) = map f (np_init y).
Proof.
  unfold np_init. induction y as [|a [|b y] IH]; simpl; try reflexivity.
  simpl in IH. now rewrite IH.
Qed.

Lemma np_trapz_Some (y x : list R) :
  length y = length x ->
  np_trapz (map Some y) (map Some x) = Ok (Some (trapezoid y x)).
Proof.
  intros H. unfold np_trapz.
  rewrite np_tail_map, np_init_map, np_diff_Some.
  rewrite np_broadcast_same_length
    by (rewrite !length_map, np_tail_length, np_init_length; reflexivity).
  step.
  change fadd with (flift2 Rplus). rewrite zip_with_flift2.
  rewrite np_broadcast_same_length
    by (rewrite !length_map, length_zip_with, Rdiff_length, np_tail_length,
          np_init_length; lia).
  step.
  change fmul with (flift2 Rmult). rewrite zip_with_flift2.
  rewrite map_map.
  rewrite (map_ext _ (fun v => Some (v / 2)))
    by (intros v; apply fdiv_Some; lra).
  rewrite <- (map_map (fun v => v / 2) Some), fsum_Some.
  do 2 f_equal. now apply trapezoid_terms_sum.
Qed.

Lemma mdata_length (l : list R) : length (mdata l) = length l.
Proof. apply length_map. Qed.

Lemma ma_asarray_Some (l : list R) : ma_asarray (map Some l) = mdata l.
Proof. unfold ma_asarray, mdata. now rewrite map_map. Qed.

Lemma zip_with_ma_add (xs ys : list R) :
  zip_with ma_add (mdata xs) (mdata ys) = mdata (zip_with Rplus xs ys).
Proof.
  revert ys. induction xs as [|x xs IH]; intros [|y ys]; simpl; try reflexivity.
  f_equal. apply IH.
Qed.

Lemma zip_with_ma_multiply (xs ys : list R) :
  zip_with ma_multiply (mdata xs) (mdata ys) = mdata (zip_with Rmult xs ys).
Proof.
  revert ys. induction xs as [|x xs IH]; intros [|y ys]; simpl; try reflexivity.
  f_equal. apply IH.
Qed.

Lemma filled0_mdata (l : list R) : map filled0 (mdata l) = map Some l.
Proof. induction l as [|a l IH]; simpl; [reflexivity | now rewrite IH]. Qed.

Lemma ma_sum_mdata (l : list R) :
  l <> [] -> ma_sum (mdata l) = Data (Some (Rsum l)).
Proof.
  intros H. unfold ma_sum. rewrite filled0_mdata, fsum_Some.
  destruct l as [|a l]; [contradiction | reflexivity].
Qed.

Lemma ma_trapz_mdata (y x : list R) :
  length y = length x -> (2 <= length x)%nat ->
  ma_trapz (mdata y) (map Some x) = Ok (Data (Some (trapezoid y x))).
Proof.
  intros H H2. unfold ma_trapz.
  unfold mdata at 1 2. rewrite np_tail_map, np_init_map, np_diff_Some.
  fold (mdata (np_tail y)). fold (mdata (np_init y)).
  rewrite np_broadcast_same_length
    by (rewrite !mdata_length, np_tail_length, np_init_length; reflexivity).
  step.
  rewrite zip_with_ma_add, ma_asarray_Some.
  rewrite np_broadcast_same_length
    by (rewrite !mdata_length, length_zip_with, Rdiff_length, np_tail_length,
          np_init_length; lia).
  step.
  rewrite zip_with_ma_multiply.
  unfold mdata at 1. rewrite map_map.
  rewrite (map_ext _ (fun v => Data (Some (v / 2)))).
  2:{ intros v. cbn [ma_true_divide]. rewrite Reqb_false by lra. reflexivity. }
  rewrite <- (map_map (fun v => v / 2) (fun v => Data (Some v))).
  fold (trapezoid_terms y x). fold (mdata (trapezoid_terms y x)).
  rewrite ma_sum_mdata.
  - now rewrite trapezoid_terms_sum.
  - intros E. apply (f_equal (@length R)) in E.
    rewrite trapezoid_terms_length in E by assumption. simpl in E. lia.
Qed.

(** ** The normalized Gaussian model on finite values *)

Lemma Rpower_half_PI : Rpower PI (1 / 2) = sqrt PI.
Proof.
  replace (1 / 2) with (/ 2) by lra. apply Rpower_sqrt, PI_RGT_0.
Qed.

Lemma normalization_code (zeta : R) :
  0 < zeta ->
  4 * Rpower zeta (3 / 2) / Rpower PI (1 / 2) = normalization zeta.
Proof.
  intros Hz. unfold normalization.
  pose proof PI_RGT_0 as Hpi.
  assert (Hq : Rpower (zeta / PI) (3 / 2)
               = Rpower zeta (3 / 2) * / Rpower PI (3 / 2)).
  { unfold Rdiv. rewrite <- Rpower_mult_distr by (try apply Rinv_0_lt_compat; lra).
    f_equal. unfold Rpower. rewrite ln_Rinv by lra.
    replace (3 * / 2 * - ln PI) with (- (3 * / 2 * ln PI)) by ring.
    apply exp_Ropp. }
  assert (Hp : Rpower PI (3 / 2) = PI * Rpower PI (1 / 2)).
  { replace (3 / 2) with (1 + 1 / 2) by lra.
    rewrite Rpower_plus, Rpower_1 by lra. reflexivity. }
  rewrite Hq, Hp.
  assert (Rpower PI (1 / 2) <> 0)
    by (unfold Rpower; apply Rgt_not_eq, exp_pos).
  field. split; lra.
Qed.

Lemma normalization_pos (zeta : R) : 0 < zeta -> 0 < normalization zeta.
Proof.
  intros Hz. unfold normalization.
  pose proof PI_RGT_0.
  apply Rmult_lt_0_compat; [lra | unfold Rpower; apply exp_pos].
Qed.

Lemma get_normalization_constant_Some (zeta : R) :
  0 < zeta ->
  normalized_mbis.get_normalization_constant (Some zeta)
  = Some (normalization zeta).
Proof.
  intros Hz. unfold normalized_mbis.get_normalization_constant, float_power.
  rewrite !Rltb_true by (try apply PI_RGT_0; lra).
  cbn [fmul flift2].
  rewrite fdiv_Some by (unfold Rpower; apply Rgt_not_eq, exp_pos).
  now rewrite normalization_code.
Qed.

Lemma gaussian_Some (z r : R) :
  normalized_mbis.gaussian (Some z) (Some r) = Some (exp (- z * (r * r))).
Proof.
  unfold normalized_mbis.gaussian. rewrite fsquare_Some. reflexivity.
Qed.

Lemma map_normalization_Some (zs : list R) :
  Forall (fun z => 0 < z) zs ->
  map normalized_mbis.get_normalization_constant (map Some zs)
  = map Some (map normalization zs).
Proof.
  intros H. rewrite !map_map. apply map_ext_in.
  intros z Hz. apply get_normalization_constant_Some.
  rewrite Forall_forall in H. apply H. now apply list_elem_of_In.
Qed.

Lemma model_density_dot (cs zs : list R) (r : R) :
  Rsum (zip_with Rmult (map (fun z => exp (- z * (r * r))) zs)
          (zip_with Rmult (map normalization zs) cs))
  = model_density cs zs r.
Proof.
  unfold model_density. revert cs.
  induction zs as [|z zs IH]; intros [|c cs]; simpl; try reflexivity.
  rewrite IH. ring.
Qed.

Lemma normalized_gaussian_model_Some (cs zs grid : list R) :
  Forall (fun z => 0 < z) zs -> length cs = length zs ->
  normalized_mbis.normalized_gaussian_model
    (map Some cs) (map Some zs) (map Some grid)
  = Ok (map Some (map (model_density cs zs) grid)).
Proof.
  intros Hz Hlen. unfold normalized_mbis.normalized_gaussian_model.
  rewrite map_normalization_Some by assumption.
  rewrite np_broadcast_same_length by (rewrite !length_map; lia).
  step.
  change fmul with (flift2 Rmult). rewrite zip_with_flift2.
  unfold np_dot.
  rewrite !length_map, length_zip_with, length_map.
  replace (length zs =? length zs `min` length cs)%nat with true
    by (symmetry; apply Nat.eqb_eq; lia).
  f_equal. rewrite !map_map. apply map_ext. intros r.
  rewrite map_map.
  rewrite (map_ext _ (fun z => Some (exp (- z * (r * r)))))
    by (intros z; apply gaussian_Some).
  rewrite <- (map_map (fun z => exp (- z * (r * r))) Some).
  change fmul with (flift2 Rmult).
  rewrite zip_with_flift2, fsum_Some.
  now rewrite model_density_dot.
Qed.

(** ** The coefficient update on finite values *)

Lemma forallb_fgt0_Some (cs : list R) :
  Forall (fun c => 0 < c) cs -> forallb fgt0 (map Some cs) = true.
Proof.
  induction 1 as [|c cs Hc _ IH]; simpl; [reflexivity |].
  now rewrite Rltb_true, IH.
Qed.

Lemma Rsum_zip_with_pos (f : R -> R -> R) (cs zs : list R) :
  (forall c z, 0 < c -> 0 < z -> 0 < f c z) ->
  Forall (fun c => 0 < c) cs -> Forall (fun z => 0 < z) zs ->
  length cs = length zs -> cs <> [] ->
  0 < Rsum (zip_with f cs zs).
Proof.
  intros Hf Hc. revert zs.
  induction Hc as [|c cs Hc0 Hc IH]; intros zs Hz Hlen Hne; [contradiction |].
  destruct Hz as [|z zs Hz0 Hz]; [discriminate |].
  simpl. specialize (Hf c z Hc0 Hz0).
  destruct cs as [|c' cs].
  - destruct zs; [simpl; lra | discriminate].
  - assert (0 < Rsum (zip_with f (c' :: cs) zs)).
    { apply IH; [assumption | simpl in *; lia | discriminate]. }
    simpl in *. lra.
Qed.

Lemma model_density_pos (cs zs : list R) (r : R) :
  Forall (fun c => 0 < c) cs -> Forall (fun z => 0 < z) zs ->
  length cs = length zs -> cs <> [] ->
  0 < model_density cs zs r.
Proof.
  intros. unfold model_density. apply Rsum_zip_with_pos; try assumption.
  intros c z Hc Hz.
  apply Rmult_lt_0_compat; [| apply exp_pos].
  apply Rmult_lt_0_compat; [assumption | now apply normalization_pos].
Qed.

Lemma ma_clamp_mdata (mask : R) (ms : list R) :
  map (ma_clamp (Some mask)) (mdata ms) = mdata (map (fun m => Rmax m mask) ms).
Proof.
  unfold mdata. rewrite !map_map. apply map_ext. intros m.
  unfold ma_clamp, fle, Rleb, Rmax.
  destruct (Rle_dec m mask); reflexivity.
Qed.

Lemma zip_with_ma_true_divide (xs ys : list R) :
  Forall (fun y => y <> 0) ys ->
  zip_with ma_true_divide (mdata xs) (mdata ys) = mdata (zip_with Rdiv xs ys).
Proof.
  intros Hy. revert xs.
  induction Hy as [|y ys Hy0 _ IH]; intros [|x xs]; simpl; try reflexivity.
  rewrite Reqb_false by assumption. f_equal. apply IH.
Qed.

Lemma update_integrand_zip (cs zs : list R) (mask zeta : R) (ed grid : list R) :
  zip_with Rmult
    (zip_with Rmult
       (zip_with Rdiv ed (map (fun m => Rmax m mask) (map (model_density cs zs) grid)))
       (map (fun r => exp (- zeta * (r * r))) grid))
    (map (fun r => r * r) grid)
  = zip_with (update_integrand cs zs mask zeta) ed grid.
Proof.
  revert ed. induction grid as [|r grid IH]; intros [|e ed]; simpl; try reflexivity.
  now rewrite IH.
Qed.

Lemma map_gaussian_Some (zeta : R) (grid : list R) :
  map (normalized_mbis.gaussian (Some zeta)) (map Some grid)
  = map Some (map (fun r => exp (- zeta * (r * r))) grid).
Proof.
  rewrite !map_map. apply map_ext. intros r. apply gaussian_Some.
Qed.

Lemma map_fsquare_Some (grid : list R) :
  map fsquare (map Some grid) = map Some (map (fun r => r * r) grid).
Proof.
  rewrite !map_map. apply map_ext. intros r. apply fsquare_Some.
Qed.

Lemma new_coefficient_Some (cs zs : list R) (mask : R) (ed grid : list R)
    (c zeta : R) :
  0 < zeta -> length ed = length grid -> (2 <= length grid)%nat ->
  normalized_mbis.new_coefficient
    (mdata (zip_with Rdiv ed
              (map (fun m => Rmax m mask) (map (model_density cs zs) grid))))
    (map Some grid) (Some c) (Some zeta)
  = Ok (Some (updated_coefficient cs zs mask ed grid c zeta)).
Proof.
  intros Hz Hlen H2. unfold normalized_mbis.new_coefficient.
  rewrite get_normalization_constant_Some by assumption.
  rewrite map_gaussian_Some, ma_asarray_Some.
  rewrite np_broadcast_same_length
    by (rewrite !mdata_length, length_zip_with, !length_map; lia).
  step.
  rewrite zip_with_ma_multiply.
  rewrite map_fsquare_Some, ma_asarray_Some.
  rewrite np_broadcast_same_length
    by (rewrite !mdata_length, !length_zip_with, !length_map; lia).
  step.
  rewrite zip_with_ma_multiply, update_integrand_zip.
  rewrite ma_trapz_mdata
    by (try rewrite length_zip_with; lia).
  step. reflexivity.
Qed.

Lemma new_coefficients_loop_Some (cs0 zs0 : list R) (mask : R)
    (ed grid cs zs : list R) :
  Forall (fun z => 0 < z) zs ->
  length ed = length grid -> (2 <= length grid)%nat ->
  normalized_mbis.new_coefficients_loop
    (mdata (zip_with Rdiv ed
              (map (fun m => Rmax m mask) (map (model_density cs0 zs0) grid))))
    (map Some grid) (map Some cs) (map Some zs)
  = Ok (map Some (zip_with (updated_coefficient cs0 zs0 mask ed grid) cs zs)).
Proof.
  intros Hz Hlen H2. revert cs.
  induction Hz as [|z zs Hz0 _ IH]; intros [|c cs]; try reflexivity.
  cbn [map normalized_mbis.new_coefficients_loop].
  rewrite new_coefficient_Some by assumption.
  step. rewrite IH. reflexivity.
Qed.

Lemma update_coefficients_Some (cs zs ed grid : list R) (mask : R) :
  Forall (fun c => 0 < c) cs -> Forall (fun z => 0 < z) zs ->
  length cs = length zs -> length ed = length grid ->
  (2 <= length grid)%nat ->
  normalized_mbis.update_coefficients
    (map Some cs) (map Some zs) (map Some ed) (map Some grid) (Some mask)
  = Ok (map Some (zip_with (updated_coefficient cs zs mask ed grid) cs zs)).
Proof.
  intros Hc Hz Hlen Hlen' H2. unfold normalized_mbis.update_coefficients.
  rewrite forallb_fgt0_Some by assumption.
  rewrite !length_map, Hlen, Hlen', !Nat.eqb_refl.
  cbn [negb].
  rewrite normalized_gaussian_model_Some by assumption.
  step.
  rewrite !ma_asarray_Some, ma_clamp_mdata.
  rewrite np_broadcast_same_length by (rewrite !mdata_length, !length_map; lia).
  step.
  destruct cs as [|c cs].
  { destruct zs; [| discriminate].
    destruct (zip_with ma_true_divide _ _); reflexivity. }
  rewrite zip_with_ma_true_divide.
  - now apply new_coefficients_loop_Some.
  - rewrite Forall_forall. intros y Hy.
    apply list_elem_of_In, in_map_iff in Hy. destruct Hy as [m [<- Hm]].
    apply in_map_iff in Hm. destruct Hm as [r [<- _]].
    assert (0 < model_density (c :: cs) zs r)
      by (apply model_density_pos; try assumption; discriminate).
    pose proof (Rmax_l (model_density (c :: cs) zs r) mask). lra.
Qed.

(** ** No exception once the lengths agree *)

Lemma normalized_gaussian_model_ok (cs zs grid : list float) :
  length cs = length zs ->
  exists gd, normalized_mbis.normalized_gaussian_model cs zs grid = Ok gd
             /\ length gd = length grid.
Proof.
  intros H. unfold normalized_mbis.normalized_gaussian_model.
  rewrite np_broadcast_same_length by (rewrite length_map; lia).
  step. unfold np_dot.
  rewrite length_zip_with, length_map.
  replace (length zs =? length zs `min` length cs)%nat with true
    by (symmetry; apply Nat.eqb_eq; lia).
  eexists. split; [reflexivity |]. now rewrite !length_map.
Qed.

Lemma np_trapz_ok (y x : list float) :
  length y = length x -> exists v, np_trapz y x = Ok v.
Proof.
  intros H. unfold np_trapz.
  rewrite np_broadcast_same_length
    by (rewrite np_tail_length, np_init_length; reflexivity).
  step.
  rewrite np_broadcast_same_length
    by (rewrite length_zip_with, np_diff_length, np_tail_length, np_init_length; lia).
  step. eexists. reflexivity.
Qed.

Lemma ma_trapz_ok (y : list melem) (x : list float) :
  length y = length x -> exists v, ma_trapz y x = Ok v.
Proof.
  intros H. unfold ma_trapz.
  rewrite np_broadcast_same_length
    by (rewrite np_tail_length, np_init_length; reflexivity).
  step.
  rewrite np_broadcast_same_length
    by (unfold ma_asarray;
        rewrite length_map, length_zip_with, np_diff_length, np_tail_length,
          np_init_length; lia).
  step. eexists. reflexivity.
Qed.

Lemma integrate_error_ok (cs zs ed grid : list float) :
  length cs = length zs -> length ed = length grid ->
  exists v, normalized_mbis.integrate_error cs zs ed grid = Ok v.
Proof.
  intros H H'. unfold normalized_mbis.integrate_error.
  destruct (normalized_gaussian_model_ok cs zs grid H) as [gd [-> Hgd]].
  step.
  rewrite np_broadcast_same_length by lia.
  step.
  rewrite np_broadcast_same_length
    by (rewrite !length_map, length_zip_with; lia).
  step.
  apply np_trapz_ok. rewrite length_zip_with, !length_map, length_zip_with. lia.
Qed.

Lemma integrate_normalized_model_ok (cs zs ed grid : list float) :
  length cs = length zs ->
  exists v, normalized_mbis.integrate_normalized_model cs zs ed grid = Ok v.
Proof.
  intros H. unfold normalized_mbis.integrate_normalized_model.
  destruct (normalized_gaussian_model_ok cs zs grid H) as [gd [-> Hgd]].
  step.
  rewrite np_broadcast_same_length by (rewrite !length_map; lia).
  step.
  apply np_trapz_ok. rewrite length_zip_with, !length_map. lia.
Qed.

Lemma KL_objective_function_ok (cs zs ed grid : list float) :
  length cs = length zs -> length ed = length grid ->
  exists v, normalized_mbis.KL_objective_function cs zs ed grid = Ok v.
Proof.
  intros H H'. unfold normalized_mbis.KL_objective_function.
  destruct (normalized_gaussian_model_ok cs zs grid H) as [gd [-> Hgd]].
  step. unfold ma_asarray.
  rewrite np_broadcast_same_length by (rewrite !length_map; lia).
  step.
  rewrite np_broadcast_same_length
    by (rewrite !length_map, length_zip_with, !length_map; lia).
  step.
  apply ma_trapz_ok.
  rewrite length_zip_with, !length_map, length_zip_with, !length_map. lia.
Qed.

Lemma new_coefficient_ok (ratio : list melem) (grid : list float) (c e : float) :
  length ratio = length grid ->
  exists x, normalized_mbis.new_coefficient ratio grid c e = Ok x.
Proof.
  intros H. unfold normalized_mbis.new_coefficient, ma_asarray.
  rewrite np_broadcast_same_length by (rewrite !length_map; lia).
  step.
  rewrite np_broadcast_same_length
    by (rewrite length_zip_with, !length_map; lia).
  step.
  destruct (ma_trapz_ok
              (zip_with ma_multiply
                 (zip_with ma_multiply ratio
                    (map Data (map (normalized_mbis.gaussian e) grid)))
                 (map Data (map fsquare grid))) grid) as [t ->].
  { rewrite !length_zip_with, !length_map. lia. }
  step. eexists. reflexivity.
Qed.

Lemma new_coefficients_loop_ok (ratio : list melem) (grid cs zs : list float) :
  length ratio = length grid -> length cs = length zs ->
  exists new, normalized_mbis.new_coefficients_loop ratio grid cs zs = Ok new
              /\ length new = length cs.
Proof.
  intros H. revert zs.
  induction cs as [|c cs IH]; intros [|z zs] Hlen; simpl in Hlen; try discriminate.
  - exists []. split; reflexivity.
  - cbn [normalized_mbis.new_coefficients_loop].
    destruct (new_coefficient_ok ratio grid c z H) as [x ->].
    step.
    destruct (IH zs ltac:(lia)) as [new [-> Hnew]].
    step. eexists. split; [reflexivity |]. simpl. lia.
Qed.

Lemma update_coefficients_ok (cs zs ed grid : list float) (mask : float) :
  forallb fgt0 cs = true -> length cs = length zs -> length ed = length grid ->
  exists new, normalized_mbis.update_coefficients cs zs ed grid mask = Ok new
              /\ length new = length cs.
Proof.
  intros Hc H H'. unfold normalized_mbis.update_coefficients.
  rewrite Hc, H, H', !Nat.eqb_refl. cbn [negb].
  destruct (normalized_gaussian_model_ok cs zs grid H) as [gd [-> Hgd]].
  step. unfold ma_asarray.
  rewrite np_broadcast_same_length by (rewrite !length_map; lia).
  step.
  rewrite <- H.
  apply new_coefficients_loop_ok; [| assumption].
  rewrite length_zip_with, !length_map. lia.
Qed.

Lemma update_coefficients_Ok_inv (cs zs ed grid : list float) (mask : float)
    (new : list float) :
  normalized_mbis.update_coefficients cs zs ed grid mask = Ok new ->
  forallb fgt0 cs = true /\ length cs = length zs /\ length ed = length grid
  /\ length new = length cs.
Proof.
  intros H.
  assert (forallb fgt0 cs = true /\ length cs = length zs
          /\ length ed = length grid) as (Hc & H1 & H2).
  { unfold normalized_mbis.update_coefficients in H.
    destruct (forallb fgt0 cs); [| discriminate].
    destruct (Nat.eqb_spec (length cs) (length zs)); [| discriminate].
    destruct (Nat.eqb_spec (length ed) (length grid)); [| discriminate].
    auto. }
  repeat split; try assumption.
  destruct (update_coefficients_ok cs zs ed grid mask Hc H1 H2) as [new' [E Hn]].
  congruence.
Qed.

(** ** The coefficient update: closed form, sign and validation *)

(** C1, amended.  For strictly positive coefficients and exponents,
    on a grid of at least two points, every primitive [i] is updated
    to
    [c_i * N(zeta_i) * integral of (true / model) * exp(-zeta_i r^2) r^2 dr],
    the integral being the trapezoidal rule on the grid, [N] the
    Gaussian normalization with the factor [4 pi] of the volume
    element, and the model density being raised to the mask value
    where it is below it. *)
Theorem update_coefficients_closed_form
    (cs zs ed grid : list R) (mask : R) (i : nat) (c zeta : R) :
  Forall (fun c => 0 < c) cs -> Forall (fun z => 0 < z) zs ->
  length cs = length zs -> length ed = length grid ->
  (2 <= length grid)%nat ->
  cs !! i = Some c -> zs !! i = Some zeta ->
  exists new,
    normalized_mbis.update_coefficients
      (map Some cs) (map Some zs) (map Some ed) (map Some grid) (Some mask)
    = Ok new
    /\ length new = length cs
    /\ new !! i
       = Some (Some
           (c * normalization zeta
            * trapezoid
                (zip_with
                   (fun e r =>
                      e / Rmax (model_density cs zs r) mask
                      * exp (- zeta * (r * r)) * (r * r))
                   ed grid)
                grid)).
Proof.
  intros Hc Hz Hlen Hlen' H2 Hi Hi'.
  rewrite update_coefficients_Some by assumption.
  eexists. split; [reflexivity |]. split.
  - rewrite length_map, length_zip_with. lia.
  - rewrite list_lookup_fmap, lookup_zip_with, Hi, Hi'. reflexivity.
Qed.

Lemma update_coefficients_closed_form_witness :
  exists new,
    normalized_mbis.update_coefficients
      [Some 1] [Some 1] [Some 1; Some 1] [Some 0; Some 1] (Some (1 / 10 ^ 6))
    = Ok new
    /\ length new = 1%nat
    /\ new !! 0%nat
       = Some (Some
           (1 * normalization 1
            * trapezoid
                (zip_with
                   (fun e r =>
                      e / Rmax (model_density [1] [1] r) (1 / 10 ^ 6)
                      * exp (- 1 * (r * r)) * (r * r))
                   [1; 1] [0; 1])
                [0; 1])).
Proof.
  apply (update_coefficients_closed_form
           [1] [1] [1; 1] [0; 1] (1 / 10 ^ 6) 0 1 1);
    repeat constructor; lra.
Defined.

(** C1 as stated fails on a grid of a single point: the grid has no
    interval, the sum of [np.trapz] over the empty masked array is the
    masked constant, and the coefficient that is stored is NaN, where
    the closed form, an integral over no interval, is 0. *)
Lemma update_coefficients_nan_on_one_point_grid :
  normalized_mbis.update_coefficients
    [Some 1] [Some 1] [Some 1] [Some 0] (Some (1 / 10 ^ 6))
  = Ok [None]
  /\ 1 * normalization 1
     * trapezoid
         (zip_with
            (fun e r =>
               e / Rmax (model_density [1] [1] r) (1 / 10 ^ 6)
               * exp (- 1 * (r * r)) * (r * r))
            [1] [0])
         [0]
     = 0.
Proof.
  split.
  - unfold normalized_mbis.update_coefficients.
    cbn [forallb fgt0 length Nat.eqb negb andb].
    rewrite Rltb_true by lra. cbn [negb andb].
    destruct (normalized_gaussian_model_ok [Some 1] [Some 1] [Some 0] eq_refl)
      as [gd [-> Hgd]].
    destruct gd as [|g [|g' gd]]; try discriminate.
    step. reflexivity.
  - cbn [zip_with trapezoid]. ring.
Qed.

Lemma trapezoid_nonneg (y x : list R) :
  Sorted Rle x -> Forall (fun v => 0 <= v) y -> 0 <= trapezoid y x.
Proof.
  intros Hx Hy. revert x Hx.
  induction Hy as [|y0 y Hy0 Hy IH]; intros x Hx; [simpl; lra |].
  destruct y as [|y1 y]; [simpl; lra |].
  destruct x as [|x0 [|x1 x]]; try (simpl; lra).
  change (trapezoid (y0 :: y1 :: y) (x0 :: x1 :: x))
    with ((x1 - x0) * (y1 + y0) / 2 + trapezoid (y1 :: y) (x1 :: x)).
  inversion Hx as [|? ? Hx' Hhd]; subst.
  inversion Hhd as [|? ? Hle]; subst.
  specialize (IH (x1 :: x) Hx').
  inversion Hy as [|? ? Hy1 _]; subst.
  assert (0 <= (x1 - x0) * (y1 + y0)) by (apply Rmult_le_pos; lra).
  lra.
Qed.

Lemma update_integrand_nonneg (cs zs : list R) (mask zeta e r : R) :
  0 < model_density cs zs r -> 0 <= e ->
  0 <= update_integrand cs zs mask zeta e r.
Proof.
  intros Hm He. unfold update_integrand.
  pose proof (Rmax_l (model_density cs zs r) mask).
  pose proof (exp_pos (- zeta * (r * r))).
  assert (0 <= r * r) by nra.
  assert (0 <= e / Rmax (model_density cs zs r) mask).
  { apply Rmult_le_pos; [assumption |].
    apply Rlt_le, Rinv_0_lt_compat. lra. }
  apply Rmult_le_pos; [apply Rmult_le_pos |]; lra.
Qed.

Lemma forallb_fgt0_inv (cs : list R) :
  forallb fgt0 (map Some cs) = true -> Forall (fun c => 0 < c) cs.
Proof.
  induction cs as [|c cs IH]; simpl; intros H; [constructor |].
  apply andb_prop in H. destruct H as [Hc H]. constructor; [| now apply IH].
  unfold Rltb in Hc. now destruct (Rlt_dec 0 c).
Qed.

(** C2, amended.  On a grid of at least two points in non-decreasing
    order, with positive exponents and a non-negative true density,
    every entry of the vector that the update returns for
    non-negative coefficients is a non-negative number. *)
Theorem update_coefficients_nonnegative
    (cs zs ed grid : list R) (mask : R) (new : list float) :
  Forall (fun c => 0 <= c) cs -> Forall (fun z => 0 < z) zs ->
  Forall (fun e => 0 <= e) ed ->
  Sorted Rle grid -> (2 <= length grid)%nat ->
  normalized_mbis.update_coefficients
    (map Some cs) (map Some zs) (map Some ed) (map Some grid) (Some mask)
  = Ok new ->
  Forall (fun x => exists v, x = Some v /\ 0 <= v) new.
Proof.
  intros _ Hz He Hs H2 Hok.
  destruct (update_coefficients_Ok_inv _ _ _ _ _ _ Hok) as (Hc & Hl & Hl' & _).
  rewrite !length_map in Hl, Hl'.
  apply forallb_fgt0_inv in Hc.
  rewrite update_coefficients_Some in Hok by assumption.
  injection Hok as <-.
  rewrite Forall_forall. intros x Hx.
  apply list_elem_of_In, in_map_iff in Hx. destruct Hx as [v [<- Hv]].
  exists v. split; [reflexivity |].
  apply list_elem_of_In, list_elem_of_lookup in Hv. destruct Hv as [i Hv].
  rewrite lookup_zip_with in Hv.
  destruct (cs !! i) as [c|] eqn:Ec; [| discriminate].
  destruct (zs !! i) as [z|] eqn:Ez; [| discriminate].
  injection Hv as <-.
  assert (0 < c).
  { rewrite Forall_forall in Hc. apply Hc. eapply list_elem_of_lookup_2, Ec. }
  assert (0 < z).
  { rewrite Forall_forall in Hz. apply Hz. eapply list_elem_of_lookup_2, Ez. }
  unfold updated_coefficient.
  apply Rmult_le_pos.
  - apply Rmult_le_pos; [lra |]. now apply Rlt_le, normalization_pos.
  - apply trapezoid_nonneg; [assumption |].
    rewrite Forall_forall. intros y Hy.
    apply list_elem_of_lookup in Hy. destruct Hy as [j Hy].
    rewrite lookup_zip_with in Hy.
    destruct (ed !! j) as [e|] eqn:Ee; [| discriminate].
    destruct (grid !! j) as [r|] eqn:Er; [| discriminate].
    injection Hy as <-.
    apply update_integrand_nonneg.
    + apply model_density_pos; try assumption.
      intros ->. discriminate.
    + rewrite Forall_forall in He. apply He. eapply list_elem_of_lookup_2, Ee.
Qed.

Lemma update_coefficients_nonnegative_witness :
  exists new,
    normalized_mbis.update_coefficients
      [Some 1] [Some 1] [Some 1; Some 1] [Some 0; Some 1] (Some (1 / 10 ^ 6))
    = Ok new
    /\ Forall (fun x => exists v, x = Some v /\ 0 <= v) new.
Proof.
  destruct (update_coefficients_ok
              [Some 1] [Some 1] [Some 1; Some 1] [Some 0; Some 1]
              (Some (1 / 10 ^ 6))) as [new [Hnew _]];
    [simpl; rewrite Rltb_true by lra; reflexivity | reflexivity | reflexivity |].
  exists new. split; [exact Hnew |].
  apply (update_coefficients_nonnegative
           [1] [1] [1; 1] [0; 1] (1 / 10 ^ 6) new);
    [repeat constructor; lra .. | simpl; lia | exact Hnew].
Defined.

(** C2 as stated fails on a grid of non-negative points that is not in
    increasing order: with the grid [1, 0] the only coefficient, 1, is
    updated to a negative number. *)
Lemma update_coefficients_negative_on_decreasing_grid :
  exists v,
    normalized_mbis.update_coefficients
      [Some 1] [Some 1] [Some 1; Some 1] [Some 1; Some 0] (Some (1 / 10 ^ 6))
    = Ok [Some v]
    /\ v < 0.
Proof.
  eexists. split.
  - apply (update_coefficients_Some [1] [1] [1; 1] [1; 0] (1 / 10 ^ 6));
      repeat constructor; lra.
  - unfold updated_coefficient. cbn [zip_with trapezoid].
    assert (Hn : 0 < normalization 1) by (apply normalization_pos; lra).
    assert (Hm : 0 < model_density [1] [1] 1).
    { apply model_density_pos; repeat constructor; try lra. discriminate. }
    assert (Hi : 0 < update_integrand [1] [1] (1 / 10 ^ 6) 1 1 1).
    { unfold update_integrand.
      pose proof (Rmax_l (model_density [1] [1] 1) (1 / 10 ^ 6)).
      assert (0 < 1 / Rmax (model_density [1] [1] 1) (1 / 10 ^ 6)).
      { apply Rdiv_lt_0_compat; lra. }
      apply Rmult_lt_0_compat; [apply Rmult_lt_0_compat |];
        try apply exp_pos; lra. }
    assert (Hz : update_integrand [1] [1] (1 / 10 ^ 6) 1 1 0 = 0).
    { unfold update_integrand. ring. }
    rewrite Hz. nra.
Qed.

Lemma fgt0_Some (v : R) : fgt0 (Some v) = false <-> v <= 0.
Proof.
  unfold fgt0, Rltb. destruct (Rlt_dec 0 v); split; intros H;
    try discriminate; try reflexivity; lra.
Qed.

Lemma forallb_false_Exists {A : Type} (f : A -> bool) (l : list A) :
  forallb f l = false <-> Exists (fun a => f a = false) l.
Proof.
  induction l as [|a l IH]; simpl.
  - split; [discriminate | intros H; inversion H].
  - rewrite andb_false_iff, IH. split.
    + intros [H | H]; [now left | now right].
    + intros H. inversion H; subst; [now left | now right].
Qed.

Lemma forallb_true_Forall {A : Type} (f : A -> bool) (l : list A) :
  forallb f l = true <-> Forall (fun a => f a = true) l.
Proof.
  induction l as [|a l IH]; simpl.
  - split; [constructor | reflexivity].
  - rewrite andb_true_iff, IH. split.
    + intros [H H']. now constructor.
    + intros H. inversion H; subst. now split.
Qed.

(** C8.  The update raises an [AssertionError], which its first three
    statements decide, exactly when some initial coefficient is not
    strictly positive, or the coefficient and the exponent vectors
    differ in length, or the density and the grid differ in length; it
    returns, without any exception, exactly when all coefficients are
    strictly positive and the lengths agree. *)
Theorem update_coefficients_validation
    (cs zs ed grid : list float) (mask : float) :
  (normalized_mbis.update_coefficients cs zs ed grid mask = Raise AssertionError
   <-> Exists (fun c => fgt0 c = false) cs
       \/ length cs <> length zs \/ length ed <> length grid)
  /\ ((exists new, normalized_mbis.update_coefficients cs zs ed grid mask = Ok new)
      <-> Forall (fun c => fgt0 c = true) cs
          /\ length cs = length zs /\ length ed = length grid).
Proof.
  rewrite <- forallb_false_Exists, <- forallb_true_Forall.
  destruct (forallb fgt0 cs) eqn:Hc.
  - destruct (Nat.eq_dec (length cs) (length zs)) as [H1 | H1].
    + destruct (Nat.eq_dec (length ed) (length grid)) as [H2 | H2].
      * destruct (update_coefficients_ok cs zs ed grid mask Hc H1 H2)
          as [new [E _]].
        rewrite E. split; split.
        -- discriminate.
        -- intros [H | [H | H]]; [discriminate | contradiction ..].
        -- auto.
        -- intros _. now exists new.
      * assert (E : normalized_mbis.update_coefficients cs zs ed grid mask
                    = Raise AssertionError).
        { unfold normalized_mbis.update_coefficients.
          rewrite Hc, H1, Nat.eqb_refl.
          apply Nat.eqb_neq in H2. now rewrite H2. }
        rewrite E. split; split; auto.
        -- intros [new Hn]. discriminate.
        -- intros (_ & _ & H). contradiction.
    + assert (E : normalized_mbis.update_coefficients cs zs ed grid mask
                  = Raise AssertionError).
      { unfold normalized_mbis.update_coefficients.
        rewrite Hc. apply Nat.eqb_neq in H1. now rewrite H1. }
      rewrite E. split; split; auto.
      * intros [new Hn]. discriminate.
      * intros (_ & H & _). contradiction.
  - assert (E : normalized_mbis.update_coefficients cs zs ed grid mask
                = Raise AssertionError).
    { unfold normalized_mbis.update_coefficients. now rewrite Hc. }
    rewrite E. split; split; auto.
    + intros [new Hn]. discriminate.
    + intros (H & _). discriminate.
Qed.

Lemma update_coefficients_validation_witness :
  exists new,
    normalized_mbis.update_coefficients
      [Some 1] [Some 1] [Some 1; Some 1] [Some 0; Some 1] (Some (1 / 10 ^ 6))
    = Ok new.
Proof.
  apply (update_coefficients_validation
           [Some 1] [Some 1] [Some 1; Some 1] [Some 0; Some 1]
           (Some (1 / 10 ^ 6))).
  repeat split; try reflexivity.
  repeat constructor. simpl. apply Rltb_true. lra.
Defined.

(** ** The Kullback-Leibler objective *)

Lemma map_ma_log_mdata (xs : list R) :
  Forall (fun x => 0 < x) xs -> map ma_log (mdata xs) = mdata (map ln xs).
Proof.
  induction 1 as [|x xs Hx _ IH]; simpl; [reflexivity |].
  rewrite Rleb_false by lra. f_equal. apply IH.
Qed.

Lemma KL_integrand_zip (cs zs ed grid : list R) :
  zip_with Rmult ed
    (map ln (zip_with Rdiv ed (map (model_density cs zs) grid)))
  = zip_with (fun t r => t * ln (t / model_density cs zs r)) ed grid.
Proof.
  revert ed. induction grid as [|r grid IH]; intros [|e ed]; simpl; try reflexivity.
  now rewrite IH.
Qed.

Lemma Forall_zip_with {A B C : Type} (P : C -> Prop) (f : A -> B -> C)
    (xs : list A) (ys : list B) :
  (forall i x y, xs !! i = Some x -> ys !! i = Some y -> P (f x y)) ->
  Forall P (zip_with f xs ys).
Proof.
  intros H. rewrite Forall_forall. intros c Hc.
  apply list_elem_of_lookup in Hc. destruct Hc as [i Hc].
  rewrite lookup_zip_with in Hc.
  destruct (xs !! i) as [x|] eqn:Ex; [| discriminate].
  destruct (ys !! i) as [y|] eqn:Ey; [| discriminate].
  injection Hc as <-. eapply H; eassumption.
Qed.

Lemma Forall_lookup_elim {A : Type} (P : A -> Prop) (l : list A) (i : nat) (x : A) :
  Forall P l -> l !! i = Some x -> P x.
Proof.
  intros H Hi. rewrite Forall_forall in H. apply H.
  eapply list_elem_of_lookup_2, Hi.
Qed.

Lemma KL_objective_function_Some (cs zs ed grid : list R) :
  Forall (fun c => 0 < c) cs -> Forall (fun z => 0 < z) zs ->
  Forall (fun e => 0 < e) ed ->
  cs <> [] -> length cs = length zs -> length ed = length grid ->
  (2 <= length grid)%nat ->
  normalized_mbis.KL_objective_function
    (map Some cs) (map Some zs) (map Some ed) (map Some grid)
  = Ok (Data (Some (KL_integral cs zs ed grid))).
Proof.
  intros Hc Hz He Hne Hlen Hlen' H2.
  unfold normalized_mbis.KL_objective_function.
  rewrite normalized_gaussian_model_Some by assumption.
  step.
  rewrite !ma_asarray_Some.
  rewrite np_broadcast_same_length by (rewrite !mdata_length, !length_map; lia).
  step.
  assert (Hm : forall r, 0 < model_density cs zs r)
    by (intros r; now apply model_density_pos).
  rewrite zip_with_ma_true_divide.
  2:{ rewrite Forall_forall. intros y Hy.
      apply list_elem_of_In, in_map_iff in Hy. destruct Hy as [r [<- _]].
      apply Rgt_not_eq, Hm. }
  rewrite map_ma_log_mdata.
  2:{ apply Forall_zip_with. intros i e m Hi Hi'.
      rewrite list_lookup_fmap in Hi'.
      destruct (grid !! i) as [r|]; [| discriminate]. injection Hi' as <-.
      apply Rdiv_lt_0_compat; [| apply Hm].
      eapply Forall_lookup_elim in He; eassumption. }
  rewrite np_broadcast_same_length
    by (rewrite !mdata_length, length_map, length_zip_with, length_map; lia).
  step.
  rewrite zip_with_ma_multiply, KL_integrand_zip.
  rewrite ma_trapz_mdata by (try rewrite length_zip_with; lia).
  reflexivity.
Qed.

(** C7, amended.  For coefficients, exponents and values of the true
    density that are positive and of moderate size, on a grid of at
    least two points at each of which some primitive is resolved (its
    exponential does not underflow, so that the model density that
    the code computes is not zero there), the objective is the
    trapezoidal integral of [true * log (true / model)] over the grid,
    formed with the model density as it is computed: no value of it is
    replaced.  Where the model density is computed as zero the entry
    is masked instead. *)
Theorem KL_objective_function_unclamped (cs zs ed grid : list R) :
  Forall moderate cs -> Forall moderate zs -> Forall moderate ed ->
  Forall (resolved zs) grid ->
  cs <> [] -> length cs = length zs -> length ed = length grid ->
  (2 <= length grid)%nat ->
  normalized_mbis.KL_objective_function
    (map Some cs) (map Some zs) (map Some ed) (map Some grid)
  = Ok (Data (Some
      (trapezoid
         (zip_with (fun t r => t * ln (t / model_density cs zs r)) ed grid)
         grid))).
Proof.
  intros Hc Hz He _. apply KL_objective_function_Some;
    now apply Forall_moderate_pos.
Qed.

Lemma KL_objective_function_unclamped_witness :
  normalized_mbis.KL_objective_function
    [Some 1] [Some 1] [Some 1; Some 1] [Some 0; Some 1]
  = Ok (Data (Some
      (trapezoid
         (zip_with (fun t r => t * ln (t / model_density [1] [1] r))
                   [1; 1] [0; 1])
         [0; 1]))).
Proof.
  apply (KL_objective_function_unclamped [1] [1] [1; 1] [0; 1]);
    first [discriminate | reflexivity | simpl; lia | in_range].
Defined.

(** Bounds on the constants of the examples. *)
Lemma sqrt_PI_bounds : 1 <= sqrt PI <= 2.
Proof.
  pose proof PI2_3_2. pose proof PI_4.
  split.
  - rewrite <- sqrt_1. apply sqrt_le_1; lra.
  - replace 2 with (sqrt (2 * 2)) by (apply sqrt_square; lra).
    apply sqrt_le_1; lra.
Qed.

Lemma Rpower_1_l (y : R) : Rpower 1 y = 1.
Proof. unfold Rpower. rewrite ln_1, Rmult_0_r. apply exp_0. Qed.

Lemma normalization_1 : normalization 1 = 4 / sqrt PI.
Proof.
  rewrite <- normalization_code by lra.
  rewrite Rpower_1_l, Rpower_half_PI. lra.
Qed.

Lemma normalization_1_bounds : 2 <= normalization 1 <= 4.
Proof.
  rewrite normalization_1.
  destruct sqrt_PI_bounds as [H1 H2].
  assert (H : 0 < sqrt PI) by lra.
  split.
  - apply Rmult_le_reg_r with (sqrt PI); [assumption |].
    unfold Rdiv. rewrite Rmult_assoc, Rinv_l by lra. lra.
  - apply Rmult_le_reg_r with (sqrt PI); [assumption |].
    unfold Rdiv. rewrite Rmult_assoc, Rinv_l by lra. lra.
Qed.

Lemma exp_minus_1_bounds : 1 / 3 <= exp (- (1)) < 1 / 2.
Proof.
  rewrite exp_Ropp.
  pose proof exp_le_3. pose proof (exp_ineq1 1 ltac:(lra)).
  assert (0 < exp 1) by apply exp_pos.
  split.
  - apply Rmult_le_reg_r with (exp 1); [assumption |].
    rewrite Rinv_l by lra. lra.
  - apply Rmult_lt_reg_r with (exp 1); [assumption |].
    rewrite Rinv_l by lra. lra.
Qed.

Lemma model_density_single (c z r : R) :
  model_density [c] [z] r = c * normalization z * exp (- z * (r * r)).
Proof. unfold model_density. simpl. ring. Qed.

Lemma trapezoid_two (y0 y1 x0 x1 : R) :
  trapezoid [y0; y1] [x0; x1] = (x1 - x0) * (y1 + y0) / 2.
Proof. simpl. ring. Qed.

(** C7 as stated fails: with the coefficient [1e-7] the model density
    is below [1e-6] at both points of the grid [0, 1], and the
    objective is not the one that the replacement of these values (by
    [1e-12], as in the assignment that the source keeps as a comment)
    would give. *)
Lemma KL_objective_function_not_clamped :
  exists v,
    normalized_mbis.KL_objective_function
      [Some (1 / 10 ^ 7)] [Some 1] [Some 1; Some 1] [Some 0; Some 1]
    = Ok (Data (Some v))
    /\ model_density [1 / 10 ^ 7] [1] 0 <= 1 / 10 ^ 6
    /\ model_density [1 / 10 ^ 7] [1] 1 <= 1 / 10 ^ 6
    /\ v <> clamped_KL_integral (1 / 10 ^ 6) (1 / 10 ^ 12)
              [1 / 10 ^ 7] [1] [1; 1] [0; 1].
Proof.
  exists (KL_integral [1 / 10 ^ 7] [1] [1; 1] [0; 1]).
  destruct normalization_1_bounds as [Hn1 Hn2].
  destruct exp_minus_1_bounds as [He1 He2].
  assert (E0 : model_density [1 / 10 ^ 7] [1] 0 = 1 / 10 ^ 7 * normalization 1).
  { rewrite model_density_single.
    replace (- (1) * (0 * 0)) with 0 by ring. rewrite exp_0. ring. }
  assert (E1 : model_density [1 / 10 ^ 7] [1] 1
               = 1 / 10 ^ 7 * normalization 1 * exp (- (1))).
  { rewrite model_density_single.
    replace (- (1) * (1 * 1)) with (- (1)) by ring. reflexivity. }
  assert (B0 : 2 / 10 ^ 7 <= model_density [1 / 10 ^ 7] [1] 0 <= 4 / 10 ^ 7)
    by (rewrite E0; lra).
  assert (B1 : 1 / 10 ^ 8 <= model_density [1 / 10 ^ 7] [1] 1 <= 4 / 10 ^ 7)
    by (rewrite E1; nra).
  split; [| split; [| split]].
  - apply (KL_objective_function_Some [1 / 10 ^ 7] [1] [1; 1] [0; 1]);
      try (repeat constructor; lra).
    discriminate.
  - lra.
  - lra.
  - unfold KL_integral, clamped_KL_integral.
    cbn [zip_with]. rewrite !trapezoid_two. cbv zeta.
    rewrite !Rleb_true by lra.
    set (m0 := model_density [1 / 10 ^ 7] [1] 0) in *.
    set (m1 := model_density [1 / 10 ^ 7] [1] 1) in *.
    assert (L0 : ln (1 / m0) < ln (1 / (1 / 10 ^ 12))).
    { apply ln_increasing.
      - apply Rdiv_lt_0_compat; lra.
      - unfold Rdiv. rewrite !Rmult_1_l.
        apply Rinv_lt_contravar; [apply Rmult_lt_0_compat |]; lra. }
    assert (L1 : ln (1 / m1) < ln (1 / (1 / 10 ^ 12))).
    { apply ln_increasing.
      - apply Rdiv_lt_0_compat; lra.
      - unfold Rdiv. rewrite !Rmult_1_l.
        apply Rinv_lt_contravar; [apply Rmult_lt_0_compat |]; lra. }
    lra.
Qed.

(** ** The diagnostics on finite values *)

Lemma integrate_error_Some (cs zs ed grid : list R) :
  Forall (fun z => 0 < z) zs -> length cs = length zs ->
  length ed = length grid ->
  normalized_mbis.integrate_error
    (map Some cs) (map Some zs) (map Some ed) (map Some grid)
  = Ok (Some (integration_error cs zs ed grid)).
Proof.
  intros Hz Hlen Hlen'. unfold normalized_mbis.integrate_error.
  rewrite normalized_gaussian_model_Some by assumption.
  step.
  rewrite np_broadcast_same_length by (rewrite !length_map; lia).
  step.
  change fsub with (flift2 Rminus). rewrite zip_with_flift2.
  change fabs with (flift1 Rabs). rewrite map_flift1, map_fsquare_Some.
  rewrite np_broadcast_same_length
    by (rewrite !length_map, length_zip_with, length_map; lia).
  step.
  change fmul with (flift2 Rmult). rewrite zip_with_flift2.
  rewrite np_trapz_Some
    by (rewrite length_zip_with, !length_map, length_zip_with, length_map; lia).
  do 3 f_equal. unfold integration_error. f_equal.
  clear. revert ed. induction grid as [|r grid IH]; intros [|e ed];
    simpl; try reflexivity.
  now rewrite IH.
Qed.

Lemma integrate_normalized_model_Some (cs zs : list R) (ed : list float)
    (grid : list R) :
  Forall (fun z => 0 < z) zs -> length cs = length zs ->
  normalized_mbis.integrate_normalized_model
    (map Some cs) (map Some zs) ed (map Some grid)
  = Ok (Some (model_mass cs zs grid)).
Proof.
  intros Hz Hlen. unfold normalized_mbis.integrate_normalized_model.
  rewrite normalized_gaussian_model_Some by assumption.
  step.
  rewrite map_fsquare_Some.
  rewrite np_broadcast_same_length by (rewrite !length_map; lia).
  step.
  change fmul with (flift2 Rmult). rewrite zip_with_flift2.
  rewrite np_trapz_Some by (rewrite length_zip_with, !length_map; lia).
  do 3 f_equal. unfold model_mass. f_equal.
  clear. induction grid as [|r grid IH]; simpl; [reflexivity | now rewrite IH].
Qed.

(** ** The loop of [fixed_iteration_MBIS_method] *)

Lemma loop_body_inv (ed grid : list float) (mask : float)
    (st st' : normalized_mbis.loop_state) :
  normalized_mbis.loop_body ed grid mask st = Ok st' ->
  exists err mass obj,
    normalized_mbis.update_coefficients
      (normalized_mbis.old_coefficients st) (normalized_mbis.exponents st)
      ed grid mask
    = Ok (normalized_mbis.new_coefficients st')
    /\ normalized_mbis.old_coefficients st' = normalized_mbis.new_coefficients st
    /\ normalized_mbis.exponents st' = normalized_mbis.exponents st
    /\ normalized_mbis.counter st' = S (normalized_mbis.counter st)
    /\ normalized_mbis.integrate_error
         (normalized_mbis.new_coefficients st') (normalized_mbis.exponents st)
         ed grid = Ok err
    /\ normalized_mbis.integrate_normalized_model
         (normalized_mbis.new_coefficients st') (normalized_mbis.exponents st)
         ed grid = Ok mass
    /\ normalized_mbis.KL_objective_function
         (normalized_mbis.new_coefficients st') (normalized_mbis.exponents st)
         ed grid = Ok obj
    /\ normalized_mbis.error_array st'
       = normalized_mbis.append_to 2 obj
           (normalized_mbis.append_to 1 (Data mass)
              (normalized_mbis.append_to 0 (Data err)
                 (normalized_mbis.error_array st))).
Proof.
  unfold normalized_mbis.loop_body. intros H.
  destruct (normalized_mbis.update_coefficients _ _ _ _ _) as [new|] eqn:Eu;
    [| discriminate].
  step in H.
  destruct (normalized_mbis.normalized_gaussian_model _ _ _); [| discriminate].
  step in H.
  destruct (normalized_mbis.integrate_error _ _ _ _) as [err|] eqn:Ee;
    [| discriminate].
  step in H.
  destruct (normalized_mbis.integrate_normalized_model _ _ _ _) as [mass|] eqn:Em;
    [| discriminate].
  step in H.
  destruct (normalized_mbis.KL_objective_function _ _ _ _) as [obj|] eqn:Ek;
    [| discriminate].
  step in H. injection H as <-.
  exists err, mass, obj. cbn. repeat split; assumption.
Qed.

Lemma loop_body_ok (ed grid : list float) (mask : float)
    (st : normalized_mbis.loop_state) (new : list float) :
  normalized_mbis.update_coefficients
    (normalized_mbis.old_coefficients st) (normalized_mbis.exponents st)
    ed grid mask = Ok new ->
  exists st',
    normalized_mbis.loop_body ed grid mask st = Ok st'
    /\ normalized_mbis.old_coefficients st' = normalized_mbis.new_coefficients st
    /\ normalized_mbis.new_coefficients st' = new
    /\ normalized_mbis.exponents st' = normalized_mbis.exponents st.
Proof.
  intros Hu.
  destruct (update_coefficients_Ok_inv _ _ _ _ _ _ Hu) as (_ & H1 & H2 & H3).
  assert (Hl : length new = length (normalized_mbis.exponents st)) by lia.
  unfold normalized_mbis.loop_body. rewrite Hu. step.
  destruct (normalized_gaussian_model_ok new _ grid Hl) as [gd [-> _]].
  step.
  destruct (integrate_error_ok new _ ed grid Hl H2) as [err ->].
  step.
  destruct (integrate_normalized_model_ok new _ ed grid Hl) as [mass ->].
  step.
  destruct (KL_objective_function_ok new _ ed grid Hl H2) as [obj ->].
  step.
  eexists. split; [reflexivity |]. cbn. auto.
Qed.

Lemma last_cons_default {A : Type} (x : A) (l : list A) (d d' : A) :
  List.last (x :: l) d = List.last (x :: l) d'.
Proof.
  revert x. induction l as [|y l IH]; intros x; [reflexivity |].
  change (List.last (y :: l) d = List.last (y :: l) d'). apply IH.
Qed.

(** What the loop leaves in the state after [k] iterations: the
    vectors [news] produced by the successive updates, and the three
    diagnostics of each of them, appended to the first three
    sequences of [error_array]. *)
Lemma loop_spec (ed grid : list float) (mask : float) (k : nat) :
  forall (st st' : normalized_mbis.loop_state) (a b c d e f : list melem),
  normalized_mbis.loop k ed grid mask st = Ok st' ->
  normalized_mbis.error_array st = [a; b; c; d; e; f] ->
  exists (news : list (list float)) (errs masses : list float) (objs : list melem),
    length news = k
    /\ normalized_mbis.error_array st'
       = [a ++ map Data errs; b ++ map Data masses; c ++ objs; d; e; f]
    /\ Forall2 (fun n v =>
                  normalized_mbis.integrate_error
                    n (normalized_mbis.exponents st) ed grid = Ok v)
               news errs
    /\ Forall2 (fun n v =>
                  normalized_mbis.integrate_normalized_model
                    n (normalized_mbis.exponents st) ed grid = Ok v)
               news masses
    /\ Forall2 (fun n v =>
                  normalized_mbis.KL_objective_function
                    n (normalized_mbis.exponents st) ed grid = Ok v)
               news objs
    /\ normalized_mbis.new_coefficients st'
       = List.last news (normalized_mbis.new_coefficients st)
    /\ normalized_mbis.counter st' = (normalized_mbis.counter st + k)%nat
    /\ normalized_mbis.exponents st' = normalized_mbis.exponents st.
Proof.
  induction k as [|k IH]; intros st st' a b c d e f H Hea.
  - cbn in H. injection H as <-.
    exists [], [], [], []. cbn. rewrite !app_nil_r, Nat.add_0_r.
    repeat split; try constructor; assumption.
  - cbn [normalized_mbis.loop] in H.
    destruct (normalized_mbis.loop_body ed grid mask st) as [st1|] eqn:E1;
      [| discriminate].
    step in H.
    destruct (loop_body_inv _ _ _ _ _ E1)
      as (err & mass & obj & Hu & Ho & Hx & Hc & He & Hm & Hk & Ha).
    rewrite Hea in Ha. cbn in Ha.
    destruct (IH st1 st' _ _ _ _ _ _ H Ha)
      as (news & errs & masses & objs & Hn & Ha' & F1 & F2 & F3 & Hl & Hc' & Hx').
    exists (normalized_mbis.new_coefficients st1 :: news),
      (err :: errs), (mass :: masses), (obj :: objs).
    rewrite Hx in F1, F2, F3, Hx'.
    repeat split.
    + simpl. lia.
    + rewrite Ha'. cbn [map]. rewrite <- !app_assoc. reflexivity.
    + constructor; assumption.
    + constructor; assumption.
    + constructor; assumption.
    + rewrite Hl. destruct news as [|n news]; [reflexivity |].
      change (List.last (normalized_mbis.new_coefficients st1 :: n :: news)
                (normalized_mbis.new_coefficients st))
        with (List.last (n :: news) (normalized_mbis.new_coefficients st)).
      apply last_cons_default.
    + lia.
    + assumption.
Qed.

(** ** The length of the history *)

Lemma loop_uses_whole_budget
    (cs zs ed grid : list float) (mask : float) (k : nat)
    (st : normalized_mbis.loop_state) :
  normalized_mbis.loop k ed grid mask (normalized_mbis.initial_state cs zs)
  = Ok st ->
  normalized_mbis.counter st = k
  /\ history_of_length k (normalized_mbis.error_array st)
  /\ normalized_mbis.exponents st = zs.
Proof.
  intros H.
  destruct (loop_spec ed grid mask k _ st [] [] [] [] [] [] H eq_refl)
    as (news & errs & masses & objs & Hn & Ha & F1 & F2 & F3 & _ & Hc & Hx).
  cbn in Hc, Hx. repeat split; try assumption.
  exists (map Data errs), (map Data masses), objs.
  cbn [app] in Ha. split; [assumption |].
  apply Forall2_length in F1, F2, F3.
  rewrite !length_map. repeat split; lia.
Qed.

Lemma Sorted_Rlt_Rle (x : list R) : Sorted Rlt x -> Sorted Rle x.
Proof.
  induction 1 as [|a x _ IH Hhd]; constructor; [assumption |].
  destruct Hhd; constructor. lra.
Qed.

Lemma update_integrand_pos (cs zs : list R) (mask zeta e r : R) :
  0 < model_density cs zs r -> 0 < e -> r <> 0 ->
  0 < update_integrand cs zs mask zeta e r.
Proof.
  intros Hm He Hr. unfold update_integrand.
  pose proof (Rmax_l (model_density cs zs r) mask).
  assert (0 < r * r) by nra.
  assert (0 < e / Rmax (model_density cs zs r) mask)
    by (apply Rdiv_lt_0_compat; lra).
  apply Rmult_lt_0_compat; [apply Rmult_lt_0_compat |];
    try apply exp_pos; lra.
Qed.

Lemma update_trapezoid_pos (cs zs : list R) (mask zeta : R) (ed grid : list R) :
  (forall r, 0 < model_density cs zs r) ->
  Forall (fun e => 0 < e) ed -> Sorted Rlt grid ->
  length ed = length grid -> (2 <= length grid)%nat ->
  0 < trapezoid (zip_with (update_integrand cs zs mask zeta) ed grid) grid.
Proof.
  intros Hm He Hs Hlen H2.
  destruct grid as [|r0 [|r1 grid]]; simpl in H2; try lia.
  destruct ed as [|e0 [|e1 ed]]; try discriminate.
  inversion He as [|? ? He0 He']; subst.
  inversion He' as [|? ? He1 _]; subst.
  inversion Hs as [|? ? Hs' Hhd]; subst.
  inversion Hhd as [|? ? Hlt]; subst.
  change (0 < (r1 - r0)
              * (update_integrand cs zs mask zeta e1 r1
                 + update_integrand cs zs mask zeta e0 r0) / 2
              + trapezoid
                  (zip_with (update_integrand cs zs mask zeta) (e1 :: ed)
                     (r1 :: grid))
                  (r1 :: grid)).
  assert (0 <= trapezoid
                 (zip_with (update_integrand cs zs mask zeta) (e1 :: ed)
                    (r1 :: grid))
                 (r1 :: grid)).
  { apply trapezoid_nonneg; [now apply Sorted_Rlt_Rle |].
    apply Forall_zip_with. intros i e r Hi _.
    apply update_integrand_nonneg; [apply Hm |].
    apply Rlt_le. eapply Forall_lookup_elim in He'; eassumption. }
  assert (0 <= update_integrand cs zs mask zeta e0 r0)
    by (apply update_integrand_nonneg; [apply Hm | lra]).
  assert (0 <= update_integrand cs zs mask zeta e1 r1)
    by (apply update_integrand_nonneg; [apply Hm | lra]).
  assert (0 < update_integrand cs zs mask zeta e1 r1
              + update_integrand cs zs mask zeta e0 r0).
  { destruct (Req_dec_T r0 0) as [E | E].
    - assert (0 < update_integrand cs zs mask zeta e1 r1)
        by (apply update_integrand_pos; [apply Hm | lra | lra]).
      lra.
    - assert (0 < update_integrand cs zs mask zeta e0 r0)
        by (apply update_integrand_pos; [apply Hm | lra | lra]).
      lra. }
  assert (0 < (r1 - r0)
              * (update_integrand cs zs mask zeta e1 r1
                 + update_integrand cs zs mask zeta e0 r0))
    by (apply Rmult_lt_0_compat; lra).
  lra.
Qed.

(** Strictly positive data on a strictly increasing grid of at least
    two points.  Over the reals every update of such data is strictly
    positive, so that no assertion fails and the loop of the embedding
    runs to its end; in double precision a coefficient that keeps
    shrinking ends as [0.0], which the assertion refuses.  The lemmas
    of this section are used to run the loop on concrete data. *)
Section PositiveData.

Variables (zs ed grid : list R) (mask : R).
Hypothesis Hz : Forall (fun z => 0 < z) zs.
Hypothesis He : Forall (fun e => 0 < e) ed.
Hypothesis Hs : Sorted Rlt grid.
Hypothesis Hlen : length ed = length grid.
Hypothesis H2 : (2 <= length grid)%nat.

Lemma updated_coefficients_pos (cs : list R) :
  Forall (fun c => 0 < c) cs -> length cs = length zs ->
  Forall (fun c => 0 < c)
         (zip_with (updated_coefficient cs zs mask ed grid) cs zs).
Proof.
  intros Hc Hl.
  apply Forall_zip_with. intros i c z Hi Hi'.
  assert (0 < c) by (eapply Forall_lookup_elim in Hc; eassumption).
  assert (0 < z) by (eapply Forall_lookup_elim in Hz; eassumption).
  unfold updated_coefficient.
  apply Rmult_lt_0_compat.
  - apply Rmult_lt_0_compat; [assumption | now apply normalization_pos].
  - apply update_trapezoid_pos; try assumption.
    intros r. apply model_density_pos; try assumption.
    intros ->. discriminate.
Qed.

Lemma loop_total (k : nat) :
  forall (st : normalized_mbis.loop_state) (old new : list R),
    normalized_mbis.old_coefficients st = map Some old ->
    normalized_mbis.new_coefficients st = map Some new ->
    normalized_mbis.exponents st = map Some zs ->
    Forall (fun c => 0 < c) old -> Forall (fun c => 0 < c) new ->
    length old = length zs -> length new = length zs ->
    exists st',
      normalized_mbis.loop k (map Some ed) (map Some grid) (Some mask) st
      = Ok st'.
Proof.
  induction k as [|k IH]; intros st old new Eo En Ex Ho Hn Lo Ln.
  - exists st. reflexivity.
  - cbn [normalized_mbis.loop].
    destruct (loop_body_ok (map Some ed) (map Some grid) (Some mask) st
                (map Some (zip_with (updated_coefficient old zs mask ed grid)
                             old zs)))
      as (st1 & E1 & Eo1 & En1 & Ex1).
    { rewrite Eo, Ex. now apply update_coefficients_Some. }
    rewrite E1. step.
    apply (IH st1 new (zip_with (updated_coefficient old zs mask ed grid) old zs)).
    + congruence.
    + assumption.
    + congruence.
    + assumption.
    + now apply updated_coefficients_pos.
    + assumption.
    + rewrite length_zip_with. lia.
Qed.

End PositiveData.

(** ** The value returned by [fixed_iteration_MBIS_method] *)







(** ** The Slater orbitals *)

Lemma broadcast_length_same (m : nat) : broadcast_length m m = m.
Proof. unfold broadcast_length. destruct (Nat.eqb_spec m 1); congruence. Qed.

Lemma zip_with_map_same {A B C D : Type} (h : B -> C -> D) (f : A -> B)
    (g : A -> C) (l : list A) :
  zip_with h (map f l) (map g l) = map (fun x => h (f x) (g x)) l.
Proof. induction l as [|a l IH]; simpl; [reflexivity | now rewrite IH]. Qed.

Lemma slater_norm_Some (exponent : list R) (number : list Z) :
  Forall (fun z => 0 < z) exponent -> Forall (fun n => (1 <= n)%Z) number ->
  length exponent = length number ->
  zip_with fmul
    (zip_with float_power_int (map (fmul (Some 2)) (map Some exponent)) number)
    (map fsqrt
       (zip_with fdiv (map (fmul (Some 2)) (map Some exponent))
          (map (fun n => SlaterAtoms.factorial (2 * n)) number)))
  = map Some (zip_with slater_normalization exponent number).
Proof.
  intros Hz. revert number.
  induction Hz as [|z zs Hz0 _ IH]; intros [|n ns] Hn Hlen;
    simpl in Hlen; try discriminate; [reflexivity |].
  inversion Hn as [|? ? Hn0 Hn']; subst.
  cbn [map zip_with]. rewrite IH by (assumption || lia).
  f_equal.
  cbn [fmul flift2]. unfold float_power_int, SlaterAtoms.factorial.
  replace (n <? 0)%Z with false by (symmetry; apply Z.ltb_ge; lia).
  replace (2 * n <? 0)%Z with false by (symmetry; apply Z.ltb_ge; lia).
  cbn [andb].
  rewrite fdiv_Some by apply INR_fact_neq_0.
  unfold fsqrt. rewrite Rltb_false.
  - reflexivity.
  - apply Rle_not_lt, Rlt_le, Rdiv_lt_0_compat; [lra | apply INR_fact_lt_0].
Qed.

Lemma slater_row_Some (exponent : list R) (number : list Z) (r : R) :
  Forall (fun n => (1 <= n)%Z) number ->
  zip_with fmul
    (zip_with fmul (map Some (zip_with slater_normalization exponent number))
       (map (fun n => float_power_int (Some r) (n - 1)) number))
    (map (fun e => fexp (fmul (fopp e) (Some r))) (map Some exponent))
  = map Some (zip_with (fun z n => slater_function z n r) exponent number).
Proof.
  intros Hn. revert exponent.
  induction Hn as [|n ns Hn0 _ IH]; intros [|z zs]; try reflexivity.
  cbn [map zip_with]. rewrite IH. f_equal.
  unfold float_power_int.
  replace (n - 1 <? 0)%Z with false by (symmetry; apply Z.ltb_ge; lia).
  reflexivity.
Qed.

(** The array that [slater_orbital] returns on valid arguments. *)
Lemma slater_orbital_Some (exponent : list R) (number : list Z) (points : list R) :
  Forall (fun z => 0 < z) exponent -> Forall (fun n => (1 <= n)%Z) number ->
  length exponent = length number ->
  SlaterAtoms.slater_orbital (map Some exponent) number
    (SlaterAtoms.Points1 (map Some points))
  = Ok {| ncols := length exponent;
          rows := map (fun r =>
                    map Some (zip_with (fun z n => slater_function z n r)
                                exponent number))
                    points |}.
Proof.
  intros Hz Hn Hlen. unfold SlaterAtoms.slater_orbital.
  rewrite np_broadcast_same_length by (rewrite !length_map; lia).
  step.
  rewrite np_broadcast_same_length by (rewrite !length_map; lia).
  step.
  rewrite np_broadcast_same_length
    by (rewrite length_map, !length_zip_with, !length_map; lia).
  step.
  rewrite slater_norm_Some by assumption.
  unfold np_broadcast_row. cbn [ncols rows].
  rewrite !length_map, length_zip_with.
  replace (length exponent `min` length number) with (length number) by lia.
  rewrite broadcastable_refl, broadcast_length_same.
  step.
  unfold np_broadcast_matrix. cbn [ncols rows].
  rewrite <- Hlen, broadcastable_refl, broadcast_length_same.
  f_equal. f_equal.
  rewrite !map_map, zip_with_map_same.
  apply map_ext. intros r.
  rewrite (broadcast_with_same_length fmul
             (map Some (zip_with slater_normalization exponent number)))
    by (rewrite !length_map, length_zip_with; lia).
  rewrite broadcast_with_same_length
    by (rewrite !length_zip_with, !length_map, length_zip_with; lia).
  now apply slater_row_Some.
Qed.

(** C3.  On a non-empty one-dimensional grid, for positive exponents
    and principal quantum numbers at least 1, the Slater-orbital
    evaluation returns the array with one row per grid point and one
    column per primitive whose entry [(j, i)] is
    [(2 zeta_i)^(n_i) sqrt (2 zeta_i / (2 n_i)!) r_j^(n_i - 1)
     exp (- zeta_i r_j)]. *)
Theorem slater_orbital_entries
    (exponent : list R) (number : list Z) (points : list R) :
  Forall (fun z => 0 < z) exponent -> Forall (fun n => (1 <= n)%Z) number ->
  length exponent = length number -> points <> [] ->
  exists S,
    SlaterAtoms.slater_orbital (map Some exponent) number
      (SlaterAtoms.Points1 (map Some points)) = Ok S
    /\ length (rows S) = length points
    /\ ncols S = length exponent
    /\ forall (j i : nat) (r zeta : R) (n : Z),
         points !! j = Some r -> exponent !! i = Some zeta ->
         number !! i = Some n ->
         exists row,
           rows S !! j = Some row
           /\ length row = length exponent
           /\ row !! i
              = Some (Some
                  (powerRZ (2 * zeta) n
                   * sqrt (2 * zeta / INR (fact (Z.to_nat (2 * n))))
                   * powerRZ r (n - 1)
                   * exp (- zeta * r))).
Proof.
  intros Hz Hn Hlen _.
  rewrite slater_orbital_Some by assumption.
  eexists. split; [reflexivity |]. cbn [rows ncols].
  split; [apply length_map |]. split; [reflexivity |].
  intros j i r zeta n Hj Hi Hi'.
  eexists. split; [| split].
  - rewrite list_lookup_fmap, Hj. reflexivity.
  - rewrite length_map, length_zip_with. lia.
  - rewrite list_lookup_fmap, lookup_zip_with, Hi, Hi'. reflexivity.
Qed.

Lemma slater_orbital_entries_witness :
  exists S,
    SlaterAtoms.slater_orbital [Some 1; Some 2] [1%Z; 2%Z]
      (SlaterAtoms.Points1 [Some 0; Some 1]) = Ok S
    /\ length (rows S) = 2%nat
    /\ ncols S = 2%nat
    /\ forall (j i : nat) (r zeta : R) (n : Z),
         [0; 1] !! j = Some r -> [1; 2] !! i = Some zeta ->
         [1%Z; 2%Z] !! i = Some n ->
         exists row,
           rows S !! j = Some row
           /\ length row = 2%nat
           /\ row !! i
              = Some (Some
                  (powerRZ (2 * zeta) n
                   * sqrt (2 * zeta / INR (fact (Z.to_nat (2 * n))))
                   * powerRZ r (n - 1)
                   * exp (- zeta * r))).
Proof.
  apply (slater_orbital_entries [1; 2] [1%Z; 2%Z] [0; 1]);
    try (repeat constructor; (lra || lia)).
  discriminate.
Defined.

Lemma deriv_pref_row_Some (exponent : list R) (number : list Z) (r : R) :
  r <> 0 ->
  zip_with (fun e q => fsub q e) (map Some exponent)
    (map (fun n => fdiv (fsub (SlaterAtoms.fZ n) (Some 1)) (Some r)) number)
  = map Some (zip_with (fun z n => (IZR n - 1) / r - z) exponent number).
Proof.
  intros Hr. revert number.
  induction exponent as [|z zs IH]; intros [|n ns]; try reflexivity.
  cbn [map zip_with]. rewrite IH. f_equal.
  cbn [SlaterAtoms.fZ fsub flift2]. rewrite fdiv_Some by assumption.
  reflexivity.
Qed.

Lemma zero_row_times (d : list float) (s : list R) :
  length d = length s ->
  zip_with fmul (map (fun _ => Some 0) d) (map Some s)
  = map Some (map (fun _ => 0) s).
Proof.
  revert s. induction d as [|x d IH]; intros [|y s] H; simpl in H;
    try discriminate; [reflexivity |].
  cbn [map zip_with]. rewrite IH by lia. f_equal.
  cbn. f_equal. ring.
Qed.

Lemma derivative_row_Some (exponent : list R) (number : list Z) (r : R) :
  length exponent = length number ->
  zip_with fmul
    (if SlaterAtoms.near_zero (Some r)
     then map (fun _ => Some 0)
            (zip_with (fun e q => fsub q e) (map Some exponent)
               (map (fun n => fdiv (fsub (SlaterAtoms.fZ n) (Some 1)) (Some r))
                    number))
     else zip_with (fun e q => fsub q e) (map Some exponent)
            (map (fun n => fdiv (fsub (SlaterAtoms.fZ n) (Some 1)) (Some r))
                 number))
    (map Some (zip_with (fun z n => slater_function z n r) exponent number))
  = map Some (zip_with (fun z n => slater_derivative z n r) exponent number).
Proof.
  intros Hlen. unfold SlaterAtoms.near_zero, slater_derivative. cbn [fabs flift1].
  destruct (Rltb (Rabs r) (1 / 10 ^ 10)) eqn:E.
  - rewrite zero_row_times
      by (rewrite !length_zip_with, !length_map; lia).
    f_equal. clear. revert number.
    induction exponent as [|z zs IH]; intros [|n ns]; try reflexivity.
    cbn [map zip_with]. now rewrite IH.
  - assert (Hr : r <> 0).
    { intros ->. rewrite Rabs_R0 in E.
      rewrite Rltb_true in E by lra. discriminate. }
    rewrite deriv_pref_row_Some by assumption.
    change fmul with (flift2 Rmult). rewrite zip_with_flift2. f_equal.
    clear. revert number.
    induction exponent as [|z zs IH]; intros [|n ns]; try reflexivity.
    cbn [zip_with]. now rewrite IH.
Qed.

Lemma derivative_slater_type_orbital_Some
    (exponent : list R) (number : list Z) (points : list R) :
  Forall (fun z => 0 < z) exponent -> Forall (fun n => (1 <= n)%Z) number ->
  length exponent = length number ->
  SlaterAtoms.derivative_slater_type_orbital (map Some exponent) number
    (SlaterAtoms.Points1 (map Some points))
  = Ok {| ncols := length exponent;
          rows := map (fun r =>
                    map Some (zip_with (fun z n => slater_derivative z n r)
                                exponent number))
                    points |}.
Proof.
  intros Hz Hn Hlen. unfold SlaterAtoms.derivative_slater_type_orbital.
  rewrite slater_orbital_Some by assumption.
  step.
  unfold np_broadcast_row. cbn [ncols rows].
  rewrite !length_map, Hlen, broadcastable_refl, broadcast_length_same.
  step.
  unfold np_broadcast_matrix. cbn [ncols rows].
  rewrite broadcastable_refl, broadcast_length_same.
  f_equal. f_equal.
  rewrite !map_map, zip_with_map_same, zip_with_map_same.
  apply map_ext. intros r.
  rewrite (broadcast_with_same_length (fun e q => fsub q e))
    by (rewrite !length_map; lia).
  rewrite broadcast_with_same_length.
  - now apply derivative_row_Some.
  - rewrite length_map, length_zip_with.
    destruct (SlaterAtoms.near_zero (Some r));
      rewrite ?length_map, length_zip_with, !length_map; lia.
Qed.

(** C4.  For positive exponents and principal quantum numbers at least
    1, on every one-dimensional grid, the derivative evaluation returns
    the finite value 0 in every row whose grid point is within [1e-10]
    of the origin (the origin included), and [(n - 1) / r - zeta] times
    the Slater orbital in the other rows. *)
Theorem derivative_slater_entries
    (exponent : list R) (number : list Z) (points : list R) :
  Forall (fun z => 0 < z) exponent -> Forall (fun n => (1 <= n)%Z) number ->
  length exponent = length number ->
  exists D,
    SlaterAtoms.derivative_slater_type_orbital (map Some exponent) number
      (SlaterAtoms.Points1 (map Some points)) = Ok D
    /\ length (rows D) = length points
    /\ ncols D = length exponent
    /\ forall (j i : nat) (r zeta : R) (n : Z),
         points !! j = Some r -> exponent !! i = Some zeta ->
         number !! i = Some n ->
         exists row,
           rows D !! j = Some row
           /\ (Rabs r < 1 / 10 ^ 10 -> row !! i = Some (Some 0))
           /\ (~ Rabs r < 1 / 10 ^ 10 ->
               row !! i
               = Some (Some
                   (((IZR n - 1) / r - zeta)
                    * (powerRZ (2 * zeta) n
                       * sqrt (2 * zeta / INR (fact (Z.to_nat (2 * n))))
                       * powerRZ r (n - 1)
                       * exp (- zeta * r))))).
Proof.
  intros Hz Hn Hlen.
  rewrite derivative_slater_type_orbital_Some by assumption.
  eexists. split; [reflexivity |]. cbn [rows ncols].
  split; [apply length_map |]. split; [reflexivity |].
  intros j i r zeta n Hj Hi Hi'.
  eexists. split; [| split].
  - rewrite list_lookup_fmap, Hj. reflexivity.
  - intros Hr.
    rewrite list_lookup_fmap, lookup_zip_with, Hi, Hi'. cbn.
    unfold slater_derivative. now rewrite Rltb_true.
  - intros Hr.
    rewrite list_lookup_fmap, lookup_zip_with, Hi, Hi'. cbn.
    unfold slater_derivative. now rewrite Rltb_false.
Qed.

Lemma derivative_slater_entries_witness :
  exists D,
    SlaterAtoms.derivative_slater_type_orbital [Some 1; Some 2] [1%Z; 2%Z]
      (SlaterAtoms.Points1 [Some 0; Some 1]) = Ok D
    /\ length (rows D) = 2%nat
    /\ ncols D = 2%nat
    /\ forall (j i : nat) (r zeta : R) (n : Z),
         [0; 1] !! j = Some r -> [1; 2] !! i = Some zeta ->
         [1%Z; 2%Z] !! i = Some n ->
         exists row,
           rows D !! j = Some row
           /\ (Rabs r < 1 / 10 ^ 10 -> row !! i = Some (Some 0))
           /\ (~ Rabs r < 1 / 10 ^ 10 ->
               row !! i
               = Some (Some
                   (((IZR n - 1) / r - zeta)
                    * (powerRZ (2 * zeta) n
                       * sqrt (2 * zeta / INR (fact (Z.to_nat (2 * n))))
                       * powerRZ r (n - 1)
                       * exp (- zeta * r))))).
Proof.
  apply (derivative_slater_entries [1; 2] [1%Z; 2%Z] [0; 1]);
    repeat constructor; (lra || lia).
Defined.

(** ** The atomic density *)

Lemma py_getitem_last {A : Type} (a : list A) (n : nat) (x : A) :
  n = length a -> a !! (length a - 1)%nat = Some x ->
  SlaterAtoms.py_getitem a (Z.of_nat n - 1) = Ok x.
Proof.
  intros -> H. unfold SlaterAtoms.py_getitem.
  assert (Hlt : (length a - 1 < length a)%nat) by (eapply lookup_lt_Some, H).
  replace (Z.of_nat (length a) - 1 <? 0)%Z with false
    by (symmetry; apply Z.ltb_ge; lia).
  replace ((0 <=? Z.of_nat (length a) - 1)%Z
           && (Z.of_nat (length a) - 1 <? Z.of_nat (length a))%Z)
    with true
    by (symmetry; apply andb_true_iff; split;
        [apply Z.leb_le | apply Z.ltb_lt]; lia).
  replace (Z.to_nat (Z.of_nat (length a) - 1)) with (length a - 1)%nat by lia.
  now rewrite H.
Qed.

Lemma mode_occupations_total (self : SlaterAtoms.t) :
  SlaterAtoms.mode_occupations self "total"
  = Ok (SlaterAtoms.orbitals_occupation self).
Proof. reflexivity. Qed.

Lemma mode_occupations_valence (self : SlaterAtoms.t) (es : list R) (h : R) :
  SlaterAtoms.orbitals_energy self = map Some es ->
  length (SlaterAtoms.orbitals_occupation self) = length es ->
  es !! (length es - 1)%nat = Some h ->
  SlaterAtoms.mode_occupations self "valence"
  = Ok (zip_with fmul (SlaterAtoms.orbitals_occupation self)
          (map Some (map (valence_weight h) es))).
Proof.
  intros He Hlen Hh. unfold SlaterAtoms.mode_occupations.
  destruct (decide ("valence" = "valence")) as [_ | Hne]; [| congruence].
  rewrite He, Hlen.
  rewrite (py_getitem_last (A := float) (map Some es) (length es) (Some h))
    by (rewrite ?length_map, ?list_lookup_fmap, ?Hh; reflexivity).
  step.
  rewrite np_broadcast_same_length by (rewrite !length_map; lia).
  f_equal. f_equal. rewrite !map_map. apply map_ext. intros e.
  cbn [fsub flift2]. rewrite fsquare_Some. reflexivity.
Qed.

Lemma mode_occupations_core (self : SlaterAtoms.t) (es : list R) (h : R) :
  SlaterAtoms.orbitals_energy self = map Some es ->
  length (SlaterAtoms.orbitals_occupation self) = length es ->
  es !! (length es - 1)%nat = Some h ->
  SlaterAtoms.mode_occupations self "core"
  = Ok (zip_with fmul (SlaterAtoms.orbitals_occupation self)
          (map Some (map (core_weight h) es))).
Proof.
  intros He Hlen Hh. unfold SlaterAtoms.mode_occupations.
  destruct (decide ("core" = "valence")) as [Heq | _]; [discriminate |].
  destruct (decide ("core" = "core")) as [_ | Hne]; [| congruence].
  rewrite He, Hlen.
  rewrite (py_getitem_last (A := float) (map Some es) (length es) (Some h))
    by (rewrite ?length_map, ?list_lookup_fmap, ?Hh; reflexivity).
  step.
  rewrite np_broadcast_same_length by (rewrite !length_map; lia).
  f_equal. f_equal. rewrite !map_map. apply map_ext. intros e.
  cbn [fsub flift2]. rewrite fsquare_Some. reflexivity.
Qed.

Lemma fsum_cons (x : float) (l : list float) : fsum (x :: l) = fadd x (fsum l).
Proof. reflexivity. Qed.

Lemma dot_core_valence (h : R) (row occ : list float) (es : list R) :
  length occ = length es ->
  fadd (fsum (zip_with fmul row
                (zip_with fmul occ (map Some (map (core_weight h) es)))))
       (fsum (zip_with fmul row
                (zip_with fmul occ (map Some (map (valence_weight h) es)))))
  = fsum (zip_with fmul row occ).
Proof.
  assert (H0 : fadd (Some 0) (Some 0) = Some 0)
    by (cbv [fadd flift2]; f_equal; ring).
  revert occ es. induction row as [|a row IH]; intros occ es Hlen.
  - exact H0.
  - destruct occ as [|o occ]; destruct es as [|e es]; simpl in Hlen;
      try discriminate.
    + exact H0.
    + cbn [map zip_with]. rewrite !fsum_cons.
      rewrite <- (IH occ es) by lia.
      destruct a, o,
        (fsum (zip_with fmul row
                 (zip_with fmul occ (map Some (map (core_weight h) es))))),
        (fsum (zip_with fmul row
                 (zip_with fmul occ (map Some (map (valence_weight h) es)))));
        cbv [fadd fmul flift2]; try reflexivity.
      f_equal. unfold core_weight. ring.
Qed.

Lemma fdiv_fadd (x y d : float) :
  fadd (fdiv x d) (fdiv y d) = fdiv (fadd x y) d.
Proof.
  destruct x as [a|], y as [b|], d as [c|]; cbn; try reflexivity;
    destruct (Reqb c 0) eqn:E; cbn; try reflexivity.
  f_equal. unfold Reqb in E. destruct (Req_dec_T c 0); [discriminate |].
  now field.
Qed.

Lemma phi_matrix_shape (self : SlaterAtoms.t) (points : SlaterAtoms.points_array)
    (deriv : bool) (phi : matrix) :
  SlaterAtoms.phi_matrix self points deriv = Ok phi ->
  ncols phi = length (SlaterAtoms.orbitals self)
  /\ length (rows phi) = SlaterAtoms.len points.
Proof.
  unfold SlaterAtoms.phi_matrix. intros H.
  destruct (SlaterAtoms.phi_columns _ _ _ _); [| discriminate].
  step in H. injection H as <-. cbn.
  now rewrite length_map, length_seq.
Qed.

Lemma atomic_density_with (self : SlaterAtoms.t)
    (points : SlaterAtoms.points_array) (mode : string) (phi : matrix)
    (occs : list float) :
  mode ∈ ["total"; "valence"; "core"] ->
  SlaterAtoms.mode_occupations self mode = Ok occs ->
  SlaterAtoms.phi_matrix self points false = Ok phi ->
  length occs = length (SlaterAtoms.orbitals self) ->
  SlaterAtoms.atomic_density self points mode
  = Ok (map (fun row =>
               fdiv (fsum (zip_with fmul (map fsquare row) occs))
                    (Some (4 * PI)))
            (rows phi)).
Proof.
  intros Hmode Ho Hphi Hlen. unfold SlaterAtoms.atomic_density.
  rewrite bool_decide_eq_true_2 by assumption. cbn [negb].
  rewrite Ho, Hphi. step.
  unfold np_dot.
  destruct (phi_matrix_shape _ _ _ _ Hphi) as [-> _].
  rewrite <- Hlen, Nat.eqb_refl. step.
  now rewrite !map_map.
Qed.

(** C5.  For an atom whose orbital matrix can be evaluated on the
    grid, with one finite energy and one occupation for each of its
    orbitals, the three densities are computed, and the density of
    mode "core" plus the density of mode "valence" is, entry by entry,
    the density of mode "total": in exact arithmetic the two sides are
    equal. *)
Theorem atomic_density_core_plus_valence
    (self : SlaterAtoms.t) (points : SlaterAtoms.points_array)
    (phi : matrix) (es : list R) :
  SlaterAtoms.phi_matrix self points false = Ok phi ->
  SlaterAtoms.orbitals_energy self = map Some es ->
  length (SlaterAtoms.orbitals_occupation self)
  = length (SlaterAtoms.orbitals self) ->
  length es = length (SlaterAtoms.orbitals self) ->
  SlaterAtoms.orbitals self <> [] ->
  exists core valence total,
    SlaterAtoms.atomic_density self points "core" = Ok core
    /\ SlaterAtoms.atomic_density self points "valence" = Ok valence
    /\ SlaterAtoms.atomic_density self points "total" = Ok total
    /\ length total = SlaterAtoms.len points
    /\ zip_with fadd core valence = total.
Proof.
  intros Hphi He Hocc Hes Hne.
  assert (Hh : exists h, es !! (length es - 1)%nat = Some h).
  { apply lookup_lt_is_Some_2.
    destruct (SlaterAtoms.orbitals self); [contradiction | simpl in Hes; lia]. }
  destruct Hh as [h Hh].
  pose proof (mode_occupations_core self es h He ltac:(lia) Hh) as Hc.
  pose proof (mode_occupations_valence self es h He ltac:(lia) Hh) as Hv.
  pose proof (mode_occupations_total self) as Ht.
  eexists _, _, _.
  split; [| split; [| split; [| split]]].
  - apply atomic_density_with; [set_solver | exact Hc | exact Hphi |].
    rewrite length_zip_with, !length_map. lia.
  - apply atomic_density_with; [set_solver | exact Hv | exact Hphi |].
    rewrite length_zip_with, !length_map. lia.
  - apply atomic_density_with; [set_solver | exact Ht | exact Hphi | exact Hocc].
  - rewrite length_map. apply (phi_matrix_shape _ _ _ _ Hphi).
  - rewrite zip_with_map_same. apply map_ext. intros row.
    rewrite fdiv_fadd. f_equal.
    apply dot_core_valence. lia.
Qed.

Lemma hydrogen_phi_matrix :
  exists phi,
    SlaterAtoms.phi_matrix hydrogen (SlaterAtoms.Points1 [Some 0; Some 1]) false
    = Ok phi.
Proof.
  unfold SlaterAtoms.phi_matrix, hydrogen.
  cbn [SlaterAtoms.orbitals SlaterAtoms.phi_columns].
  unfold SlaterAtoms.phi_column, SlaterAtoms.dict_get.
  cbn [SlaterAtoms.orbitals_exp SlaterAtoms.basis_numbers
       SlaterAtoms.orbitals_coeff].
  change (SlaterAtoms.str_getitem_1 "1S") with (Ok (A := string) "S").
  step.
  rewrite !lookup_singleton_eq.
  step.
  assert (Hs : SlaterAtoms.slater_orbital [Some 1] [1%Z]
                 (SlaterAtoms.Points1 [Some 0; Some 1])
               = Ok {| ncols := 1;
                       rows := map (fun r =>
                                 map Some
                                   (zip_with (fun z n => slater_function z n r)
                                      [1] [1%Z]))
                                 [0; 1] |}).
  { apply (slater_orbital_Some [1] [1%Z] [0; 1]);
      repeat constructor; (lra || lia). }
  rewrite Hs.
  step. unfold np_dot. cbn [ncols rows length Nat.eqb].
  step. eexists. reflexivity.
Qed.

Lemma atomic_density_core_plus_valence_witness :
  exists core valence total,
    SlaterAtoms.atomic_density hydrogen
      (SlaterAtoms.Points1 [Some 0; Some 1]) "core" = Ok core
    /\ SlaterAtoms.atomic_density hydrogen
         (SlaterAtoms.Points1 [Some 0; Some 1]) "valence" = Ok valence
    /\ SlaterAtoms.atomic_density hydrogen
         (SlaterAtoms.Points1 [Some 0; Some 1]) "total" = Ok total
    /\ length total = 2%nat
    /\ zip_with fadd core valence = total.
Proof.
  destruct hydrogen_phi_matrix as [phi Hphi].
  apply (atomic_density_core_plus_valence hydrogen
           (SlaterAtoms.Points1 [Some 0; Some 1]) phi [- (1 / 2)] Hphi);
    try reflexivity.
  discriminate.
Defined.

(** ** The reference energy of the valence and core densities *)

(** The reference energy is the entry of [orbitals_energy] of index
    [len(orbitals_occupation) - 1]: the energy of the orbital that the
    atom lists last. *)
Lemma mode_occupations_reference (self : SlaterAtoms.t) (es : list R) (h : R) :
  SlaterAtoms.orbitals_energy self = map Some es ->
  length (SlaterAtoms.orbitals_occupation self) = length es ->
  es !! (length es - 1)%nat = Some h ->
  SlaterAtoms.mode_occupations self "valence"
  = Ok (zip_with fmul (SlaterAtoms.orbitals_occupation self)
          (map Some (map (fun e => exp (- ((e - h) * (e - h)))) es)))
  /\ SlaterAtoms.mode_occupations self "core"
     = Ok (zip_with fmul (SlaterAtoms.orbitals_occupation self)
             (map Some (map (fun e => 1 - exp (- ((e - h) * (e - h)))) es))).
Proof.
  intros He Hlen Hh. split.
  - now apply mode_occupations_valence.
  - now apply mode_occupations_core.
Qed.

(** C6 on potassium.  The highest occupied orbital is 4S, whose energy
    is the largest; the reference that the code takes is the energy of
    3P, the last orbital of the list.  The occupation of 4S is
    therefore weighted in the valence density by a factor below 1, and
    not by [exp 0 = 1]. *)
Theorem potassium_reference_is_not_homo
    (exps : gmap string (list float)) (numbers : gmap string (list Z))
    (coeffs : gmap string (list float)) :
  Forall (fun e => e <= - (1474751 / 10 ^ 7)) potassium_energies
  /\ exists occs w,
       SlaterAtoms.mode_occupations (potassium exps numbers coeffs) "valence"
       = Ok occs
       /\ occs !! 3%nat = Some (Some (1 * w))
       /\ w = exp (- ((- (1474751 / 10 ^ 7) - - (9544227 / 10 ^ 7))
                      * (- (1474751 / 10 ^ 7) - - (9544227 / 10 ^ 7))))
       /\ w < 1.
Proof.
  split.
  - unfold potassium_energies. repeat constructor; lra.
  - eexists _, _. split; [| split; [| split]].
    + apply (mode_occupations_valence (potassium exps numbers coeffs)
               potassium_energies (- (9544227 / 10 ^ 7)));
        reflexivity.
    + reflexivity.
    + reflexivity.
    + unfold valence_weight. rewrite <- exp_0. apply exp_increasing. nra.
Qed.

(** * Further properties of [fitting/fit/normalized_mbis.py] *)

(** ** The shapes that the model accepts *)

Lemma broadcast_with_length {A B C : Type} (f : A -> B -> C)
    (xs : list A) (ys : list B) :
  broadcastable (length xs) (length ys) = true ->
  length (broadcast_with f xs ys) = broadcast_length (length xs) (length ys).
Proof.
  unfold broadcastable, broadcast_length, broadcast_with. intros H.
  destruct xs as [|x [|x' xs]]; destruct ys as [|y [|y' ys]];
    cbn in H |- *; try reflexivity; try discriminate;
    rewrite ?length_map, ?length_zip_with; cbn; try lia.
  rewrite !orb_false_r in H. apply Nat.eqb_eq in H. lia.
Qed.

(** X1.  [normalized_gaussian_model] returns, with one value for each
    grid point, exactly when there are as many coefficients as
    exponents or there is a single coefficient, which is then shared
    by all the exponents; with any other pair of lengths it raises
    [ValueError]. *)
Theorem normalized_gaussian_model_shapes (cs zs grid : list float) :
  (length cs = length zs \/ length cs = 1%nat ->
   exists gd,
     normalized_mbis.normalized_gaussian_model cs zs grid = Ok gd
     /\ length gd = length grid)
  /\ (~ (length cs = length zs \/ length cs = 1%nat) ->
      normalized_mbis.normalized_gaussian_model cs zs grid = Raise ValueError).
Proof.
  unfold normalized_mbis.normalized_gaussian_model, np_broadcast.
  rewrite length_map.
  destruct (broadcastable (length zs) (length cs)) eqn:B.
  - step. unfold np_dot.
    rewrite broadcast_with_length by (now rewrite length_map).
    rewrite length_map. unfold broadcast_length.
    unfold broadcastable in B.
    destruct (length zs =? 1)%nat eqn:Z1;
      [apply Nat.eqb_eq in Z1 | apply Nat.eqb_neq in Z1].
    + destruct (length zs =? length cs)%nat eqn:E;
        [apply Nat.eqb_eq in E | apply Nat.eqb_neq in E].
      * split; [| intros H; exfalso; apply H; left; lia].
        intros _. eexists. split; [reflexivity |]. now rewrite !length_map.
      * split; [intros [H | H]; exfalso; lia | reflexivity].
    + rewrite Nat.eqb_refl.
      split; [| intros H; exfalso; apply H].
      * intros _. eexists. split; [reflexivity |]. now rewrite !length_map.
      * rewrite orb_false_r in B. apply orb_true_iff in B.
        destruct B as [B | B]; apply Nat.eqb_eq in B; [left | right]; lia.
  - step. unfold broadcastable in B.
    apply orb_false_iff in B. destruct B as [B B1].
    apply orb_false_iff in B. destruct B as [B B2].
    apply Nat.eqb_neq in B, B1.
    split; [intros [H | H]; exfalso; lia | reflexivity].
Qed.

Lemma normalized_gaussian_model_shapes_witness :
  exists gd,
    normalized_mbis.normalized_gaussian_model
      [Some 1] [Some 1; Some 2] [Some 0] = Ok gd
    /\ length gd = 1%nat.
Proof.
  apply (proj1 (normalized_gaussian_model_shapes
                  [Some 1] [Some 1; Some 2] [Some 0])).
  right. reflexivity.
Defined.

Lemma model_density_nonneg (cs zs : list R) (r : R) :
  Forall (fun c => 0 < c) cs -> Forall (fun z => 0 < z) zs ->
  length cs = length zs -> 0 <= model_density cs zs r.
Proof.
  intros Hc Hz Hlen. destruct cs as [|c cs].
  - unfold model_density. simpl. lra.
  - apply Rlt_le, model_density_pos; try assumption. discriminate.
Qed.

Lemma resolved_nonempty (cs zs : list R) (r : R) :
  length cs = length zs -> resolved zs r -> cs <> [].
Proof.
  intros Hlen Hr ->. destruct zs; [| discriminate]. inversion Hr.
Qed.

(** X2.  With coefficients and exponents that are positive and of
    moderate size, the model density is finite and not negative at
    every grid point, and it is strictly positive at every grid point
    at which some primitive is resolved (its exponential does not
    underflow). *)
Theorem normalized_gaussian_model_positive (cs zs grid : list R) :
  Forall moderate cs -> Forall moderate zs -> length cs = length zs ->
  exists vals,
    normalized_mbis.normalized_gaussian_model
      (map Some cs) (map Some zs) (map Some grid)
    = Ok (map Some vals)
    /\ length vals = length grid
    /\ Forall (fun v => 0 <= v) vals
    /\ forall (j : nat) (r v : R),
         grid !! j = Some r -> vals !! j = Some v -> resolved zs r -> 0 < v.
Proof.
  intros Hc Hz Hlen.
  apply Forall_moderate_pos in Hc, Hz.
  exists (map (model_density cs zs) grid).
  split; [now apply normalized_gaussian_model_Some |].
  split; [now rewrite length_map |].
  split.
  - apply Forall_map, Forall_forall. intros r _.
    now apply model_density_nonneg.
  - intros j r v Hj Hv Hr.
    rewrite list_lookup_fmap, Hj in Hv. injection Hv as <-.
    apply model_density_pos; try assumption.
    eapply resolved_nonempty; eassumption.
Qed.

Lemma normalized_gaussian_model_positive_witness :
  exists vals,
    normalized_mbis.normalized_gaussian_model
      (map Some [1]) (map Some [1]) (map Some [0; 1])
    = Ok (map Some vals)
    /\ length vals = length [0; 1]
    /\ Forall (fun v => 0 <= v) vals
    /\ forall v, vals !! 1%nat = Some v -> 0 < v.
Proof.
  destruct (normalized_gaussian_model_positive [1] [1] [0; 1])
    as (vals & E & L & F & P); [in_range | in_range | reflexivity |].
  exists vals. repeat (split; [assumption |]).
  intros v Hv. apply (P 1%nat 1 v eq_refl Hv). in_range.
Defined.

(** ** The trapezoidal rule is linear in the integrand *)

Lemma trapezoid_cons2 (y0 y1 : R) (y : list R) (x0 x1 : R) (x : list R) :
  trapezoid (y0 :: y1 :: y) (x0 :: x1 :: x)
  = (x1 - x0) * (y1 + y0) / 2 + trapezoid (y1 :: y) (x1 :: x).
Proof. reflexivity. Qed.

Lemma trapezoid_plus (y1 y2 x : list R) :
  length y1 = length y2 ->
  trapezoid (zip_with Rplus y1 y2) x = trapezoid y1 x + trapezoid y2 x.
Proof.
  revert y2 x. induction y1 as [|a0 y1 IH]; intros [|b0 y2] x Hlen;
    try discriminate; [simpl; lra |].
  destruct y1 as [|a1 y1]; destruct y2 as [|b1 y2]; try discriminate;
    [simpl; lra |].
  destruct x as [|x0 [|x1 x]]; try (simpl; lra).
  specialize (IH (b1 :: y2) (x1 :: x)).
  cbn [zip_with] in IH |- *. rewrite !trapezoid_cons2.
  rewrite IH by (simpl in *; lia). lra.
Qed.

Lemma trapezoid_scale (k : R) (y x : list R) :
  trapezoid (map (Rmult k) y) x = k * trapezoid y x.
Proof.
  revert x. induction y as [|a0 y IH]; intros x; [simpl; lra |].
  destruct y as [|a1 y]; [simpl; lra |].
  destruct x as [|x0 [|x1 x]]; try (simpl; lra).
  specialize (IH (x1 :: x)).
  cbn [map] in IH |- *. rewrite !trapezoid_cons2, IH. lra.
Qed.

Lemma trapezoid_zeros (y x : list R) :
  Forall (fun v => v = 0) y -> trapezoid y x = 0.
Proof.
  intros Hy. revert x.
  induction Hy as [|y0 y Hy0 Hy IH]; intros x; [reflexivity |].
  destruct y as [|y1 y]; [reflexivity |].
  destruct x as [|x0 [|x1 x]]; try reflexivity.
  rewrite trapezoid_cons2, IH.
  inversion Hy; subst. lra.
Qed.

Lemma zip_with_plus_split {A B : Type} (a b : A -> B -> R)
    (xs : list A) (ys : list B) :
  zip_with (fun x y => a x y + b x y) xs ys
  = zip_with Rplus (zip_with a xs ys) (zip_with b xs ys).
Proof.
  revert ys. induction xs as [|x xs IH]; intros [|y ys]; simpl;
    try reflexivity.
  now rewrite IH.
Qed.

Lemma zip_with_scale_split {A B : Type} (k : R) (a : A -> B -> R)
    (xs : list A) (ys : list B) :
  zip_with (fun x y => k * a x y) xs ys = map (Rmult k) (zip_with a xs ys).
Proof.
  revert ys. induction xs as [|x xs IH]; intros [|y ys]; simpl;
    try reflexivity.
  now rewrite IH.
Qed.

Lemma zip_with_ext_r {A B C : Type} (f g : A -> B -> C)
    (xs : list A) (ys : list B) :
  Forall (fun y => forall x, f x y = g x y) ys ->
  zip_with f xs ys = zip_with g xs ys.
Proof.
  intros H. revert xs.
  induction H as [|y ys Hy _ IH]; intros [|x xs]; simpl; try reflexivity.
  now rewrite Hy, IH.
Qed.

Lemma zip_with_map_l {A B C : Type} (h : B -> A -> C) (g : A -> B)
    (l : list A) :
  zip_with h (map g l) l = map (fun r => h (g r) r) l.
Proof. induction l as [|r l IH]; simpl; [reflexivity | now rewrite IH]. Qed.

Lemma zip_with_map_r {A B C : Type} (h : A -> B -> C) (g : A -> B)
    (l : list A) :
  zip_with h l (map g l) = map (fun r => h r (g r)) l.
Proof. induction l as [|r l IH]; simpl; [reflexivity | now rewrite IH]. Qed.

(** ** The update conserves the mass of the density *)

Lemma Rsum_updated_coefficients (cs0 zs0 : list R) (mask : R)
    (ed grid cs zs : list R) :
  Rsum (zip_with (updated_coefficient cs0 zs0 mask ed grid) cs zs)
  = trapezoid
      (zip_with
         (fun e r =>
            Rsum (zip_with
                    (fun c z =>
                       c * normalization z
                       * update_integrand cs0 zs0 mask z e r)
                    cs zs))
         ed grid)
      grid.
Proof.
  revert zs. induction cs as [|c cs IH]; intros zs.
  - cbn [zip_with Rsum fold_right]. symmetry. apply trapezoid_zeros.
    apply Forall_zip_with. reflexivity.
  - destruct zs as [|z zs].
    + cbn [zip_with Rsum fold_right]. symmetry. apply trapezoid_zeros.
      apply Forall_zip_with. reflexivity.
    + cbn [zip_with Rsum fold_right].
      change (fold_right Rplus 0) with Rsum.
      rewrite IH.
      rewrite (zip_with_plus_split
                 (fun e r => c * normalization z
                             * update_integrand cs0 zs0 mask z e r)).
      rewrite trapezoid_plus by (rewrite !length_zip_with; reflexivity).
      rewrite (zip_with_scale_split (c * normalization z)
                 (update_integrand cs0 zs0 mask z)).
      rewrite trapezoid_scale. reflexivity.
Qed.

Lemma Rsum_update_integrands (cs0 zs0 : list R) (mask e r : R) (cs zs : list R) :
  Rsum (zip_with
          (fun c z =>
             c * normalization z * update_integrand cs0 zs0 mask z e r)
          cs zs)
  = e / Rmax (model_density cs0 zs0 r) mask * (r * r) * model_density cs zs r.
Proof.
  unfold model_density at 2.
  revert zs. induction cs as [|c cs IH]; intros [|z zs];
    cbn [zip_with Rsum fold_right]; try lra.
  change (fold_right Rplus 0) with Rsum.
  rewrite IH. unfold update_integrand. lra.
Qed.

(** X3.  Where the model density is nowhere below the mask, the
    coefficients that [update_coefficients] returns sum (the sum that
    the function prints) to the trapezoidal integral of [r^2] times
    the true density: one update gives the model the mass of the
    density, whatever the coefficients it starts from. *)
Theorem update_coefficients_conserves_mass
    (cs zs ed grid : list R) (mask : R) :
  Forall (fun c => 0 < c) cs -> Forall (fun z => 0 < z) zs ->
  length cs = length zs -> cs <> [] ->
  length ed = length grid -> (2 <= length grid)%nat ->
  Forall (fun r => mask <= model_density cs zs r) grid ->
  exists new,
    normalized_mbis.update_coefficients
      (map Some cs) (map Some zs) (map Some ed) (map Some grid) (Some mask)
    = Ok new
    /\ fsum new = Some (density_mass ed grid).
Proof.
  intros Hc Hz Hlen Hne Hlen' H2 Hm.
  eexists. split; [now apply update_coefficients_Some |].
  rewrite fsum_Some. f_equal.
  rewrite Rsum_updated_coefficients. unfold density_mass. f_equal.
  apply zip_with_ext_r.
  rewrite Forall_forall in Hm |- *. intros r Hr e.
  rewrite Rsum_update_integrands.
  assert (0 < model_density cs zs r) by now apply model_density_pos.
  rewrite Rmax_left by (apply Hm, Hr).
  field. lra.
Qed.

Lemma update_coefficients_conserves_mass_witness :
  exists new,
    normalized_mbis.update_coefficients
      (map Some [1]) (map Some [1]) (map Some [1; 1]) (map Some [0; 1])
      (Some 0)
    = Ok new
    /\ fsum new = Some (density_mass [1; 1] [0; 1]).
Proof.
  apply (update_coefficients_conserves_mass [1] [1] [1; 1] [0; 1] 0).
  - repeat constructor. lra.
  - repeat constructor. lra.
  - reflexivity.
  - discriminate.
  - reflexivity.
  - simpl. lia.
  - assert (H : forall r, 0 <= model_density [1] [1] r).
    { intros r. apply Rlt_le, model_density_pos;
        try (repeat constructor; lra); try reflexivity; discriminate. }
    constructor; [apply H | constructor; [apply H | constructor]].
Defined.

(** X4.  When the density that is passed is the model's own output,
    for coefficients and exponents that are positive and of moderate
    size and a grid at each point of which some primitive is resolved
    (so that the model density that the code computes is not zero
    there), both diagnostics of the fit vanish: [integrate_error]
    returns 0 and [KL_objective_function] returns 0. *)
Theorem diagnostics_vanish_at_model (cs zs grid : list R) :
  Forall moderate cs -> Forall moderate zs ->
  Forall (resolved zs) grid ->
  length cs = length zs -> (2 <= length grid)%nat ->
  exists vals,
    normalized_mbis.normalized_gaussian_model
      (map Some cs) (map Some zs) (map Some grid)
    = Ok (map Some vals)
    /\ normalized_mbis.integrate_error
         (map Some cs) (map Some zs) (map Some vals) (map Some grid)
       = Ok (Some 0)
    /\ normalized_mbis.KL_objective_function
         (map Some cs) (map Some zs) (map Some vals) (map Some grid)
       = Ok (Data (Some 0)).
Proof.
  intros Hc Hz Hr Hlen H2.
  apply Forall_moderate_pos in Hc, Hz.
  assert (Hne : cs <> []).
  { destruct grid as [|r grid]; [simpl in H2; lia |].
    inversion Hr; subst. eapply resolved_nonempty; eassumption. }
  assert (Hpos : forall r, 0 < model_density cs zs r)
    by (intros r; now apply model_density_pos).
  exists (map (model_density cs zs) grid).
  split; [now apply normalized_gaussian_model_Some |].
  split.
  - rewrite integrate_error_Some
      by (try assumption; now rewrite length_map).
    do 2 f_equal. unfold integration_error.
    apply trapezoid_zeros. rewrite zip_with_map_r.
    apply Forall_map, Forall_forall. intros r _.
    replace (model_density cs zs r - model_density cs zs r) with 0 by lra.
    rewrite Rabs_R0. lra.
  - rewrite KL_objective_function_Some;
      try assumption; try (now rewrite length_map).
    + do 3 f_equal. unfold KL_integral.
      apply trapezoid_zeros. rewrite zip_with_map_l.
      apply Forall_map, Forall_forall. intros r _.
      specialize (Hpos r).
      replace (model_density cs zs r / model_density cs zs r) with 1
        by (field; lra).
      rewrite ln_1. lra.
    + apply Forall_map, Forall_forall. intros r _. apply Hpos.
Qed.

Lemma diagnostics_vanish_at_model_witness :
  exists vals,
    normalized_mbis.normalized_gaussian_model
      (map Some [1]) (map Some [1]) (map Some [0; 1])
    = Ok (map Some vals)
    /\ normalized_mbis.integrate_error
         (map Some [1]) (map Some [1]) (map Some vals) (map Some [0; 1])
       = Ok (Some 0)
    /\ normalized_mbis.KL_objective_function
         (map Some [1]) (map Some [1]) (map Some vals) (map Some [0; 1])
       = Ok (Data (Some 0)).
Proof.
  apply (diagnostics_vanish_at_model [1] [1] [0; 1]);
    first [reflexivity | simpl; lia | in_range].
Defined.

(** X5.  On a grid that does not decrease, [integrate_error] returns a
    finite number that is not negative. *)
Theorem integrate_error_nonnegative (cs zs ed grid : list R) :
  Forall (fun z => 0 < z) zs -> length cs = length zs ->
  length ed = length grid -> Sorted Rle grid ->
  exists v,
    normalized_mbis.integrate_error
      (map Some cs) (map Some zs) (map Some ed) (map Some grid)
    = Ok (Some v)
    /\ 0 <= v.
Proof.
  intros Hz Hlen Hlen' Hs.
  eexists. split; [now apply integrate_error_Some |].
  unfold integration_error. apply trapezoid_nonneg; [assumption |].
  apply Forall_zip_with. intros i r e _ _.
  pose proof (Rabs_pos (model_density cs zs r - e)).
  assert (0 <= r * r) by nra.
  now apply Rmult_le_pos.
Qed.

Lemma integrate_error_nonnegative_witness :
  exists v,
    normalized_mbis.integrate_error
      (map Some [1]) (map Some [1]) (map Some [1; 1]) (map Some [0; 1])
    = Ok (Some v)
    /\ 0 <= v.
Proof.
  apply (integrate_error_nonnegative [1] [1] [1; 1] [0; 1]).
  - repeat constructor. lra.
  - reflexivity.
  - reflexivity.
  - repeat constructor. lra.
Defined.

(** ** The integrated model is linear in the coefficients *)

Lemma model_mass_linear (cs zs grid : list R) :
  model_mass cs zs grid
  = Rsum (zip_with (fun c z => c * primitive_mass z grid) cs zs).
Proof.
  unfold model_mass, model_density.
  revert zs. induction cs as [|c cs IH]; intros zs.
  - cbn [zip_with Rsum fold_right]. apply trapezoid_zeros.
    apply Forall_map, Forall_forall. intros r _. lra.
  - destruct zs as [|z zs].
    + cbn [zip_with Rsum fold_right]. apply trapezoid_zeros.
      apply Forall_map, Forall_forall. intros r _. lra.
    + cbn [zip_with Rsum fold_right].
      change (fold_right Rplus 0) with Rsum.
      rewrite <- IH. unfold primitive_mass.
      replace (c * (normalization z
                    * trapezoid
                        (map (fun r => r * r * exp (- z * (r * r))) grid) grid))
        with (trapezoid
                (map (Rmult (c * normalization z))
                   (map (fun r => r * r * exp (- z * (r * r))) grid)) grid)
        by (rewrite trapezoid_scale; ring).
      rewrite <- trapezoid_plus by now rewrite !length_map.
      f_equal. rewrite map_map, zip_with_map_same.
      apply map_ext. intros r. ring.
Qed.

(** X6.  [integrate_normalized_model] is linear in the coefficients:
    it returns the sum, over the primitives, of the coefficient times
    the integral of [r^2] times the normalized Gaussian of the
    primitive. *)
Theorem integrate_normalized_model_linear
    (cs zs : list R) (ed : list float) (grid : list R) :
  Forall (fun z => 0 < z) zs -> length cs = length zs ->
  normalized_mbis.integrate_normalized_model
    (map Some cs) (map Some zs) ed (map Some grid)
  = Ok (Some
      (Rsum
         (zip_with
            (fun c z =>
               c * (normalization z
                    * trapezoid
                        (map (fun r => r * r * exp (- z * (r * r))) grid)
                        grid))
            cs zs))).
Proof.
  intros Hz Hlen.
  rewrite integrate_normalized_model_Some by assumption.
  now rewrite model_mass_linear.
Qed.

Lemma integrate_normalized_model_linear_witness :
  normalized_mbis.integrate_normalized_model
    (map Some [1; 2]) (map Some [1; 3]) [] (map Some [0; 1])
  = Ok (Some
      (Rsum
         (zip_with
            (fun c z =>
               c * (normalization z
                    * trapezoid
                        (map (fun r => r * r * exp (- z * (r * r))) [0; 1])
                        [0; 1]))
            [1; 2] [1; 3]))).
Proof.
  apply (integrate_normalized_model_linear [1; 2] [1; 3] [] [0; 1]).
  - repeat constructor; lra.
  - reflexivity.
Defined.

(** ** The exponent update on finite values *)

Lemma map_power4_Some (grid : list R) :
  map (fun r => float_power_int r 4) (map Some grid)
  = map Some (map (fun r => r ^ 4) grid).
Proof. rewrite !map_map. apply map_ext. intros r. reflexivity. Qed.

Lemma exponent_integrand_zip (cs zs : list R) (mask zeta : R) (ed grid : list R) :
  zip_with Rmult
    (zip_with Rmult
       (zip_with Rdiv ed (map (fun m => Rmax m mask) (map (model_density cs zs) grid)))
       (map (fun r => exp (- zeta * (r * r))) grid))
    (map (fun r => r ^ 4) grid)
  = zip_with (exponent_integrand cs zs mask zeta) ed grid.
Proof.
  revert ed. induction grid as [|r grid IH]; intros [|e ed];
    cbn [map zip_with]; try reflexivity.
  now rewrite IH.
Qed.

Lemma new_exponent_Some (cs zs : list R) (mask : R) (ed grid : list R)
    (zeta : R) :
  0 < zeta -> length ed = length grid -> (2 <= length grid)%nat ->
  normalized_mbis.new_exponent
    (mdata (zip_with Rdiv ed
              (map (fun m => Rmax m mask) (map (model_density cs zs) grid))))
    (map Some grid) (Some zeta)
  = Ok (fdiv (Some 3)
          (Some (2 * normalization zeta
                 * exponent_integral cs zs mask ed grid zeta))).
Proof.
  intros Hz Hlen H2. unfold normalized_mbis.new_exponent.
  rewrite get_normalization_constant_Some by assumption.
  rewrite map_gaussian_Some, ma_asarray_Some.
  rewrite np_broadcast_same_length
    by (rewrite !mdata_length, length_zip_with, !length_map; lia).
  step.
  rewrite zip_with_ma_multiply.
  rewrite map_power4_Some, ma_asarray_Some.
  rewrite np_broadcast_same_length
    by (rewrite !mdata_length, !length_zip_with, !length_map; lia).
  step.
  rewrite zip_with_ma_multiply, exponent_integrand_zip.
  rewrite ma_trapz_mdata
    by (try rewrite length_zip_with; lia).
  step. reflexivity.
Qed.

Lemma new_exponents_loop_Some (cs zs : list R) (mask : R)
    (ed grid zs' : list R) :
  Forall (fun z => 0 < z) zs' ->
  length ed = length grid -> (2 <= length grid)%nat ->
  normalized_mbis.new_exponents_loop
    (mdata (zip_with Rdiv ed
              (map (fun m => Rmax m mask) (map (model_density cs zs) grid))))
    (map Some grid) (map Some zs')
  = Ok (map (fun z =>
               fdiv (Some 3)
                 (Some (2 * normalization z
                        * exponent_integral cs zs mask ed grid z)))
            zs').
Proof.
  intros Hz Hlen H2.
  induction Hz as [|z zs' Hz0 _ IH]; [reflexivity |].
  cbn [map normalized_mbis.new_exponents_loop].
  rewrite new_exponent_Some by assumption.
  step. rewrite IH. reflexivity.
Qed.

Lemma update_exponents_Some (cs zs ed grid : list R) (mask : R) :
  Forall (fun z => 0 < z) zs -> 0 < mask ->
  length cs = length zs -> length ed = length grid ->
  (2 <= length grid)%nat ->
  normalized_mbis.update_exponents
    (map Some cs) (map Some zs) (map Some ed) (map Some grid) (Some mask)
  = Ok (map (fun z =>
               fdiv (Some 3)
                 (Some (2 * normalization z
                        * exponent_integral cs zs mask ed grid z)))
            zs).
Proof.
  intros Hz Hmask Hlen Hlen' H2. unfold normalized_mbis.update_exponents.
  rewrite normalized_gaussian_model_Some by assumption.
  step.
  rewrite !ma_asarray_Some, ma_clamp_mdata.
  rewrite np_broadcast_same_length by (rewrite !mdata_length, !length_map; lia).
  step.
  rewrite zip_with_ma_true_divide.
  - now apply new_exponents_loop_Some.
  - rewrite Forall_forall. intros y Hy.
    apply list_elem_of_In, in_map_iff in Hy. destruct Hy as [m [<- Hm]].
    pose proof (Rmax_r m mask). lra.
Qed.

Lemma trapezoid_zip_pos (f : R -> R -> R) (ed grid : list R) :
  (forall e r, 0 < e -> 0 <= f e r) ->
  (forall e r, 0 < e -> r <> 0 -> 0 < f e r) ->
  Forall (fun e => 0 < e) ed -> Sorted Rlt grid ->
  length ed = length grid -> (2 <= length grid)%nat ->
  0 < trapezoid (zip_with f ed grid) grid.
Proof.
  intros Hf0 Hf He Hs Hlen H2.
  destruct grid as [|r0 [|r1 grid]]; simpl in H2; try lia.
  destruct ed as [|e0 [|e1 ed]]; try discriminate.
  inversion He as [|? ? He0 He']; subst.
  inversion He' as [|? ? He1 _]; subst.
  inversion Hs as [|? ? Hs' Hhd]; subst.
  inversion Hhd as [|? ? Hlt]; subst.
  cbn [zip_with]. rewrite trapezoid_cons2.
  assert (0 <= trapezoid (f e1 r1 :: zip_with f ed grid) (r1 :: grid)).
  { apply trapezoid_nonneg; [now apply Sorted_Rlt_Rle |].
    apply (Forall_zip_with (fun v => 0 <= v) f (e1 :: ed) (r1 :: grid)).
    intros i e r Hi _. apply Hf0.
    eapply Forall_lookup_elim in He'; eassumption. }
  pose proof (Hf0 e0 r0 He0). pose proof (Hf0 e1 r1 He1).
  assert (0 < f e1 r1 + f e0 r0).
  { destruct (Req_dec_T r0 0) as [E | E].
    - assert (0 < f e1 r1) by (apply Hf; lra). lra.
    - assert (0 < f e0 r0) by (apply Hf; lra). lra. }
  assert (0 < (r1 - r0) * (f e1 r1 + f e0 r0))
    by (apply Rmult_lt_0_compat; lra).
  lra.
Qed.

Lemma exponent_integral_pos (cs zs : list R) (mask zeta : R) (ed grid : list R) :
  0 < mask -> Forall (fun e => 0 < e) ed -> Sorted Rlt grid ->
  length ed = length grid -> (2 <= length grid)%nat ->
  0 < exponent_integral cs zs mask ed grid zeta.
Proof.
  intros Hmask He Hs Hlen H2. unfold exponent_integral.
  assert (Hq : forall e r, 0 < e ->
                 0 < e / Rmax (model_density cs zs r) mask
                     * exp (- zeta * (r * r))).
  { intros e r H0.
    pose proof (Rmax_r (model_density cs zs r) mask).
    apply Rmult_lt_0_compat; [| apply exp_pos].
    apply Rdiv_lt_0_compat; lra. }
  apply trapezoid_zip_pos; try assumption; intros e r H0; unfold exponent_integrand.
  - specialize (Hq e r H0).
    assert (0 <= r ^ 4) by (replace (r ^ 4) with ((r * r) * (r * r)) by ring; nra).
    apply Rmult_le_pos; lra.
  - intros Hr. specialize (Hq e r H0).
    assert (0 < r * r) by nra.
    assert (0 < r ^ 4) by (replace (r ^ 4) with ((r * r) * (r * r)) by ring; nra).
    now apply Rmult_lt_0_compat.
Qed.

(** X7.  With strictly positive exponents, a strictly positive mask
    and a grid of at least two points, [update_exponents] returns one
    exponent for each exponent it is given, the one of index [i] being
    [3 / (2 N(zeta_i) T_i)], where [T_i] is the trapezoidal integral of
    [(true / model) exp(-zeta_i r^2) r^4] and the model density is
    raised to the mask where it is below it.  No exception guards the
    quotient: where [T_i] is zero the new exponent is not a finite
    number. *)
Theorem update_exponents_closed_form
    (cs zs ed grid : list R) (mask : R) (i : nat) (zeta : R) :
  Forall (fun z => 0 < z) zs -> 0 < mask ->
  length cs = length zs -> length ed = length grid ->
  (2 <= length grid)%nat ->
  zs !! i = Some zeta ->
  exists new,
    normalized_mbis.update_exponents
      (map Some cs) (map Some zs) (map Some ed) (map Some grid) (Some mask)
    = Ok new
    /\ length new = length zs
    /\ let T :=
         trapezoid
           (zip_with
              (fun e r =>
                 e / Rmax (model_density cs zs r) mask
                 * exp (- zeta * (r * r)) * r ^ 4)
              ed grid)
           grid in
       (T <> 0 -> new !! i = Some (Some (3 / (2 * normalization zeta * T))))
       /\ (T = 0 -> new !! i = Some None).
Proof.
  intros Hz Hmask Hlen Hlen' H2 Hi.
  eexists. split; [now apply update_exponents_Some |].
  split; [now rewrite length_map |].
  assert (0 < normalization zeta).
  { apply normalization_pos. eapply Forall_lookup_elim in Hz; eassumption. }
  cbv zeta. rewrite list_lookup_fmap, Hi. cbn [fmap option_fmap option_map].
  unfold exponent_integral, exponent_integrand, fdiv.
  split; intros HT.
  - rewrite Reqb_false; [reflexivity |].
    intros E. apply Rmult_integral in E. destruct E as [E | E]; [lra | auto].
  - rewrite HT, Rmult_0_r, Reqb_true by reflexivity. reflexivity.
Qed.

Lemma update_exponents_closed_form_witness :
  exists new,
    normalized_mbis.update_exponents
      (map Some [1]) (map Some [1]) (map Some [1; 1]) (map Some [0; 1])
      (Some (1 / 10 ^ 6))
    = Ok new
    /\ length new = length [1]
    /\ let T :=
         trapezoid
           (zip_with
              (fun e r =>
                 e / Rmax (model_density [1] [1] r) (1 / 10 ^ 6)
                 * exp (- 1 * (r * r)) * r ^ 4)
              [1; 1] [0; 1])
           [0; 1] in
       (T <> 0 -> new !! 0%nat = Some (Some (3 / (2 * normalization 1 * T))))
       /\ (T = 0 -> new !! 0%nat = Some None).
Proof.
  apply (update_exponents_closed_form [1] [1] [1; 1] [0; 1] (1 / 10 ^ 6) 0 1).
  - repeat constructor. lra.
  - lra.
  - reflexivity.
  - reflexivity.
  - simpl. lia.
  - reflexivity.
Defined.

(** X8.  On coefficients, exponents, a mask and a density that are
    positive and of moderate size, and a strictly increasing grid of
    at least two points whose points other than the origin are of
    moderate size, the exponents that [update_exponents] returns are
    finite and strictly positive, provided that every primitive is
    resolved at some grid point other than the origin (where its
    exponential does not underflow, so that the integral of the update
    is not computed as zero). *)
Theorem update_exponents_positive (cs zs ed grid : list R) (mask : R) :
  Forall moderate cs -> Forall moderate zs -> moderate mask ->
  Forall moderate ed -> Sorted Rlt grid ->
  Forall (fun r => r = 0 \/ moderate (Rabs r)) grid ->
  Forall (resolved_off_origin grid) zs ->
  length cs = length zs -> length ed = length grid ->
  (2 <= length grid)%nat ->
  exists new,
    normalized_mbis.update_exponents
      (map Some cs) (map Some zs) (map Some ed) (map Some grid) (Some mask)
    = Ok (map Some new)
    /\ length new = length zs
    /\ Forall (fun z => 0 < z) new.
Proof.
  intros _ Hz Hmask He Hs _ _ Hlen Hlen' H2.
  apply Forall_moderate_pos in Hz, He. apply moderate_pos in Hmask.
  exists (map (updated_exponent cs zs mask ed grid) zs).
  assert (Hpos : forall z, z ∈ zs ->
            0 < 2 * normalization z * exponent_integral cs zs mask ed grid z).
  { intros z Hin. rewrite Forall_forall in Hz.
    pose proof (normalization_pos z (Hz z Hin)).
    pose proof (exponent_integral_pos cs zs mask z ed grid
                  Hmask He Hs Hlen' H2).
    apply Rmult_lt_0_compat; lra. }
  split; [| split].
  - rewrite update_exponents_Some by assumption.
    f_equal. rewrite map_map. apply map_ext_in. intros z Hin.
    apply list_elem_of_In in Hin. specialize (Hpos z Hin).
    unfold fdiv, updated_exponent. rewrite Reqb_false by lra. reflexivity.
  - now rewrite length_map.
  - apply Forall_map, Forall_forall. intros z Hin. specialize (Hpos z Hin).
    unfold updated_exponent. apply Rdiv_lt_0_compat; lra.
Qed.

Lemma update_exponents_positive_witness :
  exists new,
    normalized_mbis.update_exponents
      (map Some [1]) (map Some [1]) (map Some [1; 1]) (map Some [0; 1])
      (Some (1 / 10 ^ 6))
    = Ok (map Some new)
    /\ length new = length [1]
    /\ Forall (fun z => 0 < z) new.
Proof.
  apply (update_exponents_positive [1] [1] [1; 1] [0; 1] (1 / 10 ^ 6)).
  - in_range.
  - in_range.
  - in_range.
  - in_range.
  - repeat constructor. lra.
  - constructor; [left; reflexivity |].
    constructor; [| constructor].
    right. rewrite Rabs_R1. in_range.
  - constructor; [| constructor].
    apply Exists_cons_tl, Exists_cons_hd. in_range.
  - reflexivity.
  - reflexivity.
  - simpl. lia.
Defined.

(** ** The iteration *)

Lemma loop_add (a b : nat) (ed grid : list float) (mask : float)
    (st : normalized_mbis.loop_state) :
  normalized_mbis.loop (a + b) ed grid mask st
  = (st' ← normalized_mbis.loop a ed grid mask st;
     normalized_mbis.loop b ed grid mask st').
Proof.
  revert st. induction a as [|a IH]; intros st; [reflexivity |].
  cbn [Nat.add normalized_mbis.loop].
  destruct (normalized_mbis.loop_body ed grid mask st) as [st1 | e];
    step; [apply IH | reflexivity].
Qed.

Lemma iterated_update_succ (j : nat) (cs zs ed grid : list float) (mask : float) :
  iterated_update (j + 1) cs zs ed grid mask
  = (c ← iterated_update j cs zs ed grid mask;
     normalized_mbis.update_coefficients c zs ed grid mask).
Proof.
  revert cs. induction j as [|j IH]; intros cs; cbn [Nat.add iterated_update].
  - step.
    destruct (normalized_mbis.update_coefficients cs zs ed grid mask);
      reflexivity.
  - destruct (normalized_mbis.update_coefficients cs zs ed grid mask) as [c | e];
      step; [apply IH | reflexivity].
Qed.

(** From a state whose two vectors of coefficients are equal, two
    iterations compute the same update twice and leave the two vectors
    equal again. *)
Lemma loop_even (j : nat) (ed grid : list float) (mask : float) :
  forall st st' : normalized_mbis.loop_state,
    normalized_mbis.old_coefficients st = normalized_mbis.new_coefficients st ->
    normalized_mbis.loop (2 * j) ed grid mask st = Ok st' ->
    iterated_update j (normalized_mbis.new_coefficients st)
      (normalized_mbis.exponents st) ed grid mask
    = Ok (normalized_mbis.new_coefficients st')
    /\ normalized_mbis.old_coefficients st' = normalized_mbis.new_coefficients st'
    /\ normalized_mbis.exponents st' = normalized_mbis.exponents st.
Proof.
  induction j as [|j IH]; intros st st' Hsync H.
  - cbn in H. injection H as <-. cbn. auto.
  - replace (2 * S j)%nat with (S (S (2 * j))) in H by lia.
    cbn [normalized_mbis.loop] in H.
    destruct (normalized_mbis.loop_body ed grid mask st) as [st1 | e] eqn:B1;
      step in H; [| discriminate].
    destruct (normalized_mbis.loop_body ed grid mask st1) as [st2 | e] eqn:B2;
      step in H; [| discriminate].
    apply loop_body_inv in B1.
    destruct B1 as (_ & _ & _ & U1 & O1 & X1 & _).
    apply loop_body_inv in B2.
    destruct B2 as (_ & _ & _ & U2 & O2 & X2 & _).
    rewrite O1, X1 in U2. rewrite Hsync in U1.
    assert (E : normalized_mbis.new_coefficients st2
                = normalized_mbis.new_coefficients st1) by congruence.
    destruct (IH st2 st') as (I & S & X); [congruence | assumption |].
    cbn [iterated_update]. rewrite U2. step.
    rewrite X2, X1 in I, X. auto.
Qed.

(** X9.  The loop of [fixed_iteration_MBIS_method] hands each update
    the coefficients of two iterations before, so that every update is
    computed twice: after [2 j] iterations the current coefficients are
    those that [j] successive calls of [update_coefficients] give from
    the initial ones, and after [2 j + 1] iterations those that [j + 1]
    calls give. *)
Theorem fixed_iteration_computes_each_update_twice
    (cs zs ed grid : list float) (mask : float) (j : nat)
    (st : normalized_mbis.loop_state) :
  (normalized_mbis.loop (2 * j) ed grid mask (normalized_mbis.initial_state cs zs)
   = Ok st ->
   iterated_update j cs zs ed grid mask
   = Ok (normalized_mbis.new_coefficients st))
  /\ (normalized_mbis.loop (2 * j + 1) ed grid mask
        (normalized_mbis.initial_state cs zs)
      = Ok st ->
      iterated_update (j + 1) cs zs ed grid mask
      = Ok (normalized_mbis.new_coefficients st)).
Proof.
  split; intros H.
  - apply loop_even in H; [| reflexivity]. apply H.
  - rewrite loop_add in H.
    destruct (normalized_mbis.loop (2 * j) ed grid mask
                (normalized_mbis.initial_state cs zs)) as [st0 | e] eqn:L;
      step in H; [| discriminate].
    apply loop_even in L; [| reflexivity].
    destruct L as (I & S & X). cbn in I, X.
    cbn [normalized_mbis.loop] in H.
    destruct (normalized_mbis.loop_body ed grid mask st0) as [st1 | e] eqn:B;
      step in H; [| discriminate].
    injection H as <-.
    apply loop_body_inv in B. destruct B as (_ & _ & _ & U & _).
    rewrite iterated_update_succ, I. step.
    now rewrite <- S, <- X.
Qed.

Lemma fixed_iteration_computes_each_update_twice_witness :
  exists st,
    normalized_mbis.loop (2 * 1) [Some 1; Some 1] [Some 0; Some 1]
      (Some (1 / 10 ^ 6)) (normalized_mbis.initial_state [Some 1] [Some 1])
    = Ok st
    /\ iterated_update 1 [Some 1] [Some 1] [Some 1; Some 1] [Some 0; Some 1]
         (Some (1 / 10 ^ 6))
       = Ok (normalized_mbis.new_coefficients st).
Proof.
  destruct (loop_total [1] [1; 1] [0; 1] (1 / 10 ^ 6)) with
    (k := 2%nat) (st := normalized_mbis.initial_state [Some 1] [Some 1])
    (old := [1]) (new := [1]) as [st H];
    try reflexivity; try (repeat constructor; lra); try (simpl; lia).
  exists st. split; [exact H |].
  apply (proj1 (fixed_iteration_computes_each_update_twice
                  [Some 1] [Some 1] [Some 1; Some 1] [Some 0; Some 1]
                  (Some (1 / 10 ^ 6)) 1 st)).
  exact H.
Defined.

(** ** The exceptions of the iteration *)

Lemma update_coefficients_raises (cs zs ed grid : list float) (mask : float)
    (e : exn) :
  normalized_mbis.update_coefficients cs zs ed grid mask = Raise e ->
  e = AssertionError.
Proof.
  intros H.
  destruct (forallb fgt0 cs) eqn:F;
    [| unfold normalized_mbis.update_coefficients in H; rewrite F in H;
       cbn in H; congruence].
  destruct (Nat.eqb_spec (length cs) (length zs)) as [L | L];
    [| unfold normalized_mbis.update_coefficients in H; rewrite F in H;
       apply Nat.eqb_neq in L; rewrite L in H; cbn in H; congruence].
  destruct (Nat.eqb_spec (length ed) (length grid)) as [L' | L'];
    [| unfold normalized_mbis.update_coefficients in H; rewrite F in H;
       rewrite L, Nat.eqb_refl in H;
       apply Nat.eqb_neq in L'; rewrite L' in H; cbn in H; congruence].
  destruct (update_coefficients_ok cs zs ed grid mask F L L') as (new & E & _).
  congruence.
Qed.

Lemma loop_body_raises (ed grid : list float) (mask : float)
    (st : normalized_mbis.loop_state) (e : exn) :
  normalized_mbis.loop_body ed grid mask st = Raise e -> e = AssertionError.
Proof.
  intros H.
  destruct (normalized_mbis.update_coefficients
              (normalized_mbis.old_coefficients st)
              (normalized_mbis.exponents st) ed grid mask) as [new | e'] eqn:U.
  - destruct (loop_body_ok ed grid mask st new U) as (st' & E & _).
    congruence.
  - unfold normalized_mbis.loop_body in H. rewrite U in H. step in H.
    injection H as <-. eapply update_coefficients_raises, U.
Qed.

Lemma loop_raises (k : nat) (ed grid : list float) (mask : float) :
  forall (st : normalized_mbis.loop_state) (e : exn),
    normalized_mbis.loop k ed grid mask st = Raise e -> e = AssertionError.
Proof.
  induction k as [|k IH]; intros st e H; [discriminate |].
  cbn [normalized_mbis.loop] in H.
  destruct (normalized_mbis.loop_body ed grid mask st) as [st1 | e'] eqn:B;
    step in H.
  - eapply IH, H.
  - injection H as <-. eapply loop_body_raises, B.
Qed.

(** ** The iteration budget and the ways out of the loop *)

(** Every iteration of a run that reaches its end: the state before
    it and the state after it. *)
Lemma loop_iteration (ed grid : list float) (mask : float) (k : nat) :
  forall (st st' : normalized_mbis.loop_state) (i : nat),
    normalized_mbis.loop k ed grid mask st = Ok st' -> (i < k)%nat ->
    exists a b,
      normalized_mbis.loop i ed grid mask st = Ok a
      /\ normalized_mbis.loop_body ed grid mask a = Ok b
      /\ normalized_mbis.loop (S i) ed grid mask st = Ok b.
Proof.
  induction k as [|k IH]; intros st st' i H Hi; [lia |].
  cbn [normalized_mbis.loop] in H.
  destruct (normalized_mbis.loop_body ed grid mask st) as [st1 | e] eqn:B;
    step in H; [| discriminate].
  destruct i as [|i].
  - exists st, st1. cbn [normalized_mbis.loop]. rewrite B. auto.
  - destruct (IH st1 st' i H ltac:(lia)) as (a & b & La & Ba & Lb).
    exists a, b.
    change (normalized_mbis.loop (S (S i)) ed grid mask st)
      with (x ← normalized_mbis.loop_body ed grid mask st;
            normalized_mbis.loop (S i) ed grid mask x).
    cbn [normalized_mbis.loop]. rewrite B. step. auto.
Qed.

(** A run that does not reach its end stops at the first update whose
    assertion fails. *)
Lemma loop_early_exit (ed grid : list float) (mask : float) (k : nat) :
  forall (st : normalized_mbis.loop_state) (e : exn),
    normalized_mbis.loop k ed grid mask st = Raise e ->
    exists i a,
      (i < k)%nat
      /\ normalized_mbis.loop i ed grid mask st = Ok a
      /\ normalized_mbis.update_coefficients
           (normalized_mbis.old_coefficients a) (normalized_mbis.exponents a)
           ed grid mask
         = Raise AssertionError.
Proof.
  induction k as [|k IH]; intros st e H; [discriminate |].
  cbn [normalized_mbis.loop] in H.
  destruct (normalized_mbis.loop_body ed grid mask st) as [st1 | e'] eqn:B;
    step in H.
  - destruct (IH st1 e H) as (i & a & Hi & La & U).
    exists (S i), a. split; [lia |]. split; [| exact U].
    cbn [normalized_mbis.loop]. rewrite B. exact La.
  - exists 0%nat, st. split; [lia |]. split; [reflexivity |].
    destruct (normalized_mbis.update_coefficients
                (normalized_mbis.old_coefficients st)
                (normalized_mbis.exponents st) ed grid mask) as [new | e'']
      eqn:U.
    + destruct (loop_body_ok ed grid mask st new U) as (st' & E & _).
      congruence.
    + f_equal. eapply update_coefficients_raises, U.
Qed.

(** C10, amended.  A call of [fixed_iteration_MBIS_method] with the
    budget [k] whose loop runs to its end has made [k] iterations,
    each of which has executed the coefficient update once (on the
    older of the two vectors of coefficients of the state, its result
    becoming the current vector), so that the update has been executed
    exactly [k] times; each of the three recorded sequences has length
    [k] and the exponent vector is the one passed in.  There is no
    convergence test: the only other way out of the loop is the
    [AssertionError] of an update, which ends the call at the first
    iteration whose update fails its assertion, before the budget is
    used up. *)
Theorem fixed_iteration_uses_whole_budget
    (globals : normalized_mbis.module_globals)
    (cs zs ed grid : list float) (mask : float) (k : nat) :
  (forall st,
     normalized_mbis.loop k ed grid mask (normalized_mbis.initial_state cs zs)
     = Ok st ->
     (forall i, (i < k)%nat ->
        exists a b,
          normalized_mbis.loop i ed grid mask
            (normalized_mbis.initial_state cs zs) = Ok a
          /\ normalized_mbis.loop (S i) ed grid mask
               (normalized_mbis.initial_state cs zs) = Ok b
          /\ normalized_mbis.counter a = i
          /\ normalized_mbis.update_coefficients
               (normalized_mbis.old_coefficients a) zs ed grid mask
             = Ok (normalized_mbis.new_coefficients b)
          /\ normalized_mbis.counter b = S i)
     /\ normalized_mbis.counter st = k
     /\ history_of_length k (normalized_mbis.error_array st)
     /\ normalized_mbis.exponents st = zs)
  /\ (forall e,
        normalized_mbis.loop k ed grid mask (normalized_mbis.initial_state cs zs)
        = Raise e ->
        e = AssertionError
        /\ normalized_mbis.fixed_iteration_MBIS_method
             globals cs zs ed grid k mask = Raise AssertionError
        /\ exists i a,
             (i < k)%nat
             /\ normalized_mbis.loop i ed grid mask
                  (normalized_mbis.initial_state cs zs) = Ok a
             /\ normalized_mbis.counter a = i
             /\ normalized_mbis.update_coefficients
                  (normalized_mbis.old_coefficients a) zs ed grid mask
                = Raise AssertionError)
  /\ (forall returned history,
        normalized_mbis.fixed_iteration_MBIS_method
          globals cs zs ed grid k mask = Ok (returned, history) ->
        history_of_length k history).
Proof.
  split; [| split].
  - intros st H. split; [| exact (loop_uses_whole_budget _ _ _ _ _ _ _ H)].
    intros i Hi.
    destruct (loop_iteration _ _ _ _ _ _ i H Hi) as (a & b & La & Ba & Lb).
    exists a, b.
    destruct (loop_uses_whole_budget _ _ _ _ _ _ _ La) as (Ca & _ & Xa).
    destruct (loop_uses_whole_budget _ _ _ _ _ _ _ Lb) as (Cb & _ & _).
    apply loop_body_inv in Ba. destruct Ba as (_ & _ & _ & U & _).
    rewrite Xa in U. auto.
  - intros e H.
    assert (E : e = AssertionError) by (eapply loop_raises, H).
    split; [exact E |]. split.
    + unfold normalized_mbis.fixed_iteration_MBIS_method.
      rewrite H, E. reflexivity.
    + destruct (loop_early_exit _ _ _ _ _ _ H) as (i & a & Hi & La & U).
      exists i, a.
      destruct (loop_uses_whole_budget _ _ _ _ _ _ _ La) as (Ca & _ & Xa).
      rewrite Xa in U. auto.
  - unfold normalized_mbis.fixed_iteration_MBIS_method.
    intros returned history H.
    destruct (normalized_mbis.loop k ed grid mask _) as [st|] eqn:El;
      [| discriminate].
    step in H.
    destruct (normalized_mbis.lookup_name (normalized_mbis.coeffs globals));
      [| discriminate].
    step in H.
    destruct (normalized_mbis.lookup_name (normalized_mbis.exps globals));
      [| discriminate].
    step in H. injection H as _ <-.
    apply (loop_uses_whole_budget _ _ _ _ _ _ _ El).
Qed.

Lemma fixed_iteration_uses_whole_budget_witness :
  exists st,
    normalized_mbis.loop 2 [Some 1; Some 1] [Some 0; Some 1] (Some (1 / 10 ^ 6))
      (normalized_mbis.initial_state [Some 1] [Some 1])
    = Ok st
    /\ (forall i, (i < 2)%nat ->
        exists a b,
          normalized_mbis.loop i [Some 1; Some 1] [Some 0; Some 1]
            (Some (1 / 10 ^ 6))
            (normalized_mbis.initial_state [Some 1] [Some 1]) = Ok a
          /\ normalized_mbis.loop (S i) [Some 1; Some 1] [Some 0; Some 1]
               (Some (1 / 10 ^ 6))
               (normalized_mbis.initial_state [Some 1] [Some 1]) = Ok b
          /\ normalized_mbis.counter a = i
          /\ normalized_mbis.update_coefficients
               (normalized_mbis.old_coefficients a) [Some 1]
               [Some 1; Some 1] [Some 0; Some 1] (Some (1 / 10 ^ 6))
             = Ok (normalized_mbis.new_coefficients b)
          /\ normalized_mbis.counter b = S i)
    /\ normalized_mbis.counter st = 2%nat
    /\ history_of_length 2 (normalized_mbis.error_array st)
    /\ normalized_mbis.exponents st = [Some 1].
Proof.
  destruct (loop_total [1] [1; 1] [0; 1] (1 / 10 ^ 6)) with
    (k := 2%nat) (st := normalized_mbis.initial_state [Some 1] [Some 1])
    (old := [1]) (new := [1]) as [st Hst];
    try reflexivity; try (repeat constructor; lra).
  exists st. split; [exact Hst |].
  exact (proj1 (fixed_iteration_uses_whole_budget
                  {| normalized_mbis.coeffs := None;
                     normalized_mbis.exps := None |}
                  [Some 1] [Some 1] [Some 1; Some 1] [Some 0; Some 1]
                  (Some (1 / 10 ^ 6)) 2) st Hst).
Defined.

Lemma updated_coefficient_zero_density (cs zs : list R) (mask : R)
    (ed grid : list R) (c zeta : R) :
  Forall (fun e => e = 0) ed ->
  updated_coefficient cs zs mask ed grid c zeta = 0.
Proof.
  intros He. unfold updated_coefficient.
  rewrite trapezoid_zeros; [ring |].
  apply Forall_zip_with. intros i e r Hi _.
  eapply Forall_lookup_elim in He; [| eassumption]. subst e.
  unfold update_integrand, Rdiv. now rewrite !Rmult_0_l.
Qed.

(** A run on a density that is zero on the grid [0, 1]: the first two
    iterations complete, and the third hands the update the vector of
    zeros that the first returned. *)
Lemma zero_density_run :
  exists st,
    normalized_mbis.loop 2 [Some 0; Some 0] [Some 0; Some 1] (Some (1 / 10 ^ 6))
      (normalized_mbis.initial_state [Some 1] [Some 1])
    = Ok st
    /\ normalized_mbis.exponents st = [Some 1]
    /\ normalized_mbis.update_coefficients
         (normalized_mbis.old_coefficients st) [Some 1]
         [Some 0; Some 0] [Some 0; Some 1] (Some (1 / 10 ^ 6))
       = Raise AssertionError.
Proof.
  pose proof (update_coefficients_Some [1] [1] [0; 0] [0; 1] (1 / 10 ^ 6)) as U.
  cbn [map zip_with] in U.
  rewrite updated_coefficient_zero_density in U by (repeat constructor).
  specialize (U ltac:(repeat constructor; lra) ltac:(repeat constructor; lra)
                eq_refl eq_refl ltac:(simpl; lia)).
  cbn [normalized_mbis.loop].
  destruct (loop_body_ok [Some 0; Some 0] [Some 0; Some 1] (Some (1 / 10 ^ 6))
              (normalized_mbis.initial_state [Some 1] [Some 1]) _ U)
    as (st1 & B1 & O1 & N1 & X1).
  rewrite B1. step. cbn in O1, X1.
  destruct (loop_body_ok [Some 0; Some 0] [Some 0; Some 1] (Some (1 / 10 ^ 6))
              st1 [Some 0]) as (st2 & B2 & O2 & N2 & X2).
  { now rewrite O1, X1. }
  rewrite B2. step. exists st2. split; [reflexivity |].
  split; [congruence |].
  rewrite O2, N1. unfold normalized_mbis.update_coefficients.
  cbn [forallb fgt0]. rewrite Rltb_false by lra. reflexivity.
Qed.

Lemma zero_density_stops (globals : normalized_mbis.module_globals) (n : nat) :
  normalized_mbis.fixed_iteration_MBIS_method globals
    [Some 1] [Some 1] [Some 0; Some 0] [Some 0; Some 1] (2 + S n)
    (Some (1 / 10 ^ 6))
  = Raise AssertionError.
Proof.
  destruct zero_density_run as (st & L & X & U).
  unfold normalized_mbis.fixed_iteration_MBIS_method.
  rewrite loop_add, L. step.
  cbn [normalized_mbis.loop]. unfold normalized_mbis.loop_body.
  rewrite X, U. reflexivity.
Qed.

(** C10 as stated fails: a call with the budget 5 on a density that is
    zero at the two points of the grid [0, 1] stops in its third
    iteration, where the update fails its assertion: the fourth and
    the fifth update are never executed and no sequence is returned. *)
Lemma fixed_iteration_stops_before_budget :
  normalized_mbis.fixed_iteration_MBIS_method
    {| normalized_mbis.coeffs := Some [Some 1];
       normalized_mbis.exps := Some [Some 1] |}
    [Some 1] [Some 1] [Some 0; Some 0] [Some 0; Some 1] 5 (Some (1 / 10 ^ 6))
  = Raise AssertionError
  /\ exists st,
       normalized_mbis.loop 2 [Some 0; Some 0] [Some 0; Some 1]
         (Some (1 / 10 ^ 6))
         (normalized_mbis.initial_state [Some 1] [Some 1])
       = Ok st
       /\ normalized_mbis.counter st = 2%nat
       /\ normalized_mbis.update_coefficients
            (normalized_mbis.old_coefficients st) [Some 1]
            [Some 0; Some 0] [Some 0; Some 1] (Some (1 / 10 ^ 6))
          = Raise AssertionError.
Proof.
  split; [exact (zero_density_stops _ 2) |].
  destruct zero_density_run as (st & L & X & U).
  exists st. split; [exact L |]. split; [| exact U].
  apply (loop_uses_whole_budget _ _ _ _ _ _ _ L).
Qed.

(** X10.  When the module does not bind the names [coeffs] and [exps]
    (the function is called from another module),
    [fixed_iteration_MBIS_method] never returns: it raises [NameError]
    once its loop has completed. *)
Theorem fixed_iteration_needs_module_names
    (globals : normalized_mbis.module_globals)
    (cs zs ed grid : list float) (k : nat) (mask : float) :
  normalized_mbis.coeffs globals = None \/ normalized_mbis.exps globals = None ->
  (forall r,
     normalized_mbis.fixed_iteration_MBIS_method globals cs zs ed grid k mask
     <> Ok r)
  /\ (forall st,
        normalized_mbis.loop k ed grid mask (normalized_mbis.initial_state cs zs)
        = Ok st ->
        normalized_mbis.fixed_iteration_MBIS_method globals cs zs ed grid k mask
        = Raise NameError).
Proof.
  intros Hg. unfold normalized_mbis.fixed_iteration_MBIS_method.
  destruct (normalized_mbis.loop k ed grid mask
              (normalized_mbis.initial_state cs zs)) as [st | e]; step.
  - assert (E : (c ← normalized_mbis.lookup_name (normalized_mbis.coeffs globals);
                 e ← normalized_mbis.lookup_name (normalized_mbis.exps globals);
                 Ok (c, e, normalized_mbis.error_array st))
                = Raise NameError).
    { destruct globals as [[c|] [x|]]; cbn in Hg |- *;
        destruct Hg; try discriminate; reflexivity. }
    rewrite E. split; [discriminate | reflexivity].
  - split; [discriminate | intros st; discriminate].
Qed.

Lemma fixed_iteration_needs_module_names_witness :
  (forall r,
     normalized_mbis.fixed_iteration_MBIS_method
       {| normalized_mbis.coeffs := None; normalized_mbis.exps := None |}
       [Some 1] [Some 1] [Some 1; Some 1] [Some 0; Some 1] 0 (Some (1 / 10 ^ 6))
     <> Ok r)
  /\ (forall st,
        normalized_mbis.loop 0 [Some 1; Some 1] [Some 0; Some 1]
          (Some (1 / 10 ^ 6)) (normalized_mbis.initial_state [Some 1] [Some 1])
        = Ok st ->
        normalized_mbis.fixed_iteration_MBIS_method
          {| normalized_mbis.coeffs := None; normalized_mbis.exps := None |}
          [Some 1] [Some 1] [Some 1; Some 1] [Some 0; Some 1] 0
          (Some (1 / 10 ^ 6))
        = Raise NameError).
Proof.
  apply (fixed_iteration_needs_module_names
           {| normalized_mbis.coeffs := None; normalized_mbis.exps := None |}
           [Some 1] [Some 1] [Some 1; Some 1] [Some 0; Some 1] 0
           (Some (1 / 10 ^ 6))).
  left. reflexivity.
Defined.

(** X11.  Called with one-dimensional arrays of coefficients and of
    exponents, a density of any shape and a grid that is an (N,1)
    column, whatever their lengths and their values,
    [fixed_iteration_MBIS_method] raises no other exception than the
    [AssertionError] of a failed assertion of [update_coefficients]
    and the [NameError] of its [return] statement: the assertions on
    the lengths stop every mismatch that the operations on the arrays
    would meet, and no [ValueError] escapes the function. *)
Theorem fixed_iteration_exceptions
    (globals : normalized_mbis.module_globals)
    (cs zs ed grid : list float) (k : nat) (mask : float) (e : exn) :
  normalized_mbis.fixed_iteration_MBIS_method globals cs zs ed grid k mask
  = Raise e ->
  e = AssertionError \/ e = NameError.
Proof.
  unfold normalized_mbis.fixed_iteration_MBIS_method. intros H.
  destruct (normalized_mbis.loop k ed grid mask
              (normalized_mbis.initial_state cs zs)) as [st | e'] eqn:L;
    step in H.
  - right. destruct globals as [[c|] [x|]]; cbn in H; congruence.
  - left. injection H as <-. eapply loop_raises, L.
Qed.

Lemma fixed_iteration_exceptions_witness :
  normalized_mbis.fixed_iteration_MBIS_method
    {| normalized_mbis.coeffs := Some [Some 1];
       normalized_mbis.exps := Some [Some 1] |}
    [Some 1] [Some 1] [Some 0; Some 0] [Some 0; Some 1] 3 (Some (1 / 10 ^ 6))
  = Raise AssertionError
  /\ (AssertionError = AssertionError \/ AssertionError = NameError).
Proof.
  split; [exact (zero_density_stops _ 0) |].
  apply (fixed_iteration_exceptions
           {| normalized_mbis.coeffs := Some [Some 1];
              normalized_mbis.exps := Some [Some 1] |}
           [Some 1] [Some 1] [Some 0; Some 0] [Some 0; Some 1] 3
           (Some (1 / 10 ^ 6)) AssertionError).
  exact (zero_density_stops _ 0).
Defined.

(** ** A density that vanishes on the grid *)

(** X12.  On a density that is zero at every grid point the first
    update returns coefficients that are all zero, and the assertion
    of [update_coefficients] rejects them when the loop hands them
    back two iterations later: every run of at least three iterations
    raises [AssertionError]. *)
Theorem fixed_iteration_aborts_on_zero_density
    (globals : normalized_mbis.module_globals)
    (cs zs ed grid : list R) (mask : R) (k : nat) :
  Forall (fun c => 0 < c) cs -> Forall (fun z => 0 < z) zs ->
  length cs = length zs -> cs <> [] ->
  Forall (fun e => e = 0) ed -> length ed = length grid ->
  (2 <= length grid)%nat -> (3 <= k)%nat ->
  normalized_mbis.fixed_iteration_MBIS_method globals
    (map Some cs) (map Some zs) (map Some ed) (map Some grid) k (Some mask)
  = Raise AssertionError.
Proof.
  intros Hc Hz Hlen Hne He Hlen' H2 Hk.
  destruct k as [|[|[|k]]]; try lia.
  pose proof (update_coefficients_Some cs zs ed grid mask Hc Hz Hlen Hlen' H2)
    as U.
  unfold normalized_mbis.fixed_iteration_MBIS_method.
  cbn [normalized_mbis.loop].
  destruct (loop_body_ok (map Some ed) (map Some grid) (Some mask)
              (normalized_mbis.initial_state (map Some cs) (map Some zs)) _ U)
    as (st1 & B1 & O1 & N1 & X1).
  rewrite B1. step. cbn in O1, X1.
  destruct (loop_body_ok (map Some ed) (map Some grid) (Some mask) st1
              (map Some (zip_with (updated_coefficient cs zs mask ed grid) cs zs)))
    as (st2 & B2 & O2 & N2 & X2).
  { now rewrite O1, X1. }
  rewrite B2. step.
  assert (B3 : normalized_mbis.loop_body (map Some ed) (map Some grid)
                 (Some mask) st2 = Raise AssertionError).
  { unfold normalized_mbis.loop_body, normalized_mbis.update_coefficients.
    rewrite O2, N1.
    destruct cs as [|c cs]; [contradiction |].
    destruct zs as [|z zs]; [discriminate |].
    cbn [zip_with map forallb].
    rewrite updated_coefficient_zero_density by assumption.
    unfold fgt0 at 1. rewrite Rltb_false by lra. reflexivity. }
  rewrite B3. reflexivity.
Qed.

Lemma fixed_iteration_aborts_on_zero_density_witness :
  normalized_mbis.fixed_iteration_MBIS_method
    {| normalized_mbis.coeffs := Some [Some 1];
       normalized_mbis.exps := Some [Some 1] |}
    (map Some [1]) (map Some [1]) (map Some [0; 0]) (map Some [0; 1]) 3
    (Some (1 / 10 ^ 6))
  = Raise AssertionError.
Proof.
  apply (fixed_iteration_aborts_on_zero_density
           {| normalized_mbis.coeffs := Some [Some 1];
              normalized_mbis.exps := Some [Some 1] |}
           [1] [1] [0; 0] [0; 1] (1 / 10 ^ 6) 3).
  - repeat constructor. lra.
  - repeat constructor. lra.
  - reflexivity.
  - discriminate.
  - repeat constructor.
  - reflexivity.
  - simpl. lia.
  - lia.
Defined.

(** ** The model without normalization *)

(** X13.  [get_gaussian_model] returns, at each grid point [r], the
    sum of the Gaussians [c_i exp(-zeta_i r^2)] without any
    normalization constant; unlike the normalized model it accepts no
    other number of coefficients than the number of exponents, and
    raises [ValueError] otherwise. *)
Theorem get_gaussian_model_closed_form (cs zs grid : list R) :
  (length cs = length zs ->
   normalized_mbis.get_gaussian_model
     (map Some cs) (map Some zs) (map Some grid)
   = Ok (map Some
           (map (fun r =>
                   Rsum (zip_with (fun c z => c * exp (- z * (r * r))) cs zs))
                grid)))
  /\ (length cs <> length zs ->
      normalized_mbis.get_gaussian_model
        (map Some cs) (map Some zs) (map Some grid)
      = Raise ValueError).
Proof.
  unfold normalized_mbis.get_gaussian_model, np_dot. rewrite !length_map.
  split; intros Hlen.
  - rewrite Hlen, Nat.eqb_refl. f_equal.
    rewrite !map_map. apply map_ext. intros r.
    rewrite map_map.
    rewrite (map_ext _ (fun z => Some (exp (- z * (r * r)))))
      by (intros z; apply gaussian_Some).
    rewrite <- (map_map (fun z => exp (- z * (r * r))) Some).
    change fmul with (flift2 Rmult).
    rewrite zip_with_flift2, fsum_Some. f_equal.
    clear Hlen. revert cs.
    induction zs as [|z zs IH]; intros [|c cs]; simpl; try reflexivity.
    rewrite IH. f_equal. ring.
  - replace (length zs =? length cs)%nat with false; [reflexivity |].
    symmetry. apply Nat.eqb_neq. congruence.
Qed.

Lemma get_gaussian_model_closed_form_witness :
  normalized_mbis.get_gaussian_model
    (map Some [1; 2]) (map Some [1; 3]) (map Some [0; 1])
  = Ok (map Some
          (map (fun r =>
                  Rsum (zip_with (fun c z => c * exp (- z * (r * r)))
                          [1; 2] [1; 3]))
               [0; 1])).
Proof.
  apply (proj1 (get_gaussian_model_closed_form [1; 2] [1; 3] [0; 1])).
  reflexivity.
Defined.

(** * Further properties of [bfit/density.py] *)

(** ** The derivative of the Slater orbital *)

Lemma derivable_pt_lim_ext (f g : R -> R) (x l l' : R) :
  (forall y, f y = g y) -> l = l' ->
  derivable_pt_lim f x l -> derivable_pt_lim g x l'.
Proof.
  intros Hfg <- H eps Heps. destruct (H eps Heps) as [delta Hd].
  exists delta. intros h Hh Hlt. rewrite <- !Hfg. now apply Hd.
Qed.

Lemma powerRZ_to_nat (r : R) (m : Z) :
  (0 <= m)%Z -> powerRZ r m = r ^ Z.to_nat m.
Proof. destruct m; intros H; try reflexivity. lia. Qed.

Lemma not_near_zero_neq (r : R) : ~ Rabs r < 1 / 10 ^ 10 -> r <> 0.
Proof.
  intros H ->. apply H. rewrite Rabs_R0.
  apply Rdiv_lt_0_compat; [lra | apply pow_lt; lra].
Qed.

Lemma slater_function_derivative (zeta : R) (n : Z) (r : R) :
  (1 <= n)%Z -> r <> 0 ->
  derivable_pt_lim (slater_function zeta n) r
    (((IZR n - 1) / r - zeta) * slater_function zeta n r).
Proof.
  intros Hn Hr.
  set (m := Z.to_nat (n - 1)).
  set (N := slater_normalization zeta n).
  assert (Hm : IZR n - 1 = INR m).
  { unfold m. rewrite INR_IZR_INZ, Z2Nat.id by lia. now rewrite minus_IZR. }
  assert (Hp : forall y, powerRZ y (n - 1) = y ^ m)
    by (intros y; apply powerRZ_to_nat; lia).
  assert (D1 : derivable_pt_lim (fun y => y ^ m) r (INR m * r ^ pred m))
    by apply derivable_pt_lim_pow.
  assert (D2 : derivable_pt_lim (fun y => - zeta * y) r (- zeta)).
  { apply (derivable_pt_lim_ext (mult_real_fct (- zeta) id) _ r (- zeta * 1));
      [reflexivity | ring |].
    apply derivable_pt_lim_scal, derivable_pt_lim_id. }
  assert (D3 : derivable_pt_lim (fun y => exp (- zeta * y)) r
                 (exp (- zeta * r) * - zeta)).
  { apply (derivable_pt_lim_comp (fun y => - zeta * y) exp r);
      [exact D2 | apply derivable_pt_lim_exp]. }
  pose proof (derivable_pt_lim_mult _ _ r _ _ D1 D3) as D4.
  pose proof (derivable_pt_lim_scal _ N r _ D4) as D5.
  eapply derivable_pt_lim_ext; [| | exact D5].
  - intros y. unfold mult_real_fct, mult_fct, slater_function.
    fold N. rewrite Hp. ring.
  - unfold slater_function. fold N. rewrite Hp, Hm.
    destruct m as [|m'].
    + simpl. unfold Rdiv. ring.
    + cbn [pred]. rewrite <- tech_pow_Rmult. field. exact Hr.
Qed.

(** X14.  Away from the origin the entries that
    [derivative_slater_type_orbital] returns are derivatives indeed:
    the entry of the point [r] and of the basis function [(zeta, n)] is
    the derivative at [r] of the function [N r^(n-1) exp(-zeta r)]
    whose value at [r] is the entry of [slater_orbital]. *)
Theorem derivative_slater_type_orbital_is_derivative
    (exponent : list R) (number : list Z) (points : list R) :
  Forall (fun z => 0 < z) exponent -> Forall (fun n => (1 <= n)%Z) number ->
  length exponent = length number ->
  exists S D,
    SlaterAtoms.slater_orbital (map Some exponent) number
      (SlaterAtoms.Points1 (map Some points)) = Ok S
    /\ SlaterAtoms.derivative_slater_type_orbital (map Some exponent) number
         (SlaterAtoms.Points1 (map Some points)) = Ok D
    /\ forall (j i : nat) (r zeta : R) (n : Z),
         points !! j = Some r -> exponent !! i = Some zeta ->
         number !! i = Some n -> ~ Rabs r < 1 / 10 ^ 10 ->
         exists (d : R) (srow drow : list float),
           rows S !! j = Some srow
           /\ srow !! i = Some (Some (slater_function zeta n r))
           /\ rows D !! j = Some drow
           /\ drow !! i = Some (Some d)
           /\ derivable_pt_lim (slater_function zeta n) r d.
Proof.
  intros Hz Hn Hlen.
  eexists. eexists.
  split; [now apply slater_orbital_Some |].
  split; [now apply derivative_slater_type_orbital_Some |].
  intros j i r zeta n Hj Hi Hi' Hr. cbn [rows].
  exists (slater_derivative zeta n r).
  eexists. eexists.
  split; [rewrite list_lookup_fmap, Hj; reflexivity |].
  split; [rewrite list_lookup_fmap, lookup_zip_with, Hi, Hi'; reflexivity |].
  split; [rewrite list_lookup_fmap, Hj; reflexivity |].
  split; [rewrite list_lookup_fmap, lookup_zip_with, Hi, Hi'; reflexivity |].
  unfold slater_derivative. rewrite Rltb_false by lra.
  apply slater_function_derivative.
  - eapply Forall_lookup_elim in Hn; eassumption.
  - now apply not_near_zero_neq.
Qed.

Lemma derivative_slater_type_orbital_is_derivative_witness :
  exists S D,
    SlaterAtoms.slater_orbital (map Some [1; 2]) [1%Z; 2%Z]
      (SlaterAtoms.Points1 (map Some [0; 1])) = Ok S
    /\ SlaterAtoms.derivative_slater_type_orbital (map Some [1; 2]) [1%Z; 2%Z]
         (SlaterAtoms.Points1 (map Some [0; 1])) = Ok D
    /\ forall (j i : nat) (r zeta : R) (n : Z),
         [0; 1] !! j = Some r -> [1; 2] !! i = Some zeta ->
         [1%Z; 2%Z] !! i = Some n -> ~ Rabs r < 1 / 10 ^ 10 ->
         exists (d : R) (srow drow : list float),
           rows S !! j = Some srow
           /\ srow !! i = Some (Some (slater_function zeta n r))
           /\ rows D !! j = Some drow
           /\ drow !! i = Some (Some d)
           /\ derivable_pt_lim (slater_function zeta n) r d.
Proof.
  apply (derivative_slater_type_orbital_is_derivative [1; 2] [1%Z; 2%Z] [0; 1]).
  - repeat constructor; lra.
  - repeat constructor; lia.
  - reflexivity.
Defined.

(** ** The orbitals of an atom whose data are complete *)

Lemma dict_get_Some {V : Type} (d : gmap string V) (key : string) (v : V) :
  d !! key = Some v -> SlaterAtoms.dict_get d key = Ok v.
Proof. unfold SlaterAtoms.dict_get. now intros ->. Qed.

Lemma dict_get_None {V : Type} (d : gmap string V) (key : string) :
  d !! key = None -> SlaterAtoms.dict_get d key = Raise KeyError.
Proof. unfold SlaterAtoms.dict_get. now intros ->. Qed.

Lemma phi_column_Some (self : SlaterAtoms.t) (orbital : string) (b : basis)
    (deriv : bool) (rs : list R) :
  has_basis self orbital b ->
  SlaterAtoms.phi_column self (SlaterAtoms.Points1 (map Some rs)) deriv orbital
  = Ok (map Some (map (if deriv then radial_derivative b else radial b) rs)).
Proof.
  intros (key & K & E & Nn & C & Hz & Hn & L1 & L2).
  unfold SlaterAtoms.phi_column.
  rewrite K. step.
  rewrite (dict_get_Some (V := list float) _ _ _ E). step.
  rewrite (dict_get_Some _ _ _ Nn). step.
  destruct deriv.
  - rewrite derivative_slater_type_orbital_Some by assumption.
    step. rewrite (dict_get_Some (V := list float) _ _ _ C). step.
    unfold np_dot. cbn [ncols rows]. rewrite length_map, L2, Nat.eqb_refl.
    f_equal. rewrite !map_map. apply map_ext. intros r.
    change fmul with (flift2 Rmult). now rewrite zip_with_flift2, fsum_Some.
  - rewrite slater_orbital_Some by assumption.
    step. rewrite (dict_get_Some (V := list float) _ _ _ C). step.
    unfold np_dot. cbn [ncols rows]. rewrite length_map, L2, Nat.eqb_refl.
    f_equal. rewrite !map_map. apply map_ext. intros r.
    change fmul with (flift2 Rmult). now rewrite zip_with_flift2, fsum_Some.
Qed.

Lemma phi_columns_Some (self : SlaterAtoms.t) (orbs : list string)
    (bs : list basis) (deriv : bool) (rs : list R) :
  Forall2 (has_basis self) orbs bs ->
  SlaterAtoms.phi_columns self (SlaterAtoms.Points1 (map Some rs)) deriv orbs
  = Ok (map (fun b =>
               map Some
                 (map (if deriv then radial_derivative b else radial b) rs))
            bs).
Proof.
  induction 1 as [|orbital b orbs bs Hb _ IH]; [reflexivity |].
  cbn [SlaterAtoms.phi_columns map].
  rewrite (phi_column_Some self orbital b deriv rs Hb). step.
  rewrite IH. reflexivity.
Qed.

Lemma map_seq_lookup {A B : Type} (h : nat -> B) (k : A -> B) (l : list A) :
  (forall j a, l !! j = Some a -> h j = k a) ->
  map h (seq 0 (length l)) = map k l.
Proof.
  revert h. induction l as [|a l IH]; intros h H; [reflexivity |].
  cbn [length seq map]. rewrite (H 0%nat a eq_refl). f_equal.
  rewrite <- seq_shift, map_map. apply IH.
  intros j a' Hj. apply (H (S j) a' Hj).
Qed.

Lemma phi_matrix_Some (self : SlaterAtoms.t) (bs : list basis) (deriv : bool)
    (rs : list R) :
  Forall2 (has_basis self) (SlaterAtoms.orbitals self) bs ->
  SlaterAtoms.phi_matrix self (SlaterAtoms.Points1 (map Some rs)) deriv
  = Ok {| ncols := length (SlaterAtoms.orbitals self);
          rows := map (fun r =>
                    map (fun b =>
                           Some ((if deriv then radial_derivative b
                                  else radial b) r))
                        bs)
                    rs |}.
Proof.
  intros H. unfold SlaterAtoms.phi_matrix.
  rewrite (phi_columns_Some self _ bs deriv rs H). step.
  do 2 f_equal. cbn [SlaterAtoms.len]. rewrite length_map.
  apply map_seq_lookup. intros j r Hj.
  rewrite map_map. apply map_ext. intros b.
  rewrite nth_lookup, !list_lookup_fmap, Hj. reflexivity.
Qed.

Lemma hydrogen_has_basis :
  Forall2 (has_basis hydrogen) (SlaterAtoms.orbitals hydrogen) [hydrogen_basis].
Proof.
  repeat constructor. exists "S".
  split; [reflexivity |].
  split; [apply lookup_singleton_eq |].
  split; [apply lookup_singleton_eq |].
  split; [apply lookup_singleton_eq |].
  split; [repeat constructor; simpl; lra |].
  split; [repeat constructor; simpl; lia |].
  split; reflexivity.
Qed.

(** X15.  For an atom whose dictionaries hold a complete basis for
    each of its orbitals, [phi_matrix] returns one row for each point
    and one column for each orbital; its entry at the point [r] in the
    column of an orbital is the linear combination of the Slater
    functions of the orbital (of their derivatives when [deriv] is
    set) at [r], weighted by the coefficients of the orbital. *)
Theorem phi_matrix_linear_combinations
    (self : SlaterAtoms.t) (bs : list basis) (deriv : bool) (rs : list R) :
  Forall2 (has_basis self) (SlaterAtoms.orbitals self) bs ->
  exists phi,
    SlaterAtoms.phi_matrix self (SlaterAtoms.Points1 (map Some rs)) deriv
    = Ok phi
    /\ length (rows phi) = length rs
    /\ ncols phi = length (SlaterAtoms.orbitals self)
    /\ forall (j k : nat) (r : R) (b : basis),
         rs !! j = Some r -> bs !! k = Some b ->
         exists row,
           rows phi !! j = Some row
           /\ length row = length (SlaterAtoms.orbitals self)
           /\ row !! k
              = Some (Some
                  (Rsum
                     (zip_with Rmult
                        (zip_with
                           (fun z n =>
                              if deriv then slater_derivative z n r
                              else slater_function z n r)
                           (b_exps b) (b_numbers b))
                        (b_coeffs b)))).
Proof.
  intros H. eexists.
  split; [apply (phi_matrix_Some self bs deriv rs H) |].
  cbn [rows ncols].
  split; [now rewrite length_map |].
  split; [reflexivity |].
  intros j k r b Hj Hk. eexists.
  split; [rewrite list_lookup_fmap, Hj; reflexivity |].
  split; [rewrite length_map; symmetry; eapply Forall2_length, H |].
  rewrite list_lookup_fmap, Hk. cbn [fmap option_fmap option_map].
  destruct deriv; reflexivity.
Qed.

Lemma phi_matrix_linear_combinations_witness :
  exists phi,
    SlaterAtoms.phi_matrix hydrogen (SlaterAtoms.Points1 (map Some [0; 1])) true
    = Ok phi
    /\ length (rows phi) = length [0; 1]
    /\ ncols phi = length (SlaterAtoms.orbitals hydrogen)
    /\ forall (j k : nat) (r : R) (b : basis),
         [0; 1] !! j = Some r -> [hydrogen_basis] !! k = Some b ->
         exists row,
           rows phi !! j = Some row
           /\ length row = length (SlaterAtoms.orbitals hydrogen)
           /\ row !! k
              = Some (Some
                  (Rsum
                     (zip_with Rmult
                        (zip_with
                           (fun z n =>
                              if true then slater_derivative z n r
                              else slater_function z n r)
                           (b_exps b) (b_numbers b))
                        (b_coeffs b)))).
Proof.
  apply (phi_matrix_linear_combinations hydrogen [hydrogen_basis] true [0; 1]).
  apply hydrogen_has_basis.
Defined.

Lemma map_fsquare_radial (bs : list basis) (f : basis -> R) :
  map fsquare (map (fun b => Some (f b)) bs)
  = map Some (map (fun b => f b * f b) bs).
Proof. rewrite !map_map. apply map_ext. intros b. apply fsquare_Some. Qed.

Lemma zip_with_map_fst {A B C D : Type} (h : B -> C -> D) (f : A -> B)
    (xs : list A) (ys : list C) :
  zip_with h (map f xs) ys = zip_with (fun x y => h (f x) y) xs ys.
Proof.
  revert ys. induction xs as [|x xs IH]; intros [|y ys]; simpl;
    try reflexivity.
  now rewrite IH.
Qed.

Lemma four_PI_neq_0 : 4 * PI <> 0.
Proof. pose proof PI_RGT_0. lra. Qed.

Lemma atomic_density_total_Some
    (self : SlaterAtoms.t) (bs : list basis) (occ rs : list R) :
  Forall2 (has_basis self) (SlaterAtoms.orbitals self) bs ->
  SlaterAtoms.orbitals_occupation self = map Some occ ->
  length occ = length bs ->
  SlaterAtoms.atomic_density self (SlaterAtoms.Points1 (map Some rs)) "total"
  = Ok (map Some (map (total_density bs occ) rs)).
Proof.
  intros H Ho Hlen.
  rewrite (atomic_density_with self _ "total" _ (map Some occ)
             ltac:(set_solver)
             ltac:(rewrite <- Ho; apply mode_occupations_total)
             (phi_matrix_Some self bs false rs H))
    by (rewrite length_map, Hlen; symmetry; eapply Forall2_length, H).
  f_equal. cbn [rows]. rewrite !map_map. apply map_ext. intros r.
  rewrite map_fsquare_radial.
  change fmul with (flift2 Rmult).
  rewrite zip_with_flift2, fsum_Some, fdiv_Some by apply four_PI_neq_0.
  unfold total_density. now rewrite zip_with_map_fst.
Qed.

(** X16.  For such an atom with finite occupation numbers, the total
    density that [atomic_density] returns at the point [r] is the sum
    over the orbitals of the occupation number times the square of the
    radial part of the orbital at [r], divided by [4 pi]. *)
Theorem atomic_density_total_closed_form
    (self : SlaterAtoms.t) (bs : list basis) (occ rs : list R) :
  Forall2 (has_basis self) (SlaterAtoms.orbitals self) bs ->
  SlaterAtoms.orbitals_occupation self = map Some occ ->
  length occ = length bs ->
  SlaterAtoms.atomic_density self (SlaterAtoms.Points1 (map Some rs)) "total"
  = Ok (map Some
          (map (fun r =>
                  Rsum (zip_with (fun b n => radial b r * radial b r * n) bs occ)
                  / (4 * PI))
               rs)).
Proof.
  intros H Ho Hlen.
  assert (Hocc : SlaterAtoms.mode_occupations self "total" = Ok (map Some occ))
    by (rewrite <- Ho; apply mode_occupations_total).
  assert (Hk : length (map Some occ) = length (SlaterAtoms.orbitals self))
    by (rewrite length_map, Hlen; symmetry; eapply Forall2_length, H).
  rewrite (atomic_density_with self _ "total" _ (map Some occ)
             ltac:(constructor) Hocc (phi_matrix_Some self bs false rs H) Hk).
  f_equal. cbn [rows]. rewrite !map_map. apply map_ext. intros r.
  rewrite map_fsquare_radial.
  change fmul with (flift2 Rmult).
  rewrite zip_with_flift2, fsum_Some, fdiv_Some by apply four_PI_neq_0.
  now rewrite zip_with_map_fst.
Qed.

Lemma atomic_density_total_closed_form_witness :
  SlaterAtoms.atomic_density hydrogen (SlaterAtoms.Points1 (map Some [0; 1]))
    "total"
  = Ok (map Some
          (map (fun r =>
                  Rsum (zip_with (fun b n => radial b r * radial b r * n)
                          [hydrogen_basis] [1])
                  / (4 * PI))
               [0; 1])).
Proof.
  apply (atomic_density_total_closed_form hydrogen [hydrogen_basis] [1] [0; 1]).
  - apply hydrogen_has_basis.
  - reflexivity.
  - reflexivity.
Defined.

(** ** The derivative of the density *)

Lemma derivative_density_Some (self : SlaterAtoms.t) (bs : list basis)
    (occ rs : list R) :
  Forall2 (has_basis self) (SlaterAtoms.orbitals self) bs ->
  SlaterAtoms.orbitals_occupation self = map Some occ ->
  length occ = length bs ->
  SlaterAtoms.derivative_density self (SlaterAtoms.Points1 (map Some rs))
  = Ok (map Some (map (total_density_derivative bs occ) rs)).
Proof.
  intros H Ho Hlen. unfold SlaterAtoms.derivative_density.
  rewrite (phi_matrix_Some self bs false rs H). step.
  rewrite (phi_matrix_Some self bs true rs H). step.
  unfold np_broadcast_matrix. cbn [ncols rows].
  rewrite broadcastable_refl, broadcast_length_same. step.
  cbn [ncols rows]. unfold np_dot.
  rewrite Ho, length_map, Hlen, (Forall2_length _ _ _ H), Nat.eqb_refl. step.
  f_equal. rewrite zip_with_map_same, !map_map. apply map_ext. intros r.
  rewrite broadcast_with_same_length by now rewrite !length_map.
  rewrite zip_with_map_same, map_map.
  cbn [fmul flift2].
  rewrite <- (map_map (fun b => 2 * (radial b r * radial_derivative b r)) Some).
  change fmul with (flift2 Rmult).
  rewrite zip_with_flift2, fsum_Some, fdiv_Some by apply four_PI_neq_0.
  unfold total_density_derivative. now rewrite zip_with_map_fst.
Qed.

Lemma slater_derivative_near_zero (zeta : R) (n : Z) (r : R) :
  Rabs r < 1 / 10 ^ 10 -> slater_derivative zeta n r = 0.
Proof. intros H. unfold slater_derivative. now rewrite Rltb_true. Qed.

Lemma slater_derivative_derivable (zeta : R) (n : Z) (r : R) :
  (1 <= n)%Z -> ~ Rabs r < 1 / 10 ^ 10 ->
  derivable_pt_lim (slater_function zeta n) r (slater_derivative zeta n r).
Proof.
  intros Hn Hr. unfold slater_derivative. rewrite Rltb_false by assumption.
  apply slater_function_derivative; [assumption | now apply not_near_zero_neq].
Qed.

Lemma radial_derivative_near_zero (b : basis) (r : R) :
  Rabs r < 1 / 10 ^ 10 -> radial_derivative b r = 0.
Proof.
  intros Hr. unfold radial_derivative.
  generalize (b_numbers b) (b_coeffs b).
  induction (b_exps b) as [|z es IH]; intros [|n ns] [|c cs];
    cbn [zip_with Rsum fold_right]; try reflexivity.
  change (fold_right Rplus 0) with Rsum.
  rewrite IH, slater_derivative_near_zero by assumption. ring.
Qed.

Lemma radial_derivable (b : basis) (r : R) :
  Forall (fun n => (1 <= n)%Z) (b_numbers b) -> ~ Rabs r < 1 / 10 ^ 10 ->
  derivable_pt_lim (radial b) r (radial_derivative b r).
Proof.
  intros Hn Hr. unfold radial, radial_derivative.
  revert Hn. generalize (b_numbers b) (b_coeffs b).
  induction (b_exps b) as [|z es IH]; intros ns cs Hn.
  - apply (derivable_pt_lim_ext (fct_cte 0) _ r 0);
      [reflexivity | reflexivity | apply derivable_pt_lim_const].
  - destruct ns as [|n ns];
      [apply (derivable_pt_lim_ext (fct_cte 0) _ r 0);
         [reflexivity | reflexivity | apply derivable_pt_lim_const] |].
    destruct cs as [|c cs];
      [apply (derivable_pt_lim_ext (fct_cte 0) _ r 0);
         [reflexivity | reflexivity | apply derivable_pt_lim_const] |].
    inversion Hn as [|? ? Hn0 Hn']; subst.
    cbn [zip_with Rsum fold_right]. change (fold_right Rplus 0) with Rsum.
    eapply derivable_pt_lim_ext;
      [| | apply derivable_pt_lim_plus;
             [apply (derivable_pt_lim_scal (slater_function z n) c r),
                (slater_derivative_derivable z n r Hn0 Hr)
             | apply (IH ns cs Hn')]].
    + intros y. unfold plus_fct, mult_real_fct. cbn beta. ring.
    + ring.
Qed.

Lemma total_density_derivable (bs : list basis) (occ : list R) (r : R) :
  Forall (fun b => Forall (fun n => (1 <= n)%Z) (b_numbers b)) bs ->
  ~ Rabs r < 1 / 10 ^ 10 ->
  derivable_pt_lim (total_density bs occ) r (total_density_derivative bs occ r).
Proof.
  intros Hb Hr. unfold total_density, total_density_derivative.
  assert (D : derivable_pt_lim
                (fun x =>
                   Rsum (zip_with (fun b n => radial b x * radial b x * n)
                           bs occ))
                r
                (Rsum (zip_with
                         (fun b n =>
                            2 * (radial b r * radial_derivative b r) * n)
                         bs occ))).
  { revert occ. induction Hb as [|b bs Hb0 _ IH]; intros occ.
    - apply (derivable_pt_lim_ext (fct_cte 0) _ r 0);
        [reflexivity | reflexivity | apply derivable_pt_lim_const].
    - destruct occ as [|n occ];
        [apply (derivable_pt_lim_ext (fct_cte 0) _ r 0);
           [reflexivity | reflexivity | apply derivable_pt_lim_const] |].
      cbn [zip_with Rsum fold_right]. change (fold_right Rplus 0) with Rsum.
      pose proof (radial_derivable b r Hb0 Hr) as Dr.
      eapply derivable_pt_lim_ext;
        [| | apply derivable_pt_lim_plus;
               [apply (derivable_pt_lim_scal
                         (mult_fct (radial b) (radial b)) n r),
                  (derivable_pt_lim_mult _ _ r _ _ Dr Dr)
               | apply (IH occ)]].
      + intros y. unfold plus_fct, mult_real_fct, mult_fct. cbn beta. ring.
      + ring. }
  eapply derivable_pt_lim_ext;
    [| | apply (derivable_pt_lim_scal _ (/ (4 * PI)) r _ D)].
  - intros y. unfold mult_real_fct. cbn beta. unfold Rdiv. ring.
  - unfold Rdiv. ring.
Qed.

Lemma has_basis_numbers (self : SlaterAtoms.t) (orbs : list string)
    (bs : list basis) :
  Forall2 (has_basis self) orbs bs ->
  Forall (fun b => Forall (fun n => (1 <= n)%Z) (b_numbers b)) bs.
Proof.
  induction 1 as [|orbital b orbs bs Hb _ IH]; constructor; [| assumption].
  destruct Hb as (key & _ & _ & _ & _ & _ & Hn & _). exact Hn.
Qed.

Lemma total_density_derivative_near_zero (bs : list basis) (occ : list R)
    (r : R) :
  Rabs r < 1 / 10 ^ 10 -> total_density_derivative bs occ r = 0.
Proof.
  intros Hr. unfold total_density_derivative.
  replace (Rsum (zip_with
                   (fun b n => 2 * (radial b r * radial_derivative b r) * n)
                   bs occ))
    with 0; [unfold Rdiv; ring |].
  revert occ. induction bs as [|b bs IH]; intros [|n occ];
    cbn [zip_with Rsum fold_right]; try reflexivity.
  change (fold_right Rplus 0) with Rsum.
  rewrite <- IH, radial_derivative_near_zero by assumption. ring.
Qed.

(** X17.  For an atom whose data are complete, with finite occupation
    numbers, [derivative_density] returns the derivative of the total
    density of [atomic_density]: the total density at each point is the
    value there of the function [total_density], and at each point [r]
    that is not within [1e-10] of the origin the value that
    [derivative_density] returns is the derivative of that function at
    [r]; within [1e-10] of the origin it returns 0. *)
Theorem derivative_density_is_derivative
    (self : SlaterAtoms.t) (bs : list basis) (occ rs : list R) :
  Forall2 (has_basis self) (SlaterAtoms.orbitals self) bs ->
  SlaterAtoms.orbitals_occupation self = map Some occ ->
  length occ = length bs ->
  exists deriv : list R,
    SlaterAtoms.atomic_density self (SlaterAtoms.Points1 (map Some rs)) "total"
    = Ok (map Some (map (total_density bs occ) rs))
    /\ SlaterAtoms.derivative_density self (SlaterAtoms.Points1 (map Some rs))
       = Ok (map Some deriv)
    /\ length deriv = length rs
    /\ forall (j : nat) (r : R),
         rs !! j = Some r ->
         exists d,
           deriv !! j = Some d
           /\ (Rabs r < 1 / 10 ^ 10 -> d = 0)
           /\ (~ Rabs r < 1 / 10 ^ 10 ->
               derivable_pt_lim (total_density bs occ) r d).
Proof.
  intros H Ho Hlen.
  exists (map (total_density_derivative bs occ) rs).
  split; [now apply atomic_density_total_Some |].
  split; [now apply derivative_density_Some |].
  split; [now rewrite length_map |].
  intros j r Hj. exists (total_density_derivative bs occ r).
  split; [rewrite list_lookup_fmap, Hj; reflexivity |].
  split.
  - apply total_density_derivative_near_zero.
  - apply total_density_derivable. eapply has_basis_numbers, H.
Qed.

Lemma derivative_density_is_derivative_witness :
  exists deriv : list R,
    SlaterAtoms.atomic_density hydrogen
      (SlaterAtoms.Points1 (map Some [0; 1])) "total"
    = Ok (map Some (map (total_density [hydrogen_basis] [1]) [0; 1]))
    /\ SlaterAtoms.derivative_density hydrogen
         (SlaterAtoms.Points1 (map Some [0; 1]))
       = Ok (map Some deriv)
    /\ length deriv = length [0; 1]
    /\ forall (j : nat) (r : R),
         [0; 1] !! j = Some r ->
         exists d,
           deriv !! j = Some d
           /\ (Rabs r < 1 / 10 ^ 10 -> d = 0)
           /\ (~ Rabs r < 1 / 10 ^ 10 ->
               derivable_pt_lim (total_density [hydrogen_basis] [1]) r d).
Proof.
  apply (derivative_density_is_derivative hydrogen [hydrogen_basis] [1] [0; 1]).
  - apply hydrogen_has_basis.
  - reflexivity.
  - reflexivity.
Defined.

(** ** The density is not negative *)

Lemma fmul_not_negative (x y : float) :
  not_negative x -> not_negative y -> not_negative (fmul x y).
Proof.
  intros Hx Hy v. destruct x as [a|], y as [b|]; try discriminate.
  intros [= <-]. apply Rmult_le_pos; [now apply Hx | now apply Hy].
Qed.

Lemma fsum_not_negative (l : list float) :
  Forall not_negative l -> not_negative (fsum l).
Proof.
  induction 1 as [|x l Hx _ IH]; [intros v [= <-]; lra |].
  rewrite fsum_cons. intros v.
  destruct x as [a|], (fsum l) as [b|]; try discriminate.
  intros [= <-]. specialize (Hx a eq_refl). specialize (IH b eq_refl). lra.
Qed.

Lemma fsquare_not_negative (x : float) : not_negative (fsquare x).
Proof.
  destruct x as [a|]; [| discriminate].
  rewrite fsquare_Some. intros v [= <-]. nra.
Qed.

Lemma valence_weight_not_negative (e h : float) :
  not_negative (fexp (fopp (fsquare (fsub e h)))).
Proof.
  destruct e as [a|], h as [b|]; try discriminate.
  cbn [fsub flift2]. rewrite fsquare_Some.
  intros v [= <-]. apply Rlt_le, exp_pos.
Qed.

Lemma core_weight_not_negative (e h : float) :
  not_negative (fsub (Some 1) (fexp (fopp (fsquare (fsub e h))))).
Proof.
  destruct e as [a|], h as [b|]; try discriminate.
  cbn [fsub flift2]. rewrite fsquare_Some.
  intros v [= <-].
  assert (exp (- ((a - b) * (a - b))) <= 1).
  { rewrite <- exp_0. destruct (Req_dec_T ((a - b) * (a - b)) 0) as [-> | E].
    - rewrite Ropp_0. lra.
    - apply Rlt_le, exp_increasing.
      pose proof (Rle_0_sqr (a - b)) as Hsq. unfold Rsqr in Hsq. lra. }
  lra.
Qed.

Lemma Forall_broadcast_with {A B C : Type} (P : A -> Prop) (Q : B -> Prop)
    (T : C -> Prop) (f : A -> B -> C) (xs : list A) (ys : list B) :
  (forall x y, P x -> Q y -> T (f x y)) ->
  Forall P xs -> Forall Q ys -> Forall T (broadcast_with f xs ys).
Proof.
  intros Hf Hx Hy.
  assert (Hz : Forall T (zip_with f xs ys)).
  { apply Forall_zip_with. intros i x y Hi Hi'.
    apply Hf; eapply Forall_lookup_elim; eassumption. }
  unfold broadcast_with.
  destruct xs as [|x [|x' xs]].
  - destruct ys as [|y [|y' ys]]; constructor.
  - inversion Hx; subst. apply Forall_map.
    eapply Forall_impl; [exact Hy |]. intros y HQ. now apply Hf.
  - destruct ys as [|y [|y' ys]]; try exact Hz.
    inversion Hy; subst. apply Forall_map.
    eapply Forall_impl; [exact Hx |]. intros a HP. now apply Hf.
Qed.

Lemma mode_occupations_not_negative (self : SlaterAtoms.t) (mode : string)
    (occs : list float) :
  Forall not_negative (SlaterAtoms.orbitals_occupation self) ->
  SlaterAtoms.mode_occupations self mode = Ok occs ->
  Forall not_negative occs.
Proof.
  intros Ho H. unfold SlaterAtoms.mode_occupations in H.
  destruct (decide (mode = "valence")); [| destruct (decide (mode = "core"))].
  - destruct (SlaterAtoms.py_getitem _ _) as [h | err]; step in H;
      [| discriminate].
    unfold np_broadcast in H.
    destruct (broadcastable _ _); [| discriminate].
    injection H as <-.
    apply (Forall_broadcast_with not_negative not_negative);
      [apply fmul_not_negative | assumption |].
    apply Forall_map, Forall_forall. intros x _.
    apply valence_weight_not_negative.
  - destruct (SlaterAtoms.py_getitem _ _) as [h | err]; step in H;
      [| discriminate].
    unfold np_broadcast in H.
    destruct (broadcastable _ _); [| discriminate].
    injection H as <-.
    apply (Forall_broadcast_with not_negative not_negative);
      [apply fmul_not_negative | assumption |].
    apply Forall_map, Forall_forall. intros x _.
    apply core_weight_not_negative.
  - injection H as <-. assumption.
Qed.

(** X18.  When no occupation number is negative, no value of the
    density that [atomic_density] returns is negative, in any of the
    three modes and whatever the data of the atom and the points: each
    value is a number that is at least zero, or is not finite. *)
Theorem atomic_density_not_negative
    (self : SlaterAtoms.t) (points : SlaterAtoms.points_array) (mode : string)
    (dens : list float) :
  Forall not_negative (SlaterAtoms.orbitals_occupation self) ->
  SlaterAtoms.atomic_density self points mode = Ok dens ->
  Forall not_negative dens.
Proof.
  intros Ho H. unfold SlaterAtoms.atomic_density in H.
  destruct (negb _); [discriminate |].
  destruct (SlaterAtoms.mode_occupations self mode) as [occs | e] eqn:M;
    step in H; [| discriminate].
  destruct (SlaterAtoms.phi_matrix self points false) as [phi | e];
    step in H; [| discriminate].
  unfold np_dot in H. destruct (_ =? _)%nat; step in H; [| discriminate].
  injection H as <-.
  pose proof (mode_occupations_not_negative self mode occs Ho M) as Hoccs.
  apply Forall_map, Forall_map, Forall_map, Forall_forall. intros row _.
  pose proof PI_RGT_0.
  assert (Hs : not_negative (fsum (zip_with fmul (map fsquare row) occs))).
  { apply fsum_not_negative, Forall_zip_with. intros i x y Hi Hi'.
    apply fmul_not_negative.
    - rewrite list_lookup_fmap in Hi.
      destruct (row !! i); [| discriminate].
      injection Hi as <-. apply fsquare_not_negative.
    - eapply Forall_lookup_elim; eassumption. }
  intros v. destruct (fsum _) as [s|]; [| discriminate].
  unfold fdiv. destruct (Reqb _ _); [discriminate |].
  intros [= <-]. specialize (Hs s eq_refl).
  apply Rmult_le_pos; [assumption |].
  apply Rlt_le, Rinv_0_lt_compat. lra.
Qed.

Lemma atomic_density_not_negative_witness :
  exists dens,
    SlaterAtoms.atomic_density hydrogen
      (SlaterAtoms.Points1 (map Some [0; 1])) "total" = Ok dens
    /\ Forall not_negative dens.
Proof.
  eexists. split.
  - apply (atomic_density_total_Some hydrogen [hydrogen_basis] [1] [0; 1]);
      [apply hydrogen_has_basis | reflexivity | reflexivity].
  - apply (atomic_density_not_negative hydrogen
             (SlaterAtoms.Points1 (map Some [0; 1])) "total").
    + constructor; [intros v [= <-]; lra | constructor].
    + apply (atomic_density_total_Some hydrogen [hydrogen_basis] [1] [0; 1]);
        [apply hydrogen_has_basis | reflexivity | reflexivity].
Defined.

(** ** Arguments that the methods reject *)

Lemma phi_column_not_1d (self : SlaterAtoms.t) (orbital : string) (b : basis)
    (r : list (list float)) (deriv : bool) :
  has_basis self orbital b ->
  SlaterAtoms.phi_column self (SlaterAtoms.Points2 r) deriv orbital
  = Raise ValueError.
Proof.
  intros (key & K & E & Nn & _).
  unfold SlaterAtoms.phi_column.
  rewrite K. step.
  rewrite (dict_get_Some (V := list float) _ _ _ E). step.
  rewrite (dict_get_Some _ _ _ Nn). step.
  destruct deriv; reflexivity.
Qed.

(** X19.  Points that are not a one-dimensional array are rejected:
    for an atom that has at least one orbital, the data of the first
    of which are complete, [phi_matrix], the total [atomic_density]
    and [derivative_density] raise [ValueError]. *)
Theorem density_rejects_points_not_1d
    (self : SlaterAtoms.t) (orbital : string) (rest : list string) (b : basis)
    (r : list (list float)) :
  SlaterAtoms.orbitals self = orbital :: rest ->
  has_basis self orbital b ->
  (forall deriv,
     SlaterAtoms.phi_matrix self (SlaterAtoms.Points2 r) deriv
     = Raise ValueError)
  /\ SlaterAtoms.atomic_density self (SlaterAtoms.Points2 r) "total"
     = Raise ValueError
  /\ SlaterAtoms.derivative_density self (SlaterAtoms.Points2 r)
     = Raise ValueError.
Proof.
  intros Ho Hb.
  assert (P : forall deriv,
            SlaterAtoms.phi_matrix self (SlaterAtoms.Points2 r) deriv
            = Raise ValueError).
  { intros deriv. unfold SlaterAtoms.phi_matrix. rewrite Ho.
    cbn [SlaterAtoms.phi_columns].
    now rewrite (phi_column_not_1d self orbital b r deriv Hb). }
  split; [exact P |]. split.
  - unfold SlaterAtoms.atomic_density.
    rewrite bool_decide_eq_true_2 by constructor. cbn [negb].
    rewrite mode_occupations_total. step. rewrite P. reflexivity.
  - unfold SlaterAtoms.derivative_density. rewrite (P false). reflexivity.
Qed.

Lemma density_rejects_points_not_1d_witness :
  (forall deriv,
     SlaterAtoms.phi_matrix hydrogen (SlaterAtoms.Points2 [[Some 0; Some 1]])
       deriv
     = Raise ValueError)
  /\ SlaterAtoms.atomic_density hydrogen
       (SlaterAtoms.Points2 [[Some 0; Some 1]]) "total"
     = Raise ValueError
  /\ SlaterAtoms.derivative_density hydrogen
       (SlaterAtoms.Points2 [[Some 0; Some 1]])
     = Raise ValueError.
Proof.
  apply (density_rejects_points_not_1d hydrogen "1S" [] hydrogen_basis
           [[Some 0; Some 1]]).
  - reflexivity.
  - pose proof hydrogen_has_basis as H. inversion H; subst. assumption.
Defined.

Lemma phi_columns_app (self : SlaterAtoms.t) (points : SlaterAtoms.points_array)
    (deriv : bool) (pre post : list string) :
  SlaterAtoms.phi_columns self points deriv (pre ++ post)
  = (a ← SlaterAtoms.phi_columns self points deriv pre;
     b ← SlaterAtoms.phi_columns self points deriv post;
     Ok (a ++ b)).
Proof.
  induction pre as [|o pre IH]; cbn [app SlaterAtoms.phi_columns].
  - step. destruct (SlaterAtoms.phi_columns self points deriv post);
      reflexivity.
  - destruct (SlaterAtoms.phi_column self points deriv o); step;
      [| reflexivity].
    rewrite IH.
    destruct (SlaterAtoms.phi_columns self points deriv pre); step;
      [| reflexivity].
    destruct (SlaterAtoms.phi_columns self points deriv post); reflexivity.
Qed.

(** X20.  A missing dictionary entry surfaces as [KeyError]: when the
    data of the orbitals that come before are complete, and the type
    of an orbital has no entry among the exponents or among the
    principal numbers, [phi_matrix] raises [KeyError], and so do the
    total [atomic_density] and [derivative_density]. *)
Theorem density_missing_entry
    (self : SlaterAtoms.t) (pre post : list string) (orbital key : string)
    (bs : list basis) (rs : list R) :
  SlaterAtoms.orbitals self = pre ++ orbital :: post ->
  Forall2 (has_basis self) pre bs ->
  SlaterAtoms.str_getitem_1 orbital = Ok key ->
  SlaterAtoms.orbitals_exp self !! key = None
  \/ SlaterAtoms.basis_numbers self !! key = None ->
  (forall deriv,
     SlaterAtoms.phi_matrix self (SlaterAtoms.Points1 (map Some rs)) deriv
     = Raise KeyError)
  /\ SlaterAtoms.atomic_density self (SlaterAtoms.Points1 (map Some rs)) "total"
     = Raise KeyError
  /\ SlaterAtoms.derivative_density self (SlaterAtoms.Points1 (map Some rs))
     = Raise KeyError.
Proof.
  intros Ho Hpre K Hmiss.
  assert (C : forall deriv,
            SlaterAtoms.phi_column self (SlaterAtoms.Points1 (map Some rs))
              deriv orbital
            = Raise KeyError).
  { intros deriv. unfold SlaterAtoms.phi_column. rewrite K. step.
    destruct (SlaterAtoms.orbitals_exp self !! key) as [exps|] eqn:E.
    - assert (Hm : SlaterAtoms.basis_numbers self !! key = None)
        by (destruct Hmiss; [discriminate | assumption]).
      rewrite (dict_get_Some _ _ _ E). step.
      now rewrite (dict_get_None _ _ Hm).
    - now rewrite (dict_get_None _ _ E). }
  assert (P : forall deriv,
            SlaterAtoms.phi_matrix self (SlaterAtoms.Points1 (map Some rs)) deriv
            = Raise KeyError).
  { intros deriv. unfold SlaterAtoms.phi_matrix.
    rewrite Ho, phi_columns_app.
    rewrite (phi_columns_Some self pre bs deriv rs Hpre). step.
    cbn [SlaterAtoms.phi_columns]. now rewrite C. }
  split; [exact P |]. split.
  - unfold SlaterAtoms.atomic_density.
    rewrite bool_decide_eq_true_2 by constructor. cbn [negb].
    rewrite mode_occupations_total. step. rewrite P. reflexivity.
  - unfold SlaterAtoms.derivative_density. rewrite (P false). reflexivity.
Qed.

Lemma density_missing_entry_witness :
  (forall deriv,
     SlaterAtoms.phi_matrix atom_without_data
       (SlaterAtoms.Points1 (map Some [0; 1])) deriv
     = Raise KeyError)
  /\ SlaterAtoms.atomic_density atom_without_data
       (SlaterAtoms.Points1 (map Some [0; 1])) "total"
     = Raise KeyError
  /\ SlaterAtoms.derivative_density atom_without_data
       (SlaterAtoms.Points1 (map Some [0; 1]))
     = Raise KeyError.
Proof.
  apply (density_missing_entry atom_without_data [] [] "1S" "S" [] [0; 1]).
  - reflexivity.
  - constructor.
  - reflexivity.
  - left. apply lookup_empty.
Defined.

(** ** The two normalization constants *)

(** X21.  For a strictly positive exponent [zeta],
    [get_normalization_constant2] returns [2 sqrt(zeta / pi)], and the
    two normalization constants of the file are related by
    [get_normalization_constant zeta
     = 2 zeta * get_normalization_constant2 zeta]. *)
Theorem normalization_constants_related (zeta : R) :
  0 < zeta ->
  normalized_mbis.get_normalization_constant2 (Some zeta)
  = Some (2 * sqrt (zeta / PI))
  /\ normalized_mbis.get_normalization_constant (Some zeta)
     = fmul (Some (2 * zeta))
         (normalized_mbis.get_normalization_constant2 (Some zeta)).
Proof.
  intros Hz. pose proof PI_RGT_0 as Hpi.
  assert (Hq : 0 < zeta / PI) by (apply Rdiv_lt_0_compat; lra).
  assert (E : normalized_mbis.get_normalization_constant2 (Some zeta)
              = Some (2 * sqrt (zeta / PI))).
  { unfold normalized_mbis.get_normalization_constant2.
    rewrite fdiv_Some by lra. unfold float_power.
    rewrite Rltb_true by assumption. cbn [fmul flift2]. f_equal.
    replace (1 / 2) with (/ 2) by lra.
    rewrite Rpower_sqrt by assumption. ring. }
  split; [exact E |].
  rewrite E, get_normalization_constant_Some by assumption.
  cbn [fmul flift2]. f_equal. unfold normalization.
  replace (3 / 2) with (1 + / 2) by lra.
  rewrite Rpower_plus, Rpower_1, Rpower_sqrt by assumption.
  field. lra.
Qed.

Lemma normalization_constants_related_witness :
  normalized_mbis.get_normalization_constant2 (Some 1)
  = Some (2 * sqrt (1 / PI))
  /\ normalized_mbis.get_normalization_constant (Some 1)
     = fmul (Some (2 * 1))
         (normalized_mbis.get_normalization_constant2 (Some 1)).
Proof. apply (normalization_constants_related 1). lra. Defined.

(** ** The sign of the Slater orbitals *)

Lemma slater_normalization_pos (zeta : R) (n : Z) :
  0 < zeta -> 0 < slater_normalization zeta n.
Proof.
  intros Hz. unfold slater_normalization.
  apply Rmult_lt_0_compat.
  - apply powerRZ_lt. lra.
  - apply sqrt_lt_R0. apply Rdiv_lt_0_compat; [lra | apply INR_fact_lt_0].
Qed.

(** X22.  For exponents up to [1e6], principal numbers up to 10 and
    points from 0 to [1e6], the entries that [slater_orbital] returns
    are finite and not negative; at the point [r = 0] the entry of a
    basis function is its normalization constant when its principal
    number is 1 and is zero when it is larger; and the entry is
    strictly positive where the exponent and the point are at least
    [1e-6] and their product at most 300 (no factor underflows
    there). *)
Theorem slater_orbital_sign
    (exponent : list R) (number : list Z) (points : list R) :
  Forall (fun z => 0 < z) exponent -> Forall (fun n => (1 <= n)%Z) number ->
  length exponent = length number ->
  exists S,
    SlaterAtoms.slater_orbital (map Some exponent) number
      (SlaterAtoms.Points1 (map Some points)) = Ok S
    /\ forall (j i : nat) (r zeta : R) (n : Z),
         points !! j = Some r -> exponent !! i = Some zeta ->
         number !! i = Some n ->
         slater_range zeta n r ->
         exists row v,
           rows S !! j = Some row
           /\ row !! i = Some (Some v)
           /\ 0 <= v
           /\ (r = 0 -> n = 1%Z -> v = slater_normalization zeta 1)
           /\ (r = 0 -> (2 <= n)%Z -> v = 0)
           /\ (1 / 10 ^ 6 <= r -> 1 / 10 ^ 6 <= zeta -> zeta * r <= 300 ->
               0 < v).
Proof.
  intros Hz Hn Hlen. eexists.
  split; [now apply slater_orbital_Some |].
  intros j i r zeta n Hj Hi Hi' (_ & _ & Hr & _). cbn [rows].
  exists (map Some (zip_with (fun z n => slater_function z n r) exponent number)),
    (slater_function zeta n r).
  split; [rewrite list_lookup_fmap, Hj; reflexivity |].
  split; [rewrite list_lookup_fmap, lookup_zip_with, Hi, Hi'; reflexivity |].
  assert (0 < zeta) by (eapply Forall_lookup_elim in Hz; eassumption).
  assert (1 <= n)%Z by (eapply Forall_lookup_elim in Hn; eassumption).
  pose proof (slater_normalization_pos zeta n H) as HN.
  pose proof (exp_pos (- zeta * r)) as He.
  unfold slater_function.
  split; [| split; [| split]].
  - assert (0 <= powerRZ r (n - 1))
      by (rewrite powerRZ_to_nat by lia; now apply pow_le).
    apply Rmult_le_pos; [apply Rmult_le_pos |]; lra.
  - intros -> ->. change (powerRZ 0 (1 - 1)) with 1.
    rewrite Rmult_0_r, exp_0. ring.
  - intros -> Hn2.
    rewrite powerRZ_to_nat by lia.
    rewrite pow_i by lia. ring.
  - intros Hr' _ _.
    assert (0 < 1 / 10 ^ 6) by lra.
    apply Rmult_lt_0_compat; [| assumption].
    apply Rmult_lt_0_compat; [assumption | apply powerRZ_lt; lra].
Qed.

Lemma slater_orbital_sign_witness :
  exists S row v,
    SlaterAtoms.slater_orbital (map Some [1; 2]) [1%Z; 2%Z]
      (SlaterAtoms.Points1 (map Some [0; 1])) = Ok S
    /\ rows S !! 1%nat = Some row
    /\ row !! 0%nat = Some (Some v)
    /\ 0 < v.
Proof.
  destruct (slater_orbital_sign [1; 2] [1%Z; 2%Z] [0; 1]) as (S & E & H);
    [repeat constructor; lra | repeat constructor; lia | reflexivity |].
  destruct (H 1%nat 0%nat 1 1 1%Z eq_refl eq_refl eq_refl)
    as (row & v & Hr & Hv & _ & _ & _ & Hp).
  { unfold slater_range. repeat split; try lra. lia. }
  exists S, row, v. repeat (split; [assumption |]).
  apply Hp; lra.
Defined.

(** ** The objective on a density that vanishes *)

Lemma ma_trapz_all_masked (y : list melem) (x : list float) :
  Forall (fun a => a = Masked) y -> length y = length x ->
  ma_trapz y x = Ok Masked.
Proof.
  intros Hy Hlen. unfold ma_trapz.
  rewrite np_broadcast_same_length
    by (rewrite np_tail_length, np_init_length; reflexivity).
  step.
  rewrite np_broadcast_same_length
    by (unfold ma_asarray;
        rewrite length_map, length_zip_with, np_diff_length, np_tail_length,
          np_init_length; lia).
  step. f_equal. unfold ma_sum.
  replace (forallb is_masked _) with true; [reflexivity |].
  symmetry. apply forallb_true_Forall, Forall_map, Forall_zip_with.
  intros i a s _ Hs.
  rewrite lookup_zip_with in Hs.
  destruct (np_tail y !! i) as [b|] eqn:Hb; [| discriminate].
  destruct (np_init y !! i) as [c|]; [| discriminate].
  injection Hs as <-.
  assert (b = Masked).
  { destruct y as [|y0 y]; [discriminate |]. cbn [np_tail tl] in Hb.
    inversion Hy; subst. eapply Forall_lookup_elim in Hb; [| eassumption].
    exact Hb. }
  subst b. destruct a; reflexivity.
Qed.

(** X23.  On a true density that is zero at every grid point, the
    logarithm of the ratio is masked everywhere and
    [KL_objective_function] returns the masked constant, not a
    number, whatever the coefficients, the exponents and the grid. *)
Theorem KL_objective_function_masked_on_zero_density
    (cs zs ed grid : list float) :
  length cs = length zs -> length ed = length grid ->
  Forall (fun e => e = Some 0) ed ->
  normalized_mbis.KL_objective_function cs zs ed grid = Ok Masked.
Proof.
  intros H H' He. unfold normalized_mbis.KL_objective_function.
  destruct (normalized_gaussian_model_ok cs zs grid H) as [gd [-> Hgd]].
  step. unfold ma_asarray.
  rewrite np_broadcast_same_length by (rewrite !length_map; lia).
  step.
  rewrite np_broadcast_same_length
    by (rewrite !length_map, length_zip_with, !length_map; lia).
  step.
  apply ma_trapz_all_masked.
  - apply Forall_zip_with. intros i a l _ Hl.
    rewrite list_lookup_fmap, lookup_zip_with, !list_lookup_fmap in Hl.
    destruct (ed !! i) as [e|] eqn:Hi; [| discriminate].
    destruct (gd !! i) as [g|]; [| discriminate].
    cbn in Hl. injection Hl as <-.
    eapply Forall_lookup_elim in Hi; [| eassumption]. cbn beta in Hi. subst e.
    assert (E : ma_log (ma_true_divide (Data (Some 0)) (Data g)) = Masked).
    { destruct g as [m|]; [| reflexivity].
      unfold ma_true_divide. destruct (Reqb m 0); [reflexivity |].
      unfold ma_log. rewrite Rleb_true; [reflexivity |].
      unfold Rdiv. rewrite Rmult_0_l. lra. }
    change (ma_multiply a
              (ma_log (ma_true_divide (Data (Some 0)) (Data g))) = Masked).
    rewrite E. destruct a; reflexivity.
  - rewrite length_zip_with, !length_map, length_zip_with, !length_map. lia.
Qed.

Lemma KL_objective_function_masked_on_zero_density_witness :
  normalized_mbis.KL_objective_function
    [Some 1] [Some 1] [Some 0; Some 0] [Some 0; Some 1]
  = Ok Masked.
Proof.
  apply (KL_objective_function_masked_on_zero_density
           [Some 1] [Some 1] [Some 0; Some 0] [Some 0; Some 1]).
  - reflexivity.
  - reflexivity.
  - repeat constructor.
Defined.

(** ** The first two iterations *)

(** X24.  The values that an update returns are checked only when the
    loop hands them back, two iterations later: a run of at most two
    iterations completes whenever the arguments pass the three
    assertions (coefficients that are finite and strictly positive, as
    many exponents as coefficients, as many values of the density as
    grid points), whatever the values of the density, of the grid and
    of the mask.  Its iterations compute the update of the initial
    coefficients, and with the names [coeffs] and [exps] bound the
    function returns their values with a history of as many entries
    as iterations. *)
Theorem fixed_iteration_first_two_iterations
    (cs zs ed grid : list float) (mask : float) (k : nat) (c0 e0 : list float) :
  (k <= 2)%nat ->
  forallb fgt0 cs = true -> length cs = length zs -> length ed = length grid ->
  exists (st : normalized_mbis.loop_state) (new : list float),
    normalized_mbis.update_coefficients cs zs ed grid mask = Ok new
    /\ normalized_mbis.loop k ed grid mask (normalized_mbis.initial_state cs zs)
       = Ok st
    /\ ((1 <= k)%nat -> normalized_mbis.new_coefficients st = new)
    /\ history_of_length k (normalized_mbis.error_array st)
    /\ normalized_mbis.fixed_iteration_MBIS_method
         {| normalized_mbis.coeffs := Some c0; normalized_mbis.exps := Some e0 |}
         cs zs ed grid k mask
       = Ok ((c0, e0), normalized_mbis.error_array st).
Proof.
  intros Hk Hc Hlen Hlen'.
  destruct (update_coefficients_ok cs zs ed grid mask Hc Hlen Hlen')
    as (new & U & _).
  destruct (loop_body_ok ed grid mask (normalized_mbis.initial_state cs zs) new U)
    as (st1 & B1 & O1 & N1 & X1).
  cbn in O1, X1.
  destruct (loop_body_ok ed grid mask st1 new) as (st2 & B2 & O2 & N2 & X2);
    [now rewrite O1, X1 |].
  assert (L : exists st,
            normalized_mbis.loop k ed grid mask
              (normalized_mbis.initial_state cs zs) = Ok st
            /\ ((1 <= k)%nat -> normalized_mbis.new_coefficients st = new)).
  { destruct k as [|[|[|k]]]; [| | | lia]; cbn [normalized_mbis.loop].
    - eexists. split; [reflexivity | lia].
    - rewrite B1. step. eexists. split; [reflexivity | auto].
    - rewrite B1. step. rewrite B2. step. eexists. split; [reflexivity | auto]. }
  destruct L as (st & L & N).
  exists st, new.
  destruct (loop_uses_whole_budget _ _ _ _ _ _ _ L) as (_ & Hh & _).
  repeat (split; [assumption |]).
  unfold normalized_mbis.fixed_iteration_MBIS_method. rewrite L. reflexivity.
Qed.

Lemma fixed_iteration_first_two_iterations_witness :
  exists (st : normalized_mbis.loop_state) (new : list float),
    normalized_mbis.update_coefficients
      [Some 1] [Some 1] [Some 0; Some 0] [Some 0; Some 1] (Some (1 / 10 ^ 6))
    = Ok new
    /\ normalized_mbis.loop 2 [Some 0; Some 0] [Some 0; Some 1]
         (Some (1 / 10 ^ 6)) (normalized_mbis.initial_state [Some 1] [Some 1])
       = Ok st
    /\ ((1 <= 2)%nat -> normalized_mbis.new_coefficients st = new)
    /\ history_of_length 2 (normalized_mbis.error_array st)
    /\ normalized_mbis.fixed_iteration_MBIS_method
         {| normalized_mbis.coeffs := Some [Some 1];
            normalized_mbis.exps := Some [Some 1] |}
         [Some 1] [Some 1] [Some 0; Some 0] [Some 0; Some 1] 2
         (Some (1 / 10 ^ 6))
       = Ok (([Some 1], [Some 1]), normalized_mbis.error_array st).
Proof.
  apply (fixed_iteration_first_two_iterations
           [Some 1] [Some 1] [Some 0; Some 0] [Some 0; Some 1]
           (Some (1 / 10 ^ 6)) 2 [Some 1] [Some 1]).
  - lia.
  - simpl. rewrite Rltb_true by lra. reflexivity.
  - reflexivity.
  - reflexivity.
Defined.

(** ** The kinetic energy density *)

Lemma bidx_lt (m i : nat) : (i < m)%nat -> SlaterAtoms.bidx m i = i.
Proof.
  unfold SlaterAtoms.bidx. intros H.
  destruct (Nat.eqb_spec m 1); [lia | reflexivity].
Qed.

Lemma bidx_idem (d m i : nat) :
  (d = m \/ d = 1%nat) -> (i < m)%nat ->
  SlaterAtoms.bidx d (SlaterAtoms.bidx d i) = SlaterAtoms.bidx d i.
Proof.
  unfold SlaterAtoms.bidx. intros _ _.
  destruct (Nat.eqb_spec d 1) as [-> | Hd]; [reflexivity |].
  destruct (Nat.eqb_spec d 1); [contradiction | reflexivity].
Qed.

Lemma broadcastable_compatible (d d' m : nat) :
  (d = m \/ d = 1%nat) -> (d' = m \/ d' = 1%nat) -> broadcastable d d' = true.
Proof.
  unfold broadcastable. intros [-> | ->] [-> | ->];
    rewrite ?Nat.eqb_refl, ?orb_true_r; reflexivity.
Qed.

Lemma broadcast_length_compatible (d d' m : nat) :
  (d = m \/ d = 1%nat) -> (d' = m \/ d' = 1%nat) ->
  (broadcast_length d d' = m \/ broadcast_length d d' = 1%nat)
  /\ (d = m \/ d' = m -> broadcast_length d d' = m).
Proof.
  unfold broadcast_length. intros H H'.
  destruct (Nat.eqb_spec d 1) as [-> | Hd].
  - split; [assumption |]. intros [<- | ->]; [destruct H'; congruence | reflexivity].
  - destruct H as [-> | ->]; [| contradiction]. split; [now left | reflexivity].
Qed.

Lemma bidx_broadcast (d d' m i : nat) :
  (d = m \/ d = 1%nat) -> (d' = m \/ d' = 1%nat) -> (i < m)%nat ->
  SlaterAtoms.bidx d (SlaterAtoms.bidx (broadcast_length d d') i)
  = SlaterAtoms.bidx d i.
Proof.
  unfold SlaterAtoms.bidx, broadcast_length. intros H H' Hi.
  destruct (Nat.eqb_spec d 1) as [-> | Hd]; [reflexivity |].
  destruct (Nat.eqb_spec d 1); [contradiction | reflexivity].
Qed.

Lemma bidx_broadcast_r (d d' m i : nat) :
  (d = m \/ d = 1%nat) -> (d' = m \/ d' = 1%nat) -> (i < m)%nat ->
  SlaterAtoms.bidx d' (SlaterAtoms.bidx (broadcast_length d d') i)
  = SlaterAtoms.bidx d' i.
Proof.
  unfold SlaterAtoms.bidx, broadcast_length. intros H H' Hi.
  destruct (Nat.eqb_spec d 1) as [-> | Hd].
  - destruct (Nat.eqb_spec d' 1); reflexivity.
  - destruct (Nat.eqb_spec d' 1) as [-> | Hd']; [reflexivity |].
    destruct (Nat.eqb_spec d 1); [contradiction | reflexivity].
Qed.

(** Broadcasting two arrays that hold finite values gives an array
    that holds the values of the operation. *)
Lemma broadcast3_represents (f : R -> R -> R) (a b : SlaterAtoms.array3)
    (m n p : nat) (ga gb : nat -> nat -> nat -> R) :
  represents a m n p ga -> represents b m n p gb ->
  exists c,
    SlaterAtoms.broadcast3 (flift2 f) a b = Ok c
    /\ represents c m n p (fun i j k => f (ga i j k) (gb i j k))
    /\ SlaterAtoms.dim_i c
       = broadcast_length (SlaterAtoms.dim_i a) (SlaterAtoms.dim_i b)
    /\ SlaterAtoms.dim_j c
       = broadcast_length (SlaterAtoms.dim_j a) (SlaterAtoms.dim_j b).
Proof.
  intros (Ai & Aj & Ha) (Bi & Bj & Hb).
  unfold SlaterAtoms.broadcast3.
  rewrite (broadcastable_compatible _ _ m Ai Bi),
    (broadcastable_compatible _ _ n Aj Bj).
  cbn [andb]. eexists. split; [reflexivity |].
  split; [| split; reflexivity].
  unfold represents.
  cbn [SlaterAtoms.dim_i SlaterAtoms.dim_j SlaterAtoms.entry].
  split; [apply (broadcast_length_compatible _ _ m Ai Bi) |].
  split; [apply (broadcast_length_compatible _ _ n Aj Bj) |].
  intros i j k Hi Hj Hk.
  rewrite (bidx_broadcast _ _ m i Ai Bi Hi), (bidx_broadcast _ _ n j Aj Bj Hj),
    (bidx_broadcast_r _ _ m i Ai Bi Hi), (bidx_broadcast_r _ _ n j Aj Bj Hj).
  rewrite (Ha i j k Hi Hj Hk), (Hb i j k Hi Hj Hk). reflexivity.
Qed.

Lemma nth_map_Some (l : list R) (i : nat) :
  (i < length l)%nat -> nth i (map Some l) None = Some (nth i l 0).
Proof.
  revert i. induction l as [|x l IH]; intros [|i] H; simpl in *;
    try lia; [reflexivity | apply IH; lia].
Qed.

Lemma along_i_represents (v : list R) (n p : nat) :
  represents (SlaterAtoms.along_i (map Some v)) (length v) n p
    (fun i _ _ => nth i v 0).
Proof.
  unfold represents. cbn [SlaterAtoms.dim_i SlaterAtoms.dim_j
                          SlaterAtoms.entry SlaterAtoms.along_i].
  rewrite length_map.
  split; [now left |]. split; [now right |].
  intros i j k Hi _ _. rewrite bidx_lt by assumption.
  now apply nth_map_Some.
Qed.

Lemma along_j_represents (v : list R) (m p : nat) :
  represents (SlaterAtoms.along_j (map Some v)) m (length v) p
    (fun _ j _ => nth j v 0).
Proof.
  unfold represents. cbn [SlaterAtoms.dim_i SlaterAtoms.dim_j
                          SlaterAtoms.entry SlaterAtoms.along_j].
  rewrite length_map.
  split; [now right |]. split; [now left |].
  intros i j k _ Hj _. rewrite bidx_lt by assumption.
  now apply nth_map_Some.
Qed.

Lemma full_represents (a : SlaterAtoms.array3) (m n p : nat)
    (g : nat -> nat -> nat -> R) :
  full a m n p g -> represents a m n p g.
Proof. now intros (_ & _ & H). Qed.

Lemma represents_ext (a : SlaterAtoms.array3) (m n p : nat)
    (g g' : nat -> nat -> nat -> R) :
  (forall i j k, (i < m)%nat -> (j < n)%nat -> (k < p)%nat ->
                 g i j k = g' i j k) ->
  represents a m n p g -> represents a m n p g'.
Proof.
  intros Hg (Hi & Hj & H). split; [assumption |]. split; [assumption |].
  intros i j k Li Lj Lk. rewrite (H i j k Li Lj Lk). f_equal. now apply Hg.
Qed.

Lemma broadcast3_full_r (f : R -> R -> R) (a b : SlaterAtoms.array3)
    (m n p : nat) (ga gb : nat -> nat -> nat -> R) :
  represents a m n p ga -> full b m n p gb ->
  exists c,
    SlaterAtoms.broadcast3 (flift2 f) a b = Ok c
    /\ full c m n p (fun i j k => f (ga i j k) (gb i j k)).
Proof.
  intros Ra (Bi & Bj & Rb).
  destruct (broadcast3_represents f a b m n p ga gb Ra Rb)
    as (c & E & Rc & Di & Dj).
  exists c. split; [assumption |].
  destruct Ra as (Ai & Aj & _).
  split; [| split; [| assumption]].
  - rewrite Di. apply (broadcast_length_compatible _ _ m Ai (or_introl Bi)).
    now right.
  - rewrite Dj. apply (broadcast_length_compatible _ _ n Aj (or_introl Bj)).
    now right.
Qed.

Lemma broadcast3_full_l (f : R -> R -> R) (a b : SlaterAtoms.array3)
    (m n p : nat) (ga gb : nat -> nat -> nat -> R) :
  full a m n p ga -> represents b m n p gb ->
  exists c,
    SlaterAtoms.broadcast3 (flift2 f) a b = Ok c
    /\ full c m n p (fun i j k => f (ga i j k) (gb i j k)).
Proof.
  intros (Ai & Aj & Ra) Rb.
  destruct (broadcast3_represents f a b m n p ga gb Ra Rb)
    as (c & E & Rc & Di & Dj).
  exists c. split; [assumption |].
  destruct Rb as (Bi & Bj & _).
  split; [| split; [| assumption]].
  - rewrite Di. apply (broadcast_length_compatible _ _ m (or_introl Ai) Bi).
    now left.
  - rewrite Dj. apply (broadcast_length_compatible _ _ n (or_introl Aj) Bj).
    now left.
Qed.

Lemma nth_map_lt {A B : Type} (f : A -> B) (l : list A) (i : nat) (d : B)
    (d' : A) :
  (i < length l)%nat -> nth i (map f l) d = f (nth i l d').
Proof.
  revert i. induction l as [|x l IH]; intros [|i] H; simpl in *;
    try lia; [reflexivity | apply IH; lia].
Qed.

Lemma nth_zip_with_lt {A B C : Type} (f : A -> B -> C) (xs : list A)
    (ys : list B) (i : nat) (d : C) (dx : A) (dy : B) :
  (i < length xs)%nat -> (i < length ys)%nat ->
  nth i (zip_with f xs ys) d = f (nth i xs dx) (nth i ys dy).
Proof.
  revert ys i. induction xs as [|x xs IH]; intros [|y ys] [|i] Hx Hy;
    simpl in *; try lia; [reflexivity | apply IH; lia].
Qed.

Lemma map_seq_nth {A B : Type} (F : A -> B) (l : list A) (d : A) :
  map (fun k => F (nth k l d)) (seq 0 (length l)) = map F l.
Proof.
  apply map_seq_lookup. intros j a Hj.
  rewrite nth_lookup, Hj. reflexivity.
Qed.

Lemma points_power_full (rs : list R) (ns : list Z) (s : Z) (p : nat) :
  Forall (fun n => (1 <= n)%Z) ns -> (s <= 2)%Z -> (p <= length rs)%nat ->
  full (SlaterAtoms.points_power (map Some rs) ns s) (length ns) (length ns) p
    (fun i j k => powerRZ (nth k rs 0) (nth i ns 0%Z + nth j ns 0%Z - s)).
Proof.
  intros Hn Hs Hp. split; [reflexivity |]. split; [reflexivity |].
  split; [now left |]. split; [now left |].
  intros i j k Hi Hj Hk.
  cbn [SlaterAtoms.points_power SlaterAtoms.dim_i SlaterAtoms.dim_j
       SlaterAtoms.entry].
  rewrite !bidx_lt by assumption.
  rewrite nth_map_Some by lia.
  assert (Hni : (1 <= nth i ns 0)%Z).
  { rewrite Forall_forall in Hn. apply Hn, list_elem_of_In, nth_In, Hi. }
  assert (Hnj : (1 <= nth j ns 0)%Z).
  { rewrite Forall_forall in Hn. apply Hn, list_elem_of_In, nth_In, Hj. }
  unfold float_power_int.
  replace (nth i ns 0%Z + nth j ns 0%Z - s <? 0)%Z with false
    by (symmetry; apply Z.ltb_ge; lia).
  reflexivity.
Qed.

Lemma sum_ij_full (c : SlaterAtoms.array3) (m n p : nat)
    (g : nat -> nat -> nat -> R) :
  full c m n p g ->
  SlaterAtoms.sum_ij c p
  = map Some
      (map (fun k =>
              Rsum (map (fun i => Rsum (map (fun j => g i j k) (seq 0 n)))
                        (seq 0 m)))
           (seq 0 p)).
Proof.
  intros (Di & Dj & _ & _ & H). unfold SlaterAtoms.sum_ij.
  rewrite Di, Dj, map_map. apply map_ext_in. intros k Hk.
  apply in_seq in Hk.
  rewrite <- fsum_Some, map_map. f_equal.
  apply map_ext_in. intros i Hi. apply in_seq in Hi.
  rewrite <- fsum_Some, map_map. f_equal.
  apply map_ext_in. intros j Hj. apply in_seq in Hj.
  specialize (H i j k ltac:(lia) ltac:(lia) ltac:(lia)).
  rewrite Di, Dj, !bidx_lt in H by lia. exact H.
Qed.

Lemma angular_of_supported (orbital key : string) (a : R) :
  SlaterAtoms.str_getitem_1 orbital = Ok key ->
  SlaterAtoms.orbital_to_angular key = Ok a ->
  angular_of orbital = a.
Proof. intros K A. unfold angular_of. now rewrite K, A. Qed.

Lemma occupation_getitem (l : list float) (i : nat) (x : float) :
  l !! i = Some x ->
  match l !! i with
  | Some o => Ok o
  | None => Raise IndexError
  end = Ok x.
Proof. now intros ->. Qed.

Lemma kinetic_term_Some (self : SlaterAtoms.t) (orbital : string) (b : basis)
    (index : nat) (o : R) (rs : list R) :
  has_basis self orbital b -> supported orbital ->
  SlaterAtoms.orbitals_occupation self !! index = Some (Some o) ->
  SlaterAtoms.kinetic_term self (SlaterAtoms.Points1 (map Some rs)) index
    orbital
  = Ok (map Some
          (map (fun r => orbital_kinetic b (angular_of orbital) r * o) rs)).
Proof.
  intros (key & K & E & Nn & C & Hz & Hn & L1 & L2) (key' & a & K' & A) Ho.
  assert (key' = key) by congruence. subst key'.
  rewrite (angular_of_supported orbital key a K A).
  destruct b as [es ns cs].
  cbn [b_exps b_numbers b_coeffs] in E, Nn, C, Hz, Hn, L1, L2.
  set (M := length es). set (P := length rs).
  set (norms := zip_with slater_normalization es ns).
  assert (LN : length norms = M)
    by (unfold norms, M; rewrite length_zip_with; lia).
  unfold SlaterAtoms.kinetic_term.
  rewrite K. step.
  rewrite (dict_get_Some (V := list float) _ _ _ E). step.
  rewrite (dict_get_Some _ _ _ Nn). step.
  rewrite A. step.
  rewrite np_broadcast_same_length by (rewrite !length_map; lia).
  step.
  rewrite np_broadcast_same_length by (rewrite !length_map; lia).
  step.
  rewrite np_broadcast_same_length
    by (rewrite length_map, !length_zip_with, !length_map; lia).
  step.
  rewrite slater_norm_Some by assumption. fold norms.
  rewrite (dict_get_Some (V := list float) _ _ _ C). step.
  change fmul with (flift2 Rmult). change fadd with (flift2 Rplus).
  change fsub with (flift2 Rminus).
  (* coeffs_norm *)
  pose proof (along_i_represents cs M P) as Rci. rewrite L2 in Rci. fold M in Rci.
  pose proof (along_i_represents norms M P) as Rni. rewrite LN in Rni.
  pose proof (along_j_represents cs M P) as Rcj. rewrite L2 in Rcj. fold M in Rcj.
  pose proof (along_j_represents norms M P) as Rnj. rewrite LN in Rnj.
  destruct (broadcast3_represents Rmult _ _ _ _ _ _ _ Rci Rni)
    as (cni & -> & Rcni & _). step.
  destruct (broadcast3_represents Rmult _ _ _ _ _ _ _ Rcj Rnj)
    as (cnj & -> & Rcnj & _). step.
  destruct (broadcast3_represents Rmult _ _ _ _ _ _ _ Rcni Rcnj)
    as (cn & -> & Rcn & _). step.
  (* exps_comb *)
  pose proof (along_i_represents es M P) as Rei. fold M in Rei.
  pose proof (along_j_represents es M P) as Rej. fold M in Rej.
  destruct (broadcast3_represents Rplus _ _ _ _ _ _ _ Rei Rej)
    as (ec & -> & Rec & Dec_i & Dec_j). step.
  cbn [SlaterAtoms.dim_i SlaterAtoms.dim_j SlaterAtoms.along_i
       SlaterAtoms.along_j] in Dec_i, Dec_j.
  rewrite length_map in Dec_i, Dec_j. fold M in Dec_i, Dec_j.
  assert (Dec_i' : SlaterAtoms.dim_i ec = M)
    by (rewrite Dec_i; unfold broadcast_length;
        destruct (M =? 1)%nat eqn:E1; [apply Nat.eqb_eq in E1; lia | reflexivity]).
  assert (Dec_j' : SlaterAtoms.dim_j ec = M) by (rewrite Dec_j; reflexivity).
  (* exponential *)
  set (exponential :=
         {| SlaterAtoms.dim_i := SlaterAtoms.dim_i ec;
            SlaterAtoms.dim_j := SlaterAtoms.dim_j ec;
            SlaterAtoms.entry := _ |}).
  assert (Rex : full exponential M M P
                  (fun i j k =>
                     exp (- (1) * ((nth i es 0 + nth j es 0) * nth k rs 0)))).
  { split; [exact Dec_i' |]. split; [exact Dec_j' |].
    split; [now left |]. split; [now left |].
    intros i j k Hi Hj Hk.
    destruct Rec as (_ & _ & Hec).
    unfold exponential. cbn [SlaterAtoms.dim_i SlaterAtoms.dim_j SlaterAtoms.entry].
    rewrite (Hec i j k Hi Hj Hk), nth_map_Some by exact Hk.
    reflexivity. }
  destruct (broadcast3_full_l Rmult _ _ _ _ _ _ _ Rex Rcn)
    as (comb & -> & Rcomb). step.
  (* the three terms *)
  assert (HP : (P <= length rs)%nat) by (unfold P; lia).
  pose proof (points_power_full rs ns 2 P Hn ltac:(lia) HP) as Rp2.
  pose proof (points_power_full rs ns 1 P Hn ltac:(lia) HP) as Rp1.
  pose proof (points_power_full rs ns 0 P Hn ltac:(lia) HP) as Rp0.
  rewrite <- L1 in Rp2, Rp1, Rp0. fold M in Rp2, Rp1, Rp0.
  rewrite (map_ext (fun n => flift2 Rminus (Some a)
                               (flift2 Rmult (SlaterAtoms.fZ n)
                                  (flift2 Rminus (SlaterAtoms.fZ n) (Some 1))))
             (fun n => Some (a - IZR n * (IZR n - 1))))
    by reflexivity.
  rewrite <- (map_map (fun n => a - IZR n * (IZR n - 1)) Some).
  pose proof (along_i_represents
                (map (fun n => a - IZR n * (IZR n - 1)) ns) M P) as Ra.
  rewrite length_map, <- L1 in Ra. fold M in Ra.
  destruct (broadcast3_full_r Rmult _ _ _ _ _ _ _ Ra Rp2)
    as (first & -> & Rfirst). step.
  rewrite (map_map Some (flift2 Rmult (Some 2))).
  rewrite (map_ext (fun x => flift2 Rmult (Some 2) (Some x))
             (fun x => Some (2 * x))) by reflexivity.
  rewrite <- (map_map (Rmult 2) Some).
  rewrite (map_ext SlaterAtoms.fZ (fun n => Some (IZR n))) by reflexivity.
  rewrite <- (map_map IZR Some).
  pose proof (along_j_represents (map (Rmult 2) es) M P) as R2e.
  rewrite length_map in R2e. fold M in R2e.
  pose proof (along_j_represents (map IZR ns) M P) as Rnn.
  rewrite length_map, <- L1 in Rnn. fold M in Rnn.
  destruct (broadcast3_represents Rmult _ _ _ _ _ _ _ R2e Rnn)
    as (ten & -> & Rten & _). step.
  destruct (broadcast3_full_r Rmult _ _ _ _ _ _ _ Rten Rp1)
    as (second & -> & Rsecond). step.
  rewrite map_fsquare_Some.
  pose proof (along_i_represents (map (fun r => r * r) es) M P) as Rsq.
  rewrite length_map in Rsq. fold M in Rsq.
  destruct (broadcast3_full_r Rmult _ _ _ _ _ _ _ Rsq Rp0)
    as (third & -> & Rthird). step.
  destruct (broadcast3_full_l Rplus _ _ _ _ _ _ _ Rfirst
              (full_represents _ _ _ _ _ Rsecond))
    as (s & -> & Rs). step.
  destruct (broadcast3_full_l Rminus _ _ _ _ _ _ _ Rs
              (full_represents _ _ _ _ _ Rthird))
    as (terms & -> & Rterms). step.
  destruct (broadcast3_full_l Rmult _ _ _ _ _ _ _ Rcomb
              (full_represents _ _ _ _ _ Rterms))
    as (final & -> & Rfinal). step.
  rewrite (occupation_getitem _ _ _ Ho). step. f_equal.
  rewrite length_map. fold P.
  rewrite (sum_ij_full final M M P _ Rfinal), !map_map.
  unfold P. rewrite <- (map_seq_nth _ rs 0).
  apply map_ext_in. intros k Hk. apply in_seq in Hk.
  cbn [flift2]. f_equal. f_equal.
  unfold orbital_kinetic. cbn [b_exps b_numbers b_coeffs]. fold M.
  f_equal. apply map_ext_in. intros i Hi. apply in_seq in Hi.
  f_equal. apply map_ext_in. intros j Hj. apply in_seq in Hj.
  unfold kinetic_summand, norms.
  rewrite !(nth_zip_with_lt slater_normalization es ns _ 0 0 0%Z) by lia.
  rewrite !(nth_map_lt _ _ _ 0 0) by lia.
  rewrite !(nth_map_lt IZR ns _ 0 0%Z) by lia.
  rewrite !(nth_map_lt (fun n => a - IZR n * (IZR n - 1)) ns _ 0 0%Z) by lia.
  ring.
Qed.

Lemma kinetic_loop_Some (self : SlaterAtoms.t) (rs : list R) :
  forall (orbs : list string) (bs : list basis) (occ : list R) (index : nat)
         (acc : R -> R),
    Forall2 (has_basis self) orbs bs -> Forall supported orbs ->
    (forall i o, occ !! i = Some o ->
                 SlaterAtoms.orbitals_occupation self !! (index + i)%nat
                 = Some (Some o)) ->
    length occ = length bs ->
    SlaterAtoms.kinetic_loop self (SlaterAtoms.Points1 (map Some rs)) index orbs
      (map Some (map acc rs))
    = Ok (map Some
            (map (fun r =>
                    acc r
                    + Rsum (zip_with
                              (fun ob o =>
                                 orbital_kinetic ob.2 (angular_of ob.1) r * o)
                              (zip orbs bs) occ))
                 rs)).
Proof.
  intros orbs bs occ index acc H. revert occ index acc.
  induction H as [|orbital b orbs bs Hb _ IH]; intros occ index acc Hs Ho Hlen.
  - cbn [SlaterAtoms.kinetic_loop zip zip_with Rsum fold_right].
    do 2 f_equal. apply map_ext. intros r. ring.
  - destruct occ as [|o occ]; [discriminate |].
    inversion Hs as [|? ? Hs0 Hs']; subst.
    cbn [SlaterAtoms.kinetic_loop].
    rewrite (kinetic_term_Some self orbital b index o rs Hb Hs0)
      by (rewrite <- (Nat.add_0_r index); now apply Ho).
    step.
    change fadd with (flift2 Rplus).
    rewrite zip_with_flift2, zip_with_map_same.
    rewrite (IH occ (S index)
               (fun r => acc r + orbital_kinetic b (angular_of orbital) r * o)).
    + do 2 f_equal. apply map_ext. intros r.
      cbn [zip zip_with Rsum fold_right fst snd].
      change (fold_right Rplus 0) with Rsum. ring.
    + assumption.
    + intros i o' Hi. replace (S index + i)%nat with (index + S i)%nat by lia.
      now apply Ho.
    + simpl in Hlen. lia.
Qed.

Lemma repeat_zero (rs : list R) :
  repeat (Some 0) (length (map Some rs)) = map Some (map (fun _ => 0) rs).
Proof. induction rs as [|r rs IH]; simpl; [reflexivity | now rewrite IH]. Qed.

Lemma near_zero_Some (r : R) :
  SlaterAtoms.near_zero (Some r) = Rltb (Rabs r) (1 / 10 ^ 10).
Proof. reflexivity. Qed.

Lemma eight_PI_neq_0 : 2 * 4 * PI <> 0.
Proof. pose proof PI_RGT_0. lra. Qed.

Lemma lagrangian_kinetic_energy_Some (self : SlaterAtoms.t) (bs : list basis)
    (occ rs : list R) :
  Forall2 (has_basis self) (SlaterAtoms.orbitals self) bs ->
  Forall supported (SlaterAtoms.orbitals self) ->
  SlaterAtoms.orbitals_occupation self = map Some occ ->
  length occ = length bs ->
  SlaterAtoms.lagrangian_kinetic_energy self
    (SlaterAtoms.Points1 (map Some rs))
  = Ok (map Some
          (map (kinetic_density (SlaterAtoms.orbitals self) bs occ) rs)).
Proof.
  intros Hb Hs Ho Hlen. unfold SlaterAtoms.lagrangian_kinetic_energy.
  cbn [SlaterAtoms.len]. rewrite repeat_zero.
  rewrite (kinetic_loop_Some self rs _ bs occ 0 (fun _ => 0) Hb Hs)
    by (try assumption; intros i o Hi; cbn [Nat.add];
        rewrite Ho, list_lookup_fmap, Hi; reflexivity).
  step. f_equal.
  rewrite !map_map, zip_with_map_same, map_map. apply map_ext. intros r.
  rewrite near_zero_Some. unfold kinetic_density.
  destruct (Rltb (Rabs r) (1 / 10 ^ 10)) eqn:Hr.
  - rewrite fdiv_Some by apply eight_PI_neq_0. f_equal. unfold Rdiv. ring.
  - assert (r <> 0).
    { apply not_near_zero_neq. unfold Rltb in Hr.
      destruct (Rlt_dec (Rabs r) (1 / 10 ^ 10)); [discriminate | assumption]. }
    rewrite fsquare_Some, fdiv_Some by nra.
    rewrite fdiv_Some by apply eight_PI_neq_0.
    now rewrite Rplus_0_l.
Qed.

Lemma hydrogen_supported : Forall supported (SlaterAtoms.orbitals hydrogen).
Proof. repeat constructor. exists "S", 0. split; reflexivity. Qed.

(** X25.  For an atom whose data are complete and whose orbitals are
    of the types S, P, D and F, with finite occupation numbers,
    [lagrangian_kinetic_energy] returns one value for each point: 0 at
    a point within [1e-10] of the origin, and elsewhere the sum over
    the orbitals of the occupation number times the sum over the pairs
    of basis functions of
    [exp(-(z_i + z_j) r) w_i w_j ((a - n_i (n_i - 1)) r^(n_i + n_j - 2)
     + 2 z_j n_j r^(n_i + n_j - 1) - z_i^2 r^(n_i + n_j))],
    divided by [r^2] and by [8 pi], where [w] is the coefficient times
    the normalization of the Slater function and [a] the angular
    number of the orbital. *)
Theorem lagrangian_kinetic_energy_closed_form
    (self : SlaterAtoms.t) (bs : list basis) (occ rs : list R) :
  Forall2 (has_basis self) (SlaterAtoms.orbitals self) bs ->
  Forall supported (SlaterAtoms.orbitals self) ->
  SlaterAtoms.orbitals_occupation self = map Some occ ->
  length occ = length bs ->
  exists kinetic,
    SlaterAtoms.lagrangian_kinetic_energy self
      (SlaterAtoms.Points1 (map Some rs)) = Ok kinetic
    /\ length kinetic = length rs
    /\ forall (j : nat) (r : R),
         rs !! j = Some r ->
         (Rabs r < 1 / 10 ^ 10 -> kinetic !! j = Some (Some 0))
         /\ (~ Rabs r < 1 / 10 ^ 10 ->
             kinetic !! j
             = Some (Some
                 (Rsum (zip_with
                          (fun ob o =>
                             orbital_kinetic ob.2 (angular_of ob.1) r * o)
                          (zip (SlaterAtoms.orbitals self) bs) occ)
                  / (r * r) / (2 * 4 * PI)))).
Proof.
  intros Hb Hs Ho Hlen. eexists.
  split; [apply (lagrangian_kinetic_energy_Some self bs occ rs Hb Hs Ho Hlen) |].
  split; [now rewrite !length_map |].
  intros j r Hj. rewrite !list_lookup_fmap, Hj.
  cbn [fmap option_fmap option_map]. unfold kinetic_density.
  split; intros Hr.
  - now rewrite Rltb_true.
  - now rewrite Rltb_false.
Qed.

Lemma lagrangian_kinetic_energy_closed_form_witness :
  exists kinetic,
    SlaterAtoms.lagrangian_kinetic_energy hydrogen
      (SlaterAtoms.Points1 (map Some [0; 1])) = Ok kinetic
    /\ length kinetic = length [0; 1]
    /\ forall (j : nat) (r : R),
         [0; 1] !! j = Some r ->
         (Rabs r < 1 / 10 ^ 10 -> kinetic !! j = Some (Some 0))
         /\ (~ Rabs r < 1 / 10 ^ 10 ->
             kinetic !! j
             = Some (Some
                 (Rsum (zip_with
                          (fun ob o =>
                             orbital_kinetic ob.2 (angular_of ob.1) r * o)
                          (zip (SlaterAtoms.orbitals hydrogen) [hydrogen_basis])
                          [1])
                  / (r * r) / (2 * 4 * PI)))).
Proof.
  apply (lagrangian_kinetic_energy_closed_form hydrogen [hydrogen_basis] [1]
           [0; 1]).
  - apply hydrogen_has_basis.
  - apply hydrogen_supported.
  - reflexivity.
  - reflexivity.
Defined.

Lemma orbital_kinetic_single (z c r : R) :
  orbital_kinetic {| b_exps := [z]; b_numbers := [1%Z]; b_coeffs := [c] |} 0 r
  = exp (- (1) * ((z + z) * r))
    * (c * slater_normalization z 1 * (c * slater_normalization z 1))
    * (z * r * (2 - z * r)).
Proof.
  unfold orbital_kinetic, kinetic_summand.
  cbn [b_exps b_numbers b_coeffs length seq map nth Rsum fold_right].
  change (1 + 1 - 2)%Z with 0%Z. change (1 + 1 - 1)%Z with 1%Z.
  change (1 + 1 - 0)%Z with 2%Z.
  change (powerRZ r 0) with 1. change (powerRZ r 1) with (r * 1).
  change (powerRZ r 2) with (r * (r * 1)).
  ring.
Qed.

(** X26.  The density that [lagrangian_kinetic_energy] returns is not
    positive everywhere: for an atom with a single orbital of type S
    on a single Slater function of principal number 1, exponent
    [zeta] and a coefficient that is not zero, with a strictly
    positive occupation number, the value it returns at every point
    [r > 2 / zeta] (and at least [1e-10]) is strictly negative. *)
Theorem lagrangian_kinetic_energy_negative
    (self : SlaterAtoms.t) (orbital : string) (zeta c o : R) (rs : list R) :
  SlaterAtoms.orbitals self = [orbital] ->
  has_basis self orbital
    {| b_exps := [zeta]; b_numbers := [1%Z]; b_coeffs := [c] |} ->
  SlaterAtoms.str_getitem_1 orbital = Ok "S" ->
  SlaterAtoms.orbitals_occupation self = [Some o] ->
  0 < o -> c <> 0 ->
  exists kinetic,
    SlaterAtoms.lagrangian_kinetic_energy self
      (SlaterAtoms.Points1 (map Some rs)) = Ok (map Some kinetic)
    /\ forall (j : nat) (r : R),
         rs !! j = Some r -> 1 / 10 ^ 10 <= r -> 2 / zeta < r ->
         exists v, kinetic !! j = Some v /\ v < 0.
Proof.
  intros Horbs Hb K Ho Hpos Hc.
  set (b := {| b_exps := [zeta]; b_numbers := [1%Z]; b_coeffs := [c] |}) in *.
  assert (Hz : 0 < zeta).
  { destruct Hb as (key & _ & _ & _ & _ & Hz & _).
    cbn in Hz. now inversion Hz. }
  eexists. split.
  - apply (lagrangian_kinetic_energy_Some self [b] [o] rs).
    + rewrite Horbs. repeat constructor. exact Hb.
    + rewrite Horbs. repeat constructor. exists "S", 0. now split.
    + exact Ho.
    + reflexivity.
  - intros j r Hj Hr Hr2. rewrite list_lookup_fmap, Hj.
    eexists. split; [reflexivity |].
    unfold kinetic_density.
    rewrite Rltb_false by (rewrite Rabs_pos_eq; lra).
    rewrite Horbs. cbn [zip zip_with Rsum fold_right fst snd].
    rewrite (angular_of_supported orbital "S" 0 K eq_refl).
    unfold b. rewrite orbital_kinetic_single.
    pose proof (slater_normalization_pos zeta 1 Hz) as HN.
    pose proof (exp_pos (- (1) * ((zeta + zeta) * r))) as He.
    pose proof PI_RGT_0 as Hpi.
    assert (0 < r) by (pose proof (pow_lt 10 10 ltac:(lra));
                       assert (0 < 1 / 10 ^ 10) by (apply Rdiv_lt_0_compat; lra);
                       lra).
    assert (Hzr : 2 < zeta * r).
    { apply (Rmult_lt_compat_l zeta) in Hr2; [| assumption].
      replace (zeta * (2 / zeta)) with 2 in Hr2 by (field; lra). lra. }
    set (w := c * slater_normalization zeta 1).
    assert (Hw : 0 < w * w).
    { assert (w <> 0) by (unfold w; apply Rmult_integral_contrapositive; lra).
      nra. }
    assert (Hneg : zeta * r * (2 - zeta * r) < 0) by nra.
    assert (Hk : exp (- (1) * ((zeta + zeta) * r)) * (w * w)
                 * (zeta * r * (2 - zeta * r)) * o < 0) by
      (assert (0 < exp (- (1) * ((zeta + zeta) * r)) * (w * w) * o)
         by (apply Rmult_lt_0_compat;
             [apply Rmult_lt_0_compat; assumption | assumption]);
       nra).
    assert (0 < / (r * r)) by (apply Rinv_0_lt_compat; nra).
    assert (0 < / (2 * 4 * PI)) by (apply Rinv_0_lt_compat; lra).
    unfold Rdiv. rewrite Rplus_0_r.
    assert (0 < / (r * r) * / (2 * 4 * PI)) by now apply Rmult_lt_0_compat.
    nra.
Qed.

Lemma lagrangian_kinetic_energy_negative_witness :
  exists kinetic,
    SlaterAtoms.lagrangian_kinetic_energy hydrogen
      (SlaterAtoms.Points1 (map Some [3])) = Ok (map Some kinetic)
    /\ forall (j : nat) (r : R),
         [3] !! j = Some r -> 1 / 10 ^ 10 <= r -> 2 / 1 < r ->
         exists v, kinetic !! j = Some v /\ v < 0.
Proof.
  apply (lagrangian_kinetic_energy_negative hydrogen "1S" 1 1 1 [3]).
  - reflexivity.
  - pose proof hydrogen_has_basis as H. inversion H; subst. assumption.
  - reflexivity.
  - reflexivity.
  - lra.
  - lra.
Defined.

(** The first computation of a sequence that returns has returned. *)
Ltac bind_inv H :=
  match type of H with
  | mbind _ ?x = Ok _ =>
      let E := fresh "E" in
      destruct x eqn:E; step in H; [| discriminate]
  end.

Lemma sum_ij_length (a : SlaterAtoms.array3) (n : nat) :
  length (SlaterAtoms.sum_ij a n) = n.
Proof. unfold SlaterAtoms.sum_ij. now rewrite length_map, length_seq. Qed.

Lemma kinetic_term_length (self : SlaterAtoms.t) (r : list float) (index : nat)
    (orbital : string) (term : list float) :
  SlaterAtoms.kinetic_term self (SlaterAtoms.Points1 r) index orbital = Ok term ->
  length term = length r.
Proof.
  intros H. unfold SlaterAtoms.kinetic_term in H.
  repeat bind_inv H.
  injection H as <-. now rewrite length_map, sum_ij_length.
Qed.

Lemma kinetic_loop_length (self : SlaterAtoms.t) (r : list float) :
  forall (orbs : list string) (index : nat) (kin k : list float),
    SlaterAtoms.kinetic_loop self (SlaterAtoms.Points1 r) index orbs kin = Ok k ->
    length kin = length r -> length k = length r.
Proof.
  induction orbs as [|orbital orbs IH]; intros index kin k H Hlen.
  - injection H as <-. exact Hlen.
  - cbn [SlaterAtoms.kinetic_loop] in H.
    destruct (SlaterAtoms.kinetic_term _ _ _ _) as [term | e] eqn:E;
      step in H; [| discriminate].
    apply kinetic_term_length in E.
    apply (IH _ _ _ H). rewrite length_zip_with. lia.
Qed.

(** X27.  Whatever the data of the atom, when
    [lagrangian_kinetic_energy] returns it returns one value for each
    point, and exactly 0 at every point within [1e-10] of the origin,
    also where the sum it divides by [r^2] is not finite. *)
Theorem lagrangian_kinetic_energy_zero_near_origin
    (self : SlaterAtoms.t) (r kinetic : list float) :
  SlaterAtoms.lagrangian_kinetic_energy self (SlaterAtoms.Points1 r)
  = Ok kinetic ->
  length kinetic = length r
  /\ forall (j : nat) (x : R),
       r !! j = Some (Some x) -> Rabs x < 1 / 10 ^ 10 ->
       kinetic !! j = Some (Some 0).
Proof.
  intros H. unfold SlaterAtoms.lagrangian_kinetic_energy in H.
  destruct (SlaterAtoms.kinetic_loop _ _ _ _ _) as [l | e] eqn:E;
    step in H; [| discriminate].
  injection H as <-.
  apply kinetic_loop_length in E;
    [| cbn [SlaterAtoms.len]; now rewrite repeat_length].
  split; [rewrite length_map, length_zip_with; lia |].
  intros j x Hj Hx.
  assert (Hj' : @lookup nat float (list float) _ j r = Some (Some x))
    by exact Hj.
  rewrite list_lookup_fmap, lookup_zip_with.
  destruct (l !! j) as [y|] eqn:Hy.
  - cbn [mbind option_bind]. rewrite Hj'.
    cbn [mbind option_bind fmap option_fmap option_map].
    rewrite near_zero_Some, Rltb_true by assumption.
    rewrite fdiv_Some by apply eight_PI_neq_0.
    do 2 f_equal. unfold Rdiv. ring.
  - apply lookup_ge_None in Hy. apply lookup_lt_Some in Hj'. lia.
Qed.

Lemma lagrangian_kinetic_energy_zero_near_origin_witness :
  exists kinetic,
    SlaterAtoms.lagrangian_kinetic_energy hydrogen
      (SlaterAtoms.Points1 (map Some [0; 1])) = Ok kinetic
    /\ length kinetic = length (map Some [0; 1])
    /\ forall (j : nat) (x : R),
         map Some [0; 1] !! j = Some (Some x) -> Rabs x < 1 / 10 ^ 10 ->
         kinetic !! j = Some (Some 0).
Proof.
  eexists. split.
  - apply (lagrangian_kinetic_energy_Some hydrogen [hydrogen_basis] [1] [0; 1]);
      [apply hydrogen_has_basis | apply hydrogen_supported
      | reflexivity | reflexivity].
  - apply (lagrangian_kinetic_energy_zero_near_origin hydrogen
             (map Some [0; 1])).
    apply (lagrangian_kinetic_energy_Some hydrogen [hydrogen_basis] [1] [0; 1]);
      [apply hydrogen_has_basis | apply hydrogen_supported
      | reflexivity | reflexivity].
Defined.

Lemma orbital_to_angular_raises (key : string) (e : exn) :
  SlaterAtoms.orbital_to_angular key = Raise e -> e = KeyError.
Proof.
  unfold SlaterAtoms.orbital_to_angular.
  repeat (destruct (decide _); [discriminate |]).
  congruence.
Qed.

Lemma kinetic_loop_unsupported (self : SlaterAtoms.t) (rs : list R) :
  forall (orbs : list string) (bs : list basis) (occ : list R) (index : nat)
         (acc : R -> R),
    Forall2 (has_basis self) orbs bs ->
    (forall i o, occ !! i = Some o ->
                 SlaterAtoms.orbitals_occupation self !! (index + i)%nat
                 = Some (Some o)) ->
    length occ = length bs ->
    Exists (fun orbital => ~ supported orbital) orbs ->
    SlaterAtoms.kinetic_loop self (SlaterAtoms.Points1 (map Some rs)) index orbs
      (map Some (map acc rs))
    = Raise KeyError.
Proof.
  intros orbs bs occ index acc H. revert occ index acc.
  induction H as [|orbital b orbs bs Hb _ IH]; intros occ index acc Ho Hlen Hex.
  - inversion Hex.
  - destruct occ as [|o occ]; [discriminate |].
    cbn [SlaterAtoms.kinetic_loop].
    pose proof Hb as (key & K & E & Nn & _).
    destruct (SlaterAtoms.orbital_to_angular key) as [a | e] eqn:A.
    + assert (Hs : supported orbital) by (exists key, a; now split).
      rewrite (kinetic_term_Some self orbital b index o rs Hb Hs)
        by (rewrite <- (Nat.add_0_r index); now apply Ho).
      step.
      change fadd with (flift2 Rplus).
      rewrite zip_with_flift2, zip_with_map_same.
      apply (IH occ (S index)
               (fun r => acc r + orbital_kinetic b (angular_of orbital) r * o)).
      * intros i o' Hi.
        replace (S index + i)%nat with (index + S i)%nat by lia.
        now apply Ho.
      * simpl in Hlen. lia.
      * inversion Hex; subst; [contradiction | assumption].
    + unfold SlaterAtoms.kinetic_term. rewrite K. step.
      rewrite (dict_get_Some (V := list float) _ _ _ E). step.
      rewrite (dict_get_Some _ _ _ Nn). step.
      rewrite A. step.
      now rewrite (orbital_to_angular_raises key e A).
Qed.

Lemma atom_with_g_orbital_has_basis :
  Forall2 (has_basis atom_with_g_orbital)
    (SlaterAtoms.orbitals atom_with_g_orbital) [g_basis].
Proof.
  repeat constructor. exists "G".
  split; [reflexivity |].
  split; [apply lookup_singleton_eq |].
  split; [apply lookup_singleton_eq |].
  split; [apply lookup_singleton_eq |].
  split; [repeat constructor; simpl; lra |].
  split; [repeat constructor; simpl; lia |].
  split; reflexivity.
Qed.

(** X28.  [lagrangian_kinetic_energy] knows the types S, P, D and F
    only: for an atom whose data are complete, so that
    [atomic_density] returns its total density, it raises [KeyError]
    as soon as one orbital is of another type. *)
Theorem lagrangian_kinetic_energy_unsupported_type
    (self : SlaterAtoms.t) (bs : list basis) (occ rs : list R) :
  Forall2 (has_basis self) (SlaterAtoms.orbitals self) bs ->
  SlaterAtoms.orbitals_occupation self = map Some occ ->
  length occ = length bs ->
  Exists (fun orbital => ~ supported orbital) (SlaterAtoms.orbitals self) ->
  SlaterAtoms.lagrangian_kinetic_energy self (SlaterAtoms.Points1 (map Some rs))
  = Raise KeyError
  /\ exists dens,
       SlaterAtoms.atomic_density self (SlaterAtoms.Points1 (map Some rs))
         "total" = Ok dens.
Proof.
  intros Hb Ho Hlen Hex. split.
  - unfold SlaterAtoms.lagrangian_kinetic_energy.
    cbn [SlaterAtoms.len]. rewrite repeat_zero.
    rewrite (kinetic_loop_unsupported self rs _ bs occ 0 (fun _ => 0) Hb);
      try assumption; [reflexivity |].
    intros i o Hi. cbn [Nat.add].
    rewrite Ho, list_lookup_fmap, Hi. reflexivity.
  - eexists. apply (atomic_density_total_Some self bs occ rs Hb Ho Hlen).
Qed.

Lemma lagrangian_kinetic_energy_unsupported_type_witness :
  SlaterAtoms.lagrangian_kinetic_energy atom_with_g_orbital
    (SlaterAtoms.Points1 (map Some [0; 1]))
  = Raise KeyError
  /\ exists dens,
       SlaterAtoms.atomic_density atom_with_g_orbital
         (SlaterAtoms.Points1 (map Some [0; 1])) "total" = Ok dens.
Proof.
  apply (lagrangian_kinetic_energy_unsupported_type atom_with_g_orbital
           [g_basis] [1] [0; 1]).
  - apply atom_with_g_orbital_has_basis.
  - reflexivity.
  - reflexivity.
  - constructor. intros (key & a & K & A).
    injection K as <-. discriminate A.
Defined.
